(** * ajre-rules-engine: a shallow embedding of [src/businessRules.js]

    The development follows the source file function by function:
    JavaScript strings are lists of characters, JSON documents an
    inductive type, the mutable [contextCounter] object and the system
    clock an explicit machine state, and a thrown [Error] the left
    summand of a sum type. *)

From Stdlib Require Import Ascii String DecimalString.
From Stdlib Require Import List ZArith Lia Bool Arith.
From Stdlib Require Import Permutation Sorted.
From Equations Require Import Equations.
Import ListNotations.

Set Implicit Arguments.

(** ** JavaScript strings *)

(** A string is its sequence of code units; the model keeps the
    8-bit ones. *)
Definition str := list ascii.

Notation "$ s" := (list_ascii_of_string s%string)
  (at level 1, s at level 0, only parsing).

Module JsString.

Definition ascii_eqb (a b : ascii) : bool := Ascii.eqb a b.

(** [s.startsWith(pat)] *)
Fixpoint startsWith (pat s : str) : bool :=
  match pat, s with
  | [], _ => true
  | _ :: _, [] => false
  | p :: pat', c :: s' => ascii_eqb p c && startsWith pat' s'
  end.

(** [s.includes(pat)] *)
Fixpoint includes (pat s : str) : bool :=
  startsWith pat s ||
  match s with
  | [] => false
  | _ :: s' => includes pat s'
  end.

(** [s.split(sep)[0]] for a non-empty separator: the text before the
    first occurrence of [sep], the whole string when there is none. *)
Fixpoint splitHead (sep s : str) : str :=
  if startsWith sep s then []
  else match s with
       | [] => []
       | c :: s' => c :: splitHead sep s'
       end.

(** [s.lastIndexOf(c)] for a one-character pattern; [-1] when absent. *)
Fixpoint lastIndexOfFrom (c : ascii) (s : str) (i : Z) (found : Z) : Z :=
  match s with
  | [] => found
  | d :: s' => lastIndexOfFrom c s' (i + 1) (if ascii_eqb c d then i else found)
  end.

Definition lastIndexOf (c : ascii) (s : str) : Z :=
  lastIndexOfFrom c s 0 (-1).

(** [s.slice(k)] for [0 <= k]. *)
Definition slice (k : Z) (s : str) : str := skipn (Z.to_nat k) s.

(** The expansion of a replacement template when the pattern is a
    string ([GetSubstitution] with no captures): [$$] is a dollar sign,
    [$&] the matched text, [$`] the text before the match and [$'] the
    text after it; any other character, a lone [$] included, stands for
    itself. *)
Fixpoint getSubstitution (matched before after template : str) : str :=
  match template with
  | [] => []
  | d :: t =>
      if ascii_eqb d "$"%char then
        match t with
        | [] => [d]
        | c :: t' =>
            if ascii_eqb c "$"%char
            then "$"%char :: getSubstitution matched before after t'
            else if ascii_eqb c "&"%char
            then matched ++ getSubstitution matched before after t'
            else if ascii_eqb c "`"%char
            then before ++ getSubstitution matched before after t'
            else if ascii_eqb c "'"%char
            then after ++ getSubstitution matched before after t'
            else d :: getSubstitution matched before after t
        end
      else d :: getSubstitution matched before after t
  end.

(** [s.replace(pat, rep)] with a string pattern: the first occurrence
    only; [before] is the text already passed. *)
Fixpoint replaceFrom (pat rep before s : str) : str :=
  if startsWith pat s
  then getSubstitution pat before (skipn (length pat) s) rep
         ++ skipn (length pat) s
  else match s with
       | [] => []
       | c :: s' => c :: replaceFrom pat rep (before ++ [c]) s'
       end.

Definition replace (pat rep s : str) : str := replaceFrom pat rep [] s.

(** [s.replaceAll(pat, rep)] for a non-empty pattern: every occurrence,
    scanning from the left and resuming after each match; [skip] counts
    the characters of the current match still to be dropped. *)
Fixpoint replaceAllFrom (pat rep before : str) (skip : nat) (s : str) : str :=
  match s with
  | [] => []
  | c :: s' =>
      match skip with
      | S k => replaceAllFrom pat rep (before ++ [c]) k s'
      | O => if startsWith pat s
             then getSubstitution pat before (skipn (length pat) s) rep
                    ++ replaceAllFrom pat rep (before ++ [c]) (length pat - 1) s'
             else c :: replaceAllFrom pat rep (before ++ [c]) 0 s'
      end
  end.

(** The empty pattern matches before every character and at the end. *)
Fixpoint replaceAllEmpty (rep before s : str) : str :=
  getSubstitution [] before s rep
    ++ match s with
       | [] => []
       | c :: s' => c :: replaceAllEmpty rep (before ++ [c]) s'
       end.

Definition replaceAll (pat rep s : str) : str :=
  match pat with
  | [] => replaceAllEmpty rep [] s
  | _ :: _ => replaceAllFrom pat rep [] 0 s
  end.

(** Decimal rendering of an index, as a template literal does it. *)
Definition ofNat (n : nat) : str :=
  list_ascii_of_string (NilZero.string_of_uint (Nat.to_uint n)).

Definition ofZ (z : Z) : str :=
  list_ascii_of_string (NilZero.string_of_int (Z.to_int z)).

(** [s.toLowerCase()] on the 8-bit range. *)
Definition lowerChar (c : ascii) : ascii :=
  let n := nat_of_ascii c in
  if ((65 <=? n) && (n <=? 90))%nat
     || ((192 <=? n) && (n <=? 222) && negb (n =? 215))%nat
  then ascii_of_nat (n + 32) else c.

Definition toLowerCase (s : str) : str := map lowerChar s.

Definition eqb (a b : str) : bool :=
  if list_eq_dec ascii_dec a b then true else false.

End JsString.

(** ** JSON documents *)

(** Numbers are the integers; objects are association lists in key
    order. *)
#[warnings="-register-all"]
Inductive json : Type :=
| JNull
| JBool (b : bool)
| JNum (z : Z)
| JStr (s : str)
| JArr (items : list json)
| JObj (fields : list (str * json)).

(** Own property of an object. *)
Fixpoint ownProperty (k : str) (fields : list (str * json)) : option json :=
  match fields with
  | [] => None
  | (k', v) :: rest => if JsString.eqb k k' then Some v else ownProperty k rest
  end.

(** Where a resolved operand was read from: [===] and
    [Array.prototype.includes] compare objects and arrays by identity,
    which the place a value was read from determines. *)
Inductive origin : Type :=
| FromDocument (path : option str)
| FromContext (path : str)
| FromRule.

(** A resolved operand; [None] is [undefined]. *)
Record value : Type := mkValue { val : option json; from : origin }.

(** ** The host: what the engine takes from the language and from the
    [object-path] package *)

Class Host : Type := {
  (** [objectPath.get(obj, path)]; [None] is [undefined], and a path
      that is itself [undefined] is passed as [None]. *)
  objectPath_get : json -> option str -> option json;
  (** [a.localeCompare(b)] *)
  localeCompare : str -> str -> Z;
  (** the [n]-th reading of the system clock, in milliseconds *)
  Date_now : nat -> Z;
  (** [new Date(s)] as milliseconds; [None] is an invalid date *)
  Date_parse : str -> option Z;
  (** [a === b] *)
  strictEquals : value -> value -> bool;
  (** the abstract relational comparison [a < b]; [None] when it is
      undefined (a [NaN] operand) *)
  lessThan : value -> value -> option bool;
  (** [s.includes(x)] on a string receiver *)
  stringIncludes : str -> value -> bool;
  (** [xs.includes(x)] on an array receiver *)
  arrayIncludes : value -> value -> bool;
  (** [String(x)] inside a template literal *)
  toStr : option json -> str
}.

(** ** Loops and the context budget *)

(** A loop descriptor.  [parm] is the placeholder text written into the
    paths ([@0], [@1], ...); the descriptors rebuilt inside
    [explodeContexts] have none. *)
Record loop : Type := mkLoop {
  objectName : str;
  completeObjectPath : str;
  parm : option str
}.

(** A template literal renders a missing field as [undefined]. *)
Definition templ (o : option str) : str :=
  match o with
  | Some s => s
  | None => $"undefined"
  end.

Record contextCounter : Type := mkCounter {
  count : Z;
  limitReached : bool;
  timeReached : bool
}.

(** The mutable state of one context generation: the shared counter
    object and the number of clock readings taken so far. *)
Record machine : Type := mkMachine {
  counter : contextCounter;
  reads : nat
}.

Definition tripped (st : machine) : bool :=
  limitReached (counter st) || timeReached (counter st).

(** [for (let i = from; i < from + n; i++) body], where the body
    returns [true] to [break]. *)
Fixpoint forLoop {St : Type} (body : nat -> St -> St * bool) (from n : nat) (s : St) : St :=
  match n with
  | O => s
  | S n' =>
      let (s', brk) := body from s in
      if brk then s' else forLoop body (S from) n' s'
  end.

(** The bound of [for (i = 0; i < x.length; i++)] for
    [x = objectPath.get(...) ?? []]: the length of an array or of a
    string, the numeric [length] property an object owns, and zero
    otherwise ([undefined] and [null] become [[]], and [i < undefined]
    is false).  A [length] property that is not a number is not
    followed. *)
Definition loopLength (v : option json) : nat :=
  match v with
  | Some (JArr items) => length items
  | Some (JStr s) => length s
  | Some (JObj fields) =>
      match ownProperty $"length" fields with
      | Some (JNum z) => Z.to_nat z
      | _ => 0
      end
  | _ => 0
  end.

(** ** Conditions, rules and results *)

Record condition : Type := mkCondition {
  ref : option str;
  operator : str;
  comparisonValue : option json;
  comparisonRef : option str
}.

(** The two path-bearing fields of a condition. *)
Inductive field : Type := Ref | ComparisonRef.

Definition getField (f : field) (c : condition) : option str :=
  match f with
  | Ref => ref c
  | ComparisonRef => comparisonRef c
  end.

Definition setField (f : field) (v : str) (c : condition) : condition :=
  match f with
  | Ref => mkCondition (Some v) (operator c) (comparisonValue c) (comparisonRef c)
  | ComparisonRef => mkCondition (ref c) (operator c) (comparisonValue c) (Some v)
  end.

(** A string field is truthy when it is present and not empty. *)
Definition truthyStr (o : option str) : bool :=
  match o with
  | Some (_ :: _) => true
  | _ => false
  end.

(** One comparison that passed. *)
Record conditionValue : Type := mkConditionValue {
  instancePath : option str;
  instancePathValue : option json;
  cv_operator : str;
  cv_comparisonValue : option json
}.

(** The record of one context (or of the direct evaluation). *)
Record evaluation : Type := mkEvaluation {
  result : bool;
  conditionValues : list conditionValue
}.

(** The accumulator of [evaluateSimpleConditions]. *)
Record simpleResult : Type := mkSimpleResult {
  response : bool;
  items : list conditionValue
}.

(** A rule, with the fields the engine adds to its working copy;
    they are absent ([None]) in a rule as the caller wrote it. *)
Record rule : Type := mkRule {
  id : option json;
  type : option json;
  description : option json;
  initialDate : option str;
  endDate : option str;
  conditions : list condition;
  conditionResultContext : option (list evaluation);
  contexts : option (list (list nat));
  contextLimitReached : option bool;
  timeLimitReached : option bool;
  conditionsResult : option simpleResult
}.

Record errorEntry : Type := mkErrorEntry {
  cause : str;
  context : str
}.

(** The three shapes of the [conditions] field of a result entry. *)
Inductive conditionsPayload : Type :=
| PerContext (records : list evaluation)
| Direct (record : evaluation)
| Items (items : list conditionValue).

Record ruleResult : Type := mkRuleResult {
  r_id : option json;
  r_type : option json;
  r_message : option json;
  r_conditions : option conditionsPayload;
  r_keyword : str;
  r_errors : option (list errorEntry)
}.

Record options : Type := mkOptions {
  opt_contextLimit : option Z;
  opt_timeLimit : option Z;
  opt_returnAllContexts : option bool
}.

(** A computation that may throw: [inl] carries the message of the
    [Error]. *)
Definition throws (A : Type) : Type := (str + A)%type.

Definition bindT {A B : Type} (m : throws A) (k : A -> throws B) : throws B :=
  match m with
  | inl e => inl e
  | inr a => k a
  end.

Notation "x <- m ;; k" := (bindT m (fun x => k))
  (at level 61, m at next level, right associativity).

(** Truthiness of a JSON value. *)
Definition truthy (j : json) : bool :=
  match j with
  | JNull => false
  | JBool b => b
  | JNum z => negb (z =? 0)%Z
  | JStr s => match s with [] => false | _ => true end
  | JArr _ | JObj _ => true
  end.

(** The caller's heap: the objects a call receives by reference live at
    addresses, and so does every copy the engine allocates.  A cell
    holds a whole JSON tree or a whole array of rules. *)
Inductive object : Type :=
| ORules (rules : list rule)
| OJson (j : json).

Definition heap := list object.

Definition readRules (h : heap) (address : nat) : list rule :=
  match nth_error h address with
  | Some (ORules rules) => rules
  | _ => []
  end.

Definition readJson (h : heap) (address : nat) : json :=
  match nth_error h address with
  | Some (OJson j) => j
  | _ => JNull
  end.

Fixpoint writeAt {A : Type} (i : nat) (x : A) (l : list A) : list A :=
  match l, i with
  | [], _ => []
  | _ :: rest, O => x :: rest
  | y :: rest, S i' => y :: writeAt i' x rest
  end.

(** Overwrite element [index] of the array at [address]. *)
Definition writeRule (h : heap) (address index : nat) (r : rule) : heap :=
  writeAt address (ORules (writeAt index r (readRules h address))) h.

Section Engine.

Context {host : Host}.

(** [contextCounter.count++] followed by the two budget checks of a
    leaf: [inl] gives the state after a trip, [inr] the state when the
    tuple may be emitted.  The clock is read only when the count is
    within the limit, and [(now - start) / 1000 > timeLimit] is
    [now - start > 1000 * timeLimit] on integers. *)
Definition budgetCheck (contextLimit startTime timeLimit : Z) (st : machine)
  : machine + machine :=
  let c := counter st in
  let n := (count c + 1)%Z in
  if (n >? contextLimit)%Z
  then inl (mkMachine (mkCounter n true (timeReached c)) (reads st))
  else if (Date_now (reads st) - startTime >? 1000 * timeLimit)%Z
       then inl (mkMachine (mkCounter n (limitReached c) true) (S (reads st)))
       else inr (mkMachine (mkCounter n (limitReached c) (timeReached c)) (S (reads st))).

(** The descriptors of the remaining loops, rewritten for index [i] of
    the current loop. *)
Definition newLoops (currentLoop : loop) (i : nat) (loops : list loop) : list loop :=
  map (fun item =>
         mkLoop (objectName item)
           (JsString.replace
              (completeObjectPath currentLoop ++ $"[" ++ templ (parm currentLoop) ++ $"]")
              (completeObjectPath currentLoop ++ $"." ++ JsString.ofNat i)
              (completeObjectPath item))
           None)
      loops.

(** [explodeContexts].  The source also passes the rule's conditions,
    which the function never reads.  One loop is consumed per level; at
    the last level the budget is checked for every index, and a nested
    call's tuples are kept only when no flag is set on its return. *)
Equations? explodeContexts (documentJson : json) (existingLoops : list loop)
  (currentTuple : list nat) (contextLimit startTime timeLimit : Z) (st : machine)
  : list (list nat) * machine by wf (length existingLoops) lt :=
explodeContexts documentJson [] currentTuple contextLimit startTime timeLimit st :=
  match budgetCheck contextLimit startTime timeLimit st with
  | inl st' => ([], st')
  | inr st' => ([currentTuple], st')
  end;
explodeContexts documentJson (currentLoop :: loops) currentTuple contextLimit startTime timeLimit st :=
  forLoop
    (fun i (acc : list (list nat) * machine) =>
       let (totalTuples, st) := acc in
       if tripped st then (acc, true)
       else
         match loops with
         | _ :: _ =>
             let (tuples, st') :=
               explodeContexts documentJson (newLoops currentLoop i loops)
                 (currentTuple ++ [i]) contextLimit startTime timeLimit st in
             ((if tripped st' then totalTuples else totalTuples ++ tuples, st'), false)
         | [] =>
             match budgetCheck contextLimit startTime timeLimit st with
             | inl st' => ((totalTuples, st'), true)
             | inr st' => ((totalTuples ++ [currentTuple ++ [i]], st'), false)
             end
         end)
    0
    (loopLength (objectPath_get documentJson (Some (completeObjectPath currentLoop))))
    ([], st).
Proof.
  unfold newLoops. rewrite length_map. simpl. lia.
Qed.

(** ** Loop discovery *)

(** [extractLoopDetails]: [(objectName, completeObjectPath)]. *)
Definition extractLoopDetails (value : str) : str * str :=
  let path := JsString.splitHead $"[]" value in
  let lastDotIndex := JsString.lastIndexOf "."%char path in
  let name := JsString.slice (lastDotIndex + 1) path in
  (name, path).

(** The placeholder written for the loop list as it stands:
    [@${loops.length - 1}]. *)
Definition lastParm (loops : list loop) : str :=
  $"@" ++ JsString.ofZ (Z.of_nat (length loops) - 1).

(** The update of every [ref] and [comparisonRef] of the rule. *)
Definition annotateField (name : str) (loops : list loop) (f : field)
  (c : condition) : condition :=
  match getField f c with
  | Some v =>
      if truthyStr (Some v) && JsString.includes (name ++ $"[]") v
      then setField f
             (JsString.replaceAll (name ++ $"[]")
                (name ++ $"[" ++ lastParm loops ++ $"]") v)
             c
      else c
  | None => c
  end.

Definition annotateConditions (name : str) (loops : list loop)
  (conds : list condition) : list condition :=
  map (fun c => annotateField name loops ComparisonRef
                  (annotateField name loops Ref c))
      conds.

(** The [while (refValue.includes('[]'))] loop of one field; each
    round consumes one unit of [fuel]. *)
Fixpoint discoverInField (fuel : nat) (refValue : str)
  (conds : list condition) (loops : list loop)
  : list condition * list loop :=
  match fuel with
  | O => (conds, loops)
  | S fuel' =>
      if JsString.includes $"[]" refValue
      then
        let (name, path) := extractLoopDetails refValue in
        let loops' :=
          if existsb (fun l => JsString.eqb (completeObjectPath l) path) loops
          then loops
          else loops ++ [mkLoop name path
                           (Some ($"@" ++ JsString.ofNat (length loops)))] in
        let conds' := annotateConditions name loops' conds in
        let refValue' :=
          JsString.replace (name ++ $"[]")
            (name ++ $"[" ++ lastParm loops' ++ $"]") refValue in
        discoverInField fuel' refValue' conds' loops'
      else (conds, loops)
  end.

(** One field of the condition at [conditionIndex], read from the
    rule as it stands.  In a path without a dollar sign a round binds
    the first [[]] of [refValue], so its length bounds the number of
    rounds (lemma [processField_fuel]). *)
Definition processField (conditionIndex : nat) (f : field)
  (acc : list condition * list loop) : list condition * list loop :=
  let (conds, loops) := acc in
  match nth_error conds conditionIndex with
  | Some c =>
      match getField f c with
      | Some refValue =>
          if truthyStr (Some refValue)
          then discoverInField (S (length refValue)) refValue conds loops
          else acc
      | None => acc
      end
  | None => acc
  end.

(** [processConditionsForLoops], on the condition list of the rule and
    the loop list, both updated in place by the source. *)
Definition processConditionsForLoops (conds : list condition) (loops : list loop)
  : list condition * list loop :=
  fold_left
    (fun acc conditionIndex =>
       processField conditionIndex ComparisonRef (processField conditionIndex Ref acc))
    (seq 0 (length conds))
    (conds, loops).

(** [Array.prototype.sort] is stable: a descriptor goes before the
    first one the comparator puts it strictly below. *)
Fixpoint insertLoop (l : loop) (sorted : list loop) : list loop :=
  match sorted with
  | [] => [l]
  | x :: rest =>
      if (localeCompare (completeObjectPath l) (completeObjectPath x) <? 0)%Z
      then l :: sorted
      else x :: insertLoop l rest
  end.

(** [sortLoopsByPath] *)
Definition sortLoopsByPath (loops : list loop) : list loop :=
  fold_left (fun sorted l => insertLoop l sorted) loops [].

(** [names.indexOf(name)] *)
Fixpoint indexOfName (name : str) (names : list str) : option nat :=
  match names with
  | [] => None
  | n :: rest =>
      if JsString.eqb n name then Some 0
      else option_map S (indexOfName name rest)
  end.

Definition duplicateNames (names : list str) : list str :=
  map snd
    (filter (fun p : nat * str =>
               match indexOfName (snd p) names with
               | Some i => negb (i =? fst p)
               | None => true
               end)
            (combine (seq 0 (length names)) names)).

(** The answer (always [true]) and the names the warning lists; an
    empty list means no warning is printed. *)
Definition validateArrayReferences (sortedLoops : list loop) : bool * list str :=
  (true, duplicateNames (map objectName sortedLoops)).

(** ** Condition evaluation *)

(** [getValueWithContext]: a path under the [_context.] prefix is read
    from a truthy side context, any other path from the document. *)
Definition getValueWithContext (documentJson : json) (path : option str)
  (contextObj : option json) : value :=
  match path, contextObj with
  | Some p, Some ctx =>
      if JsString.startsWith $"_context." p && truthy ctx
      then let p' := JsString.replace $"_context." [] p in
           mkValue (objectPath_get ctx (Some p')) (FromContext p')
      else mkValue (objectPath_get documentJson path) (FromDocument path)
  | _, _ => mkValue (objectPath_get documentJson path) (FromDocument path)
  end.

Definition isUndefined (v : value) : bool :=
  match val v with
  | None => true
  | Some _ => false
  end.

(** [x.length] on a defined value; [None] is the [TypeError] of
    reading a property of [null]. *)
Definition lengthProperty (j : json) : option (option json) :=
  match j with
  | JNull => None
  | JArr xs => Some (Some (JNum (Z.of_nat (length xs))))
  | JStr s => Some (Some (JNum (Z.of_nat (length s))))
  | JObj fields => Some (ownProperty $"length" fields)
  | JBool _ | JNum _ => Some None
  end.

(** [recv.includes(x)]; [None] is the [TypeError] of a receiver that
    is neither a string nor an array. *)
Definition receiverIncludes (recv x : value) : option bool :=
  match val recv with
  | Some (JStr s) => Some (stringIncludes s x)
  | Some (JArr _) => Some (arrayIncludes recv x)
  | _ => None
  end.

Definition lowerIfString (v : value) : value :=
  match val v with
  | Some (JStr s) => mkValue (Some (JStr (JsString.toLowerCase s))) (from v)
  | _ => v
  end.

Definition JsZero : value := mkValue (Some (JNum 0)) FromRule.

Definition isOp (operator : str) (name : string) : bool :=
  JsString.eqb operator (list_ascii_of_string name).

(** Whatever is thrown inside [testCondition] is caught there and
    thrown again under this message. *)
Definition failedToTest (operator : str) : str :=
  $"Failed to test condition with operator [" ++ operator ++ $"].".

Definition orThrow {A : Type} (msg : str) (o : option A) : throws A :=
  match o with
  | Some a => inr a
  | None => inl msg
  end.

(** [testCondition].  [a <= b] is "not [b < a]" and [a >= b] is "not
    [a < b]", both false when the comparison is undefined. *)
Definition testCondition (leftValue rightValue : value) (operator : str)
  : throws bool :=
  if isOp operator "exists" then inr (negb (isUndefined leftValue))
  else if isOp operator "does_not_exists" then inr (isUndefined leftValue)
  else
    match val leftValue with
    | None => inr false
    | Some l =>
        if isOp operator "is_empty" then
          len <- orThrow (failedToTest operator) (lengthProperty l) ;;
          inr match len with
              | Some (JNum 0) => true
              | _ => false
              end
        else if isOp operator "is_not_empty" then
          len <- orThrow (failedToTest operator) (lengthProperty l) ;;
          inr match len with
              | Some (JNum z) => (0 <? z)%Z
              | _ => match lessThan JsZero (mkValue len (from leftValue)) with
                     | Some b => b
                     | None => false
                     end
              end
        else
          let leftValue := lowerIfString leftValue in
          let rightValue := lowerIfString rightValue in
          if isOp operator "=" then inr (strictEquals leftValue rightValue)
          else if isOp operator "<>" then inr (negb (strictEquals leftValue rightValue))
          else if isOp operator "<" then
            inr match lessThan leftValue rightValue with Some b => b | None => false end
          else if isOp operator "<=" then
            inr match lessThan rightValue leftValue with Some b => negb b | None => false end
          else if isOp operator ">" then
            inr match lessThan rightValue leftValue with Some b => b | None => false end
          else if isOp operator ">=" then
            inr match lessThan leftValue rightValue with Some b => negb b | None => false end
          else if isOp operator "contains" then
            orThrow (failedToTest operator) (receiverIncludes leftValue rightValue)
          else if isOp operator "does_not_contains" then
            b <- orThrow (failedToTest operator) (receiverIncludes leftValue rightValue) ;;
            inr (negb b)
          else if isOp operator "is_contained" then
            orThrow (failedToTest operator) (receiverIncludes rightValue leftValue)
          else if isOp operator "in" then
            orThrow (failedToTest operator) (receiverIncludes rightValue leftValue)
          else if isOp operator "not_in" then
            b <- orThrow (failedToTest operator) (receiverIncludes rightValue leftValue) ;;
            inr (negb b)
          else inl (failedToTest operator)
    end.

(** The body of the [try] block both evaluators run on a condition:
    the conflict check, the two operands and the test. *)
Definition compareOperands (documentJson : json) (c : condition)
  (contextObj : option json) : throws (bool * conditionValue) :=
  match comparisonValue c, comparisonRef c with
  | Some _, Some _ =>
      inl $"A condition cannot have both comparisonValue and comparisonRef."
  | _, _ =>
      let leftValue := getValueWithContext documentJson (ref c) contextObj in
      let rightValue :=
        match comparisonRef c with
        | Some _ => getValueWithContext documentJson (comparisonRef c) contextObj
        | None => mkValue (comparisonValue c) FromRule
        end in
      test <- testCondition leftValue rightValue (operator c) ;;
      inr (test, mkConditionValue (ref c) (val leftValue) (operator c) (val rightValue))
  end.

(** Replace whatever was thrown by the evaluator's own message. *)
Definition rethrow {A : Type} (msg : str) (m : throws A) : throws A :=
  match m with
  | inl _ => inl msg
  | inr a => inr a
  end.

(** [evaluateSimpleConditions]: the [reduce] over the conditions, which
    a thrown error leaves at once. *)
Definition evaluateSimpleConditions (documentJson : json)
  (conds : list condition) (contextObj : option json) : throws simpleResult :=
  fold_left
    (fun (acc : throws simpleResult) c =>
       result <- acc ;;
       if response result then
         r <- rethrow $"Failed to evaluate conditions in one context."
                (compareOperands documentJson c contextObj) ;;
         let (test, item) := r in
         inr (mkSimpleResult test
                (if test then items result ++ [item] else items result))
       else inr (mkSimpleResult false (items result)))
    conds
    (inr (mkSimpleResult true [])).

(** ** Path instantiation *)

(** [`.${context[loopIndex]}`] *)
Definition indexSegment (context : list nat) (loopIndex : nat) : str :=
  $"." ++ match nth_error context loopIndex with
          | Some i => JsString.ofNat i
          | None => $"undefined"
          end.

(** [`[@${loopIndex}]`] *)
Definition placeholderToken (loopIndex : nat) : str :=
  $"[@" ++ JsString.ofNat loopIndex ++ $"]".

(** [replaceContextValues]: for each position of the loop list, the
    token numbered by that position is replaced by the index the
    context holds at that position. *)
Definition replaceContextValues (c : condition) (loops : list loop)
  (context : list nat) : condition :=
  let adjusted :=
    fold_left
      (fun (acc : option str * option str) loopIndex =>
         let (adjustedRef, adjustedComparisonRef) := acc in
         (option_map
            (JsString.replaceAll (placeholderToken loopIndex)
               (indexSegment context loopIndex))
            adjustedRef,
          if truthyStr adjustedComparisonRef
          then option_map
                 (JsString.replaceAll (placeholderToken loopIndex)
                    (indexSegment context loopIndex))
                 adjustedComparisonRef
          else adjustedComparisonRef))
      (seq 0 (length loops))
      (ref c, comparisonRef c) in
  mkCondition (fst adjusted) (operator c) (comparisonValue c) (snd adjusted).

(** ** Evaluation in contexts *)

Definition failedInRule (ruleId : option json) : str :=
  $"Failed to evaluate conditions in one context in rule [" ++ toStr ruleId ++ $"].".

(** The conjunction of the instantiated conditions in one context. *)
Definition evaluateInContext (documentJson : json) (ruleId : option json)
  (conds : list condition) (loops : list loop) (contextObj : option json)
  (context : list nat) : throws evaluation :=
  let conditionsInContext :=
    map (fun c => replaceContextValues c loops context) conds in
  fold_left
    (fun (acc : throws evaluation) c =>
       prevItem <- acc ;;
       if result prevItem then
         r <- rethrow (failedInRule ruleId)
                (compareOperands documentJson c contextObj) ;;
         let (test, item) := r in
         if test
         then inr (mkEvaluation true (conditionValues prevItem ++ [item]))
         else inr (mkEvaluation false (conditionValues prevItem))
       else inr (mkEvaluation false (conditionValues prevItem)))
    conditionsInContext
    (inr (mkEvaluation true [])).

(** The [for (const context of rule.contexts)] loop, with its early
    [return] when one passing context is enough. *)
Fixpoint evaluateContextsFrom (documentJson : json) (ruleId : option json)
  (conds : list condition) (loops : list loop) (contextObj : option json)
  (returnAllContexts : bool) (remaining : list (list nat))
  (results : list evaluation) : throws (list evaluation) :=
  match remaining with
  | [] => inr results
  | context :: rest =>
      evaluation <- evaluateInContext documentJson ruleId conds loops contextObj context ;;
      if result evaluation then
        let results := results ++ [evaluation] in
        if negb returnAllContexts then inr results
        else evaluateContextsFrom documentJson ruleId conds loops contextObj
               returnAllContexts rest results
      else evaluateContextsFrom documentJson ruleId conds loops contextObj
             returnAllContexts rest results
  end.

(** [evaluateConditionsInContexts] *)
Definition evaluateConditionsInContexts (documentJson : json) (r : rule)
  (loops : list loop) (contextObj : option json) (returnAllContexts : bool)
  : throws (list evaluation) :=
  evaluateContextsFrom documentJson (id r) (conditions r) loops contextObj
    returnAllContexts
    (match contexts r with Some cs => cs | None => [] end)
    [].

(** ** The rule evaluator *)

Definition setConditions (cs : list condition) (r : rule) : rule :=
  mkRule (id r) (type r) (description r) (initialDate r) (endDate r) cs
    (conditionResultContext r) (contexts r) (contextLimitReached r)
    (timeLimitReached r) (conditionsResult r).

Definition setConditionResultContext (v : list evaluation) (r : rule) : rule :=
  mkRule (id r) (type r) (description r) (initialDate r) (endDate r) (conditions r)
    (Some v) (contexts r) (contextLimitReached r)
    (timeLimitReached r) (conditionsResult r).

Definition setContexts (tuples : list (list nat)) (c : contextCounter) (r : rule) : rule :=
  mkRule (id r) (type r) (description r) (initialDate r) (endDate r) (conditions r)
    (conditionResultContext r) (Some tuples) (Some (limitReached c))
    (Some (timeReached c)) (conditionsResult r).

Definition setConditionsResult (v : simpleResult) (r : rule) : rule :=
  mkRule (id r) (type r) (description r) (initialDate r) (endDate r) (conditions r)
    (conditionResultContext r) (contexts r) (contextLimitReached r)
    (timeLimitReached r) (Some v).

Definition keywordConditional : str := $"conditional".
Definition keywordContextLimit : str := $"context_limit".

(** The entries [addRuleToResults] pushes; nothing in its [try] block
    can throw on a rule of this type, so its [catch] is never taken. *)
Definition addRuleToResults (r : rule) : list ruleResult :=
  match conditionResultContext r with
  | Some (e :: es) =>
      [mkRuleResult (id r) (type r) (description r)
         (Some (PerContext (e :: es))) keywordConditional None]
  | _ =>
      match conditionsResult r with
      | Some res =>
          if response res && negb (length (items res) =? 0)
          then [mkRuleResult (id r) (type r) (description r)
                  (Some (Direct (mkEvaluation true (items res))))
                  keywordConditional None]
          else []
      | None => []
      end
  end.

(** The [context_limit] entry pushed when a budget flag is set. *)
Definition limitEntry (r : rule) (contextLimit timeLimit : Z) : list ruleResult :=
  let limit := match contextLimitReached r with Some b => b | None => false end in
  let time := match timeLimitReached r with Some b => b | None => false end in
  if limit || time then
    [mkRuleResult (id r) (type r) (description r) None keywordContextLimit
       (Some
          ((if limit
            then [mkErrorEntry $"Context limit reached"
                    ($"The number of contexts exceeded the limit ("
                       ++ JsString.ofZ contextLimit ++ $").")]
            else [])
           ++
           (if time
            then [mkErrorEntry $"Time limit reached"
                    ($"The time limit of " ++ JsString.ofZ timeLimit
                       ++ $" seconds was exceeded during context generation.")]
            else [])))]
  else [].

(** The entry pushed by the [catch] of the rule loop; its [conditions]
    field is [rule.conditionsResult?.items || []]. *)
Definition errorResult (r : rule) (message : str) : ruleResult :=
  mkRuleResult (id r) (type r) (description r)
    (Some (Items match conditionsResult r with
                 | Some res => items res
                 | None => []
                 end))
    keywordConditional
    (Some [mkErrorEntry message
             ($"Error occurred while processing rule [" ++ toStr (id r) ++ $"]")]).

Definition freshCounter : contextCounter := mkCounter 0 false false.

(** The loop list and the contexts of a rule: discovery, the in-place
    sort, and the explosion.  [loops.sort] sorts the array itself, so
    the sorted list is what every later step receives. *)
Definition prepareRule (documentJson : json) (contextLimit startTime timeLimit : Z)
  (r : rule) (clock : nat) : rule * list loop * machine :=
  let r := setConditionResultContext [] r in
  let (conds, loops) := processConditionsForLoops (conditions r) [] in
  let r := setConditions conds r in
  let loops := sortLoopsByPath loops in
  let (tuples, st) :=
    explodeContexts documentJson loops [] contextLimit startTime timeLimit
      (mkMachine freshCounter clock) in
  (setContexts tuples (counter st) r, loops, st).

(** The evaluation step of the [try] block; [inl] is what the
    [catch] receives. *)
Definition evaluateRule (documentJson : json) (contextObj : option json)
  (returnAllContexts : bool) (r : rule) (loops : list loop) : throws rule :=
  match contexts r with
  | Some (_ :: _) =>
      records <- evaluateConditionsInContexts documentJson r loops contextObj
                   returnAllContexts ;;
      inr (setConditionResultContext records r)
  | _ =>
      res <- evaluateSimpleConditions documentJson (conditions r) contextObj ;;
      inr (setConditionsResult res r)
  end.

(** The body of [validRulesByDate.forEach]: the rule as it is left,
    the entries pushed and the clock readings taken. *)
Definition processRule (documentJson : json) (contextObj : option json)
  (contextLimit startTime timeLimit : Z) (returnAllContexts : bool)
  (r : rule) (clock : nat) : rule * list ruleResult * nat :=
  let '(r, loops, st) :=
    prepareRule documentJson contextLimit startTime timeLimit r clock in
  if negb (fst (validateArrayReferences loops)) then (r, [], reads st)
  else
    match evaluateRule documentJson contextObj returnAllContexts r loops with
    | inr r' =>
        (r', addRuleToResults r' ++ limitEntry r' contextLimit timeLimit, reads st)
    | inl message => (r, [errorResult r message], reads st)
    end.

(** [new Date(d) <= new Date()] and its mirror image, guarded by the
    truthiness of the field; the clock is read only behind the guard. *)
Definition dateHolds (d : option str) (holds : Z -> Z -> bool) (reads : nat)
  : bool * nat :=
  match d with
  | Some s =>
      if truthyStr d
      then (match Date_parse s with
            | Some ms => holds ms (Date_now reads)
            | None => false
            end, S reads)
      else (true, reads)
  | None => (true, reads)
  end.

(** The indices of the rules in force, and the clock readings taken. *)
Definition filterRulesByDate (rules : list rule) (reads : nat) : list nat * nat :=
  fold_left
    (fun (acc : list nat * nat) (p : nat * rule) =>
       let (kept, reads) := acc in
       let (index, r) := p in
       let (isAfterStartDate, reads) := dateHolds (initialDate r) Z.leb reads in
       let (isBeforeEndDate, reads) := dateHolds (endDate r) Z.geb reads in
       (if isAfterStartDate && isBeforeEndDate then kept ++ [index] else kept, reads))
    (combine (seq 0 (length rules)) rules)
    ([], reads).

Definition contextLimitOf (o : options) : Z :=
  match opt_contextLimit o with Some l => l | None => 10000%Z end.
Definition timeLimitOf (o : options) : Z :=
  match opt_timeLimit o with Some l => l | None => 200%Z end.
Definition returnAllContextsOf (o : options) : bool :=
  match opt_returnAllContexts o with Some b => b | None => true end.

(** The rule loop: each rule object of the working copy is read,
    processed, and left annotated in the copy. *)
Definition ruleLoop (documentJson : json) (contextObj : option json) (o : options)
  (startTime : Z) (rulesObj : nat) (valid : list nat)
  (init : list ruleResult * heap * nat) : list ruleResult * heap * nat :=
  fold_left
    (fun (acc : list ruleResult * heap * nat) index =>
       let '(results, h, clock) := acc in
       match nth_error (readRules h rulesObj) index with
       | Some r =>
           let '(r', entries, clock') :=
             processRule documentJson contextObj (contextLimitOf o) startTime
               (timeLimitOf o) (returnAllContextsOf o) r clock in
           (results ++ entries, writeRule h rulesObj index r', clock')
       | None => acc
       end)
    valid init.

(** [validateRules].  The three object arguments are addresses in the
    caller's heap ([contextObj] may be [null]).  The deep copy
    [JSON.parse(JSON.stringify(rules))] is allocated at a fresh
    address and is the only cell written; the document and the side
    context are only read. *)
Definition validateRules (h : heap) (documentJson rules : nat)
  (contextObj : option nat) (o : options) : list ruleResult * heap :=
  let rulesObj := length h in
  let document := readJson h documentJson in
  let sideContext := option_map (readJson h) contextObj in
  let h := h ++ [ORules (readRules h rules)] in
  let (validRulesByDate, clock) := filterRulesByDate (readRules h rulesObj) 0 in
  let startTime := Date_now clock in
  let '(results, h, _) :=
    ruleLoop document sideContext o startTime rulesObj validRulesByDate
      ([], h, S clock) in
  (results, h).

End Engine.

(** ** Reference definitions for the statements *)

Section Reference.

Context {host : Host}.

(** The full enumeration of index combinations, with no budget: for
    each index of the first loop, in order, the combinations of the
    remaining loops resolved under that index. *)
Equations? fullContexts (documentJson : json) (loops : list loop)
  (currentTuple : list nat) : list (list nat) by wf (length loops) lt :=
fullContexts documentJson [] currentTuple := [currentTuple];
fullContexts documentJson (currentLoop :: rest) currentTuple :=
  flat_map
    (fun i => fullContexts documentJson (newLoops currentLoop i rest)
                (currentTuple ++ [i]))
    (seq 0 (loopLength
              (objectPath_get documentJson (Some (completeObjectPath currentLoop))))).
Proof.
  unfold newLoops. rewrite length_map. simpl. lia.
Qed.

(** The row-major product of two index ranges. *)
Definition rowMajor (m n : nat) : list (list nat) :=
  flat_map (fun i => map (fun j => [i; j]) (seq 0 n)) (seq 0 m).

(** The array a loop descriptor traverses has [n] elements. *)
Definition arrayLength (documentJson : json) (path : str) (n : nat) : Prop :=
  exists items, objectPath_get documentJson (Some path) = Some (JArr items)
                /\ length items = n.

Definition cnt (st : machine) : Z := count (counter st).

(** A path with no bracket: it traverses no array itself, so the
    rewriting inside the generator leaves it alone. *)
Definition bracketFree (s : str) : Prop := ~ In "["%char s.

(** The product of the lengths the loops' own paths resolve to. *)
Definition cartesianSize (documentJson : json) (loops : list loop) : nat :=
  fold_right Nat.mul 1
    (map (fun l => loopLength
                     (objectPath_get documentJson (Some (completeObjectPath l))))
         loops).

(** The clock never shows more than the time limit allows. *)
Definition withinTime (startTime timeLimit : Z) : Prop :=
  forall n, (Date_now n - startTime <= 1000 * timeLimit)%Z.

(** What one run of the generator, from state [st] to state [st'],
    guarantees about the tuples [ts] it returns, [full] being the
    unbudgeted enumeration. *)
Definition explodeOk (contextLimit startTime timeLimit : Z) (st : machine)
  (full ts : list (list nat)) (st' : machine) : Prop :=
  (exists rest, full = ts ++ rest) /\
  (tripped st' = false ->
   ts = full /\ cnt st' = (cnt st + Z.of_nat (length full))%Z) /\
  (Z.of_nat (length ts) <= Z.max 0 (contextLimit - cnt st))%Z /\
  (Z.of_nat (length ts) <= cnt st' - cnt st)%Z /\
  (cnt st' <= cnt st + Z.of_nat (length full))%Z /\
  (limitReached (counter st') = true -> limitReached (counter st) = false ->
   (contextLimit < cnt st')%Z) /\
  (tripped st' = false -> (cnt st' <= Z.max contextLimit (cnt st))%Z) /\
  (limitReached (counter st) = true -> limitReached (counter st') = true) /\
  (timeReached (counter st) = true -> timeReached (counter st') = true) /\
  (withinTime startTime timeLimit ->
   timeReached (counter st') = timeReached (counter st)).

(** The rules picked by a list of indices. *)
Definition pick (rules : list rule) (indices : list nat) : list rule :=
  flat_map (fun i => match nth_error rules i with
                     | Some r => [r]
                     | None => []
                     end)
           indices.

(** The entries of a batch, rule by rule: each rule is processed on
    its own, from the clock position the previous one left. *)
Fixpoint batchEntries (documentJson : json) (contextObj : option json)
  (o : options) (startTime : Z) (rules : list rule) (clock : nat)
  : list ruleResult :=
  match rules with
  | [] => []
  | r :: rest =>
      let '(_, entries, clock') :=
        processRule documentJson contextObj (contextLimitOf o) startTime
          (timeLimitOf o) (returnAllContextsOf o) r clock in
      entries ++ batchEntries documentJson contextObj o startTime rest clock'
  end.

(** The results of a call on the rules array [rules]. *)
Definition batchResults (documentJson : json) (contextObj : option json)
  (o : options) (rules : list rule) : list ruleResult :=
  let (valid, clock) := filterRulesByDate rules 0 in
  batchEntries documentJson contextObj o (Date_now clock) (pick rules valid) (S clock).

(** A condition passes: its comparison is carried out and holds. *)
Definition passes (documentJson : json) (contextObj : option json)
  (c : condition) : Prop :=
  exists item, compareOperands documentJson c contextObj = inr (true, item).

(** The conjunction of the rule's conditions passes in a context. *)
Definition passesIn (documentJson : json) (r : rule) (loops : list loop)
  (contextObj : option json) (context : list nat) : Prop :=
  exists ev,
    evaluateInContext documentJson (id r) (conditions r) loops contextObj context
    = inr ev /\ result ev = true.





End Reference.

(** The text after the first occurrence of [sep], if there is one. *)
Fixpoint afterFirst (sep s : str) : option str :=
  if JsString.startsWith sep s then Some (skipn (length sep) s)
  else match s with
       | [] => None
       | _ :: s' => afterFirst sep s'
       end.

(** A bound on the rounds the [while] loop of a field can still make:
    the text left after the first unbound marker. *)
Definition roundsLeft (refValue : str) : nat :=
  match afterFirst $"[]" refValue with
  | Some rest => S (length rest)
  | None => 0
  end.

(** No occurrence of the marker [[]] starts inside [w] when [w] is
    followed by a marker and [rest]. *)
Definition noEarly (w rest : str) : Prop :=
  forall a b, w = a ++ b -> b <> [] ->
              JsString.startsWith $"[]" (b ++ $"[]" ++ rest) = false.

(** The last dot-separated segment of a path. *)
Definition lastSegment (p : str) : str :=
  JsString.slice (JsString.lastIndexOf "."%char p + 1) p.

(** A field that traverses the array at [p] and no other. *)
Definition arrayRef (p : str) (o : option str) : Prop :=
  exists s, o = Some (p ++ $"[]" ++ s) /\ ~ In "["%char s.

(** A field that traverses no array. *)
Definition plainRef (o : option str) : Prop :=
  o = None \/ exists v, o = Some v /\ ~ In "["%char v.

(** Every path of the condition is plain or traverses the array at [p]. *)
Definition refersOnlyTo (p : str) (c : condition) : Prop :=
  (arrayRef p (ref c) \/ plainRef (ref c)) /\
  (arrayRef p (comparisonRef c) \/ plainRef (comparisonRef c)).

Definition mentions (p : str) (c : condition) : Prop :=
  arrayRef p (ref c) \/ arrayRef p (comparisonRef c).

(** The one descriptor discovery builds for the array at [p]. *)
Definition singleLoop (p : str) : loop := mkLoop (lastSegment p) p (Some $"@0").

(** The annotated form of the path [p[]s]. *)
Definition bound (p s : str) : str := p ++ $"[@0]" ++ s.

(** A condition none of whose paths holds an unbound marker. *)
Definition quiet (c : condition) : Prop :=
  forall f v, getField f c = Some v -> JsString.includes $"[]" v = false.

(** One round of the rule loop of [processConditionsForLoops]. *)
Definition discoveryStep (acc : list condition * list loop) (conditionIndex : nat)
  : list condition * list loop :=
  processField conditionIndex ComparisonRef (processField conditionIndex Ref acc).

(** ** A concrete host

    A model of the host on JSON trees, used to run the engine on
    concrete inputs: [object-path]'s [get] on own properties, code-unit
    order for [localeCompare], and the comparison operators on scalars. *)
Module Model.

(** [s.split('.')] *)
Fixpoint splitDots (s : str) (current : str) : list str :=
  match s with
  | [] => [current]
  | c :: s' =>
      if JsString.ascii_eqb c "."%char
      then current :: splitDots s' []
      else splitDots s' (current ++ [c])
  end.

Definition digitOf (c : ascii) : option nat :=
  let n := nat_of_ascii c in
  if ((48 <=? n) && (n <=? 57))%nat then Some (n - 48) else None.

Fixpoint parseDigits (s : str) (acc : nat) : option nat :=
  match s with
  | [] => Some acc
  | c :: s' =>
      match digitOf c with
      | Some d => parseDigits s' (10 * acc + d)
      | None => None
      end
  end.

(** The array index a key denotes: [parseInt(key).toString() === key]
    with a non-negative result. *)
Definition indexKey (k : str) : option nat :=
  match k with
  | [] => None
  | _ :: _ =>
      match parseDigits k 0 with
      | Some n => if JsString.eqb (JsString.ofNat n) k then Some n else None
      | None => None
      end
  end.

(** [getShallowProperty]: own properties only. *)
Definition shallow (obj : json) (k : str) : option json :=
  match obj with
  | JObj fields => ownProperty k fields
  | JArr xs =>
      match indexKey k with
      | Some n => nth_error xs n
      | None => if JsString.eqb k $"length"
                then Some (JNum (Z.of_nat (length xs))) else None
      end
  | JStr s =>
      match indexKey k with
      | Some n => option_map (fun c => JStr [c]) (nth_error s n)
      | None => if JsString.eqb k $"length"
                then Some (JNum (Z.of_nat (length s))) else None
      end
  | JNull | JBool _ | JNum _ => None
  end.

Fixpoint getPath (segments : list str) (obj : json) : option json :=
  match segments with
  | [] => Some obj
  | k :: rest =>
      match obj with
      | JNull => None
      | _ =>
          match shallow obj k with
          | None => None
          | Some next =>
              match rest with
              | [] => Some next
              | _ :: _ => getPath rest next
              end
          end
      end
  end.

Definition get (obj : json) (path : option str) : option json :=
  match path with
  | None | Some [] => Some obj
  | Some p => getPath (splitDots p []) obj
  end.

(** Code-unit order. *)
Fixpoint compareStr (a b : str) : Z :=
  match a, b with
  | [], [] => 0
  | [], _ :: _ => -1
  | _ :: _, [] => 1
  | x :: a', y :: b' =>
      let n := nat_of_ascii x in
      let m := nat_of_ascii y in
      if (n <? m)%nat then -1
      else if (m <? n)%nat then 1
      else compareStr a' b'
  end.

Definition sameOrigin (a b : origin) : bool :=
  match a, b with
  | FromDocument (Some p), FromDocument (Some q) => JsString.eqb p q
  | FromDocument None, FromDocument None => true
  | FromContext p, FromContext q => JsString.eqb p q
  | _, _ => false
  end.

Definition equalsAt (oa ob : origin) (a b : option json) : bool :=
  match a, b with
  | None, None => true
  | Some JNull, Some JNull => true
  | Some (JBool x), Some (JBool y) => Bool.eqb x y
  | Some (JNum x), Some (JNum y) => (x =? y)%Z
  | Some (JStr x), Some (JStr y) => JsString.eqb x y
  | Some (JArr _), Some (JArr _) => sameOrigin oa ob
  | Some (JObj _), Some (JObj _) => sameOrigin oa ob
  | _, _ => false
  end.

Definition strictEq (v w : value) : bool :=
  equalsAt (from v) (from w) (val v) (val w).

Definition toNumber (o : option json) : option Z :=
  match o with
  | Some JNull => Some 0%Z
  | Some (JBool b) => Some (if b then 1 else 0)%Z
  | Some (JNum z) => Some z
  | Some (JStr []) => Some 0%Z
  | Some (JStr s) => option_map Z.of_nat (parseDigits s 0)
  | _ => None
  end.

Definition lt (v w : value) : option bool :=
  match val v, val w with
  | Some (JStr a), Some (JStr b) => Some (compareStr a b <? 0)%Z
  | a, b =>
      match toNumber a, toNumber b with
      | Some x, Some y => Some (x <? y)%Z
      | _, _ => None
      end
  end.

Definition show (o : option json) : str :=
  match o with
  | None => $"undefined"
  | Some JNull => $"null"
  | Some (JBool true) => $"true"
  | Some (JBool false) => $"false"
  | Some (JNum z) => JsString.ofZ z
  | Some (JStr s) => s
  | Some (JArr _) => []
  | Some (JObj _) => $"[object Object]"
  end.

Definition strIncludes (s : str) (x : value) : bool :=
  JsString.includes (show (val x)) s.

Definition arrIncludes (recv x : value) : bool :=
  match val recv with
  | Some (JArr xs) => existsb (fun e => equalsAt FromRule FromRule (Some e) (val x)) xs
  | _ => false
  end.

Definition host (clock : nat -> Z) (parse : str -> option Z) : Host :=
  {| objectPath_get := get;
     localeCompare := compareStr;
     Date_now := clock;
     Date_parse := parse;
     strictEquals := strictEq;
     lessThan := lt;
     stringIncludes := strIncludes;
     arrayIncludes := arrIncludes;
     toStr := show |}.

(** A clock that stands still, and no parsable dates. *)
Definition still : Host := host (fun _ => 0%Z) (fun _ => None).

End Model.

(** ** Sample inputs *)

Module Examples.

Definition plainRule (name : string) (cs : list condition) : rule :=
  mkRule (Some (JStr (list_ascii_of_string name))) None None None None cs
    None None None None None.

Definition noOptions : options := mkOptions None None None.

(** [{ a: [{x:1},{x:2}], b: [{y:1},{y:2},{y:3}] }] *)
Definition docAB : json :=
  JObj [($"a", JArr [JObj [($"x", JNum 1)]; JObj [($"x", JNum 2)]]);
        ($"b", JArr [JObj [($"y", JNum 1)]; JObj [($"y", JNum 2)];
                     JObj [($"y", JNum 3)]])].

Definition loopA : loop := mkLoop $"a" $"a" (Some $"@0").
Definition loopB : loop := mkLoop $"b" $"b" (Some $"@1").

(** [a[].x = b[].y] *)
Definition ruleAB : rule :=
  plainRule "ab" [mkCondition (Some $"a[].x") $"=" None (Some $"b[].y")].

(** The same rule after loop discovery. *)
Definition ruleABannotated : rule :=
  mkRule (Some (JStr $"ab")) None None None None
    [mkCondition (Some $"a[@0].x") $"=" None (Some $"b[@1].y")]
    (Some []) (Some (rowMajor 2 3)) (Some false) (Some false) None.


(** [{ alpha: [{w:2}], zeta: [{v:1},{v:2}] }] and the rule
    [zeta[].v = alpha[].w]: the arrays are met in one order and
    sorted into the other. *)
Definition docZA : json :=
  JObj [($"alpha", JArr [JObj [($"w", JNum 2)]]);
        ($"zeta", JArr [JObj [($"v", JNum 1)]; JObj [($"v", JNum 2)]])].

Definition ruleZA : rule :=
  plainRule "za" [mkCondition (Some $"zeta[].v") $"=" None (Some $"alpha[].w")].

(** [{ a: {items: [{v:1}]}, b: {items: [{v:2},{v:1}]} }] and the rule
    [a.items[].v = b.items[].v]: two arrays with one last segment. *)
Definition docItems : json :=
  JObj [($"a", JObj [($"items", JArr [JObj [($"v", JNum 1)]])]);
        ($"b", JObj [($"items", JArr [JObj [($"v", JNum 2)];
                                       JObj [($"v", JNum 1)]])])].

Definition ruleItems : rule :=
  plainRule "items"
    [mkCondition (Some $"a.items[].v") $"=" None (Some $"b.items[].v")].

(** The document and the rule of the test on one array referenced
    from both fields. *)
Definition docPessoas : json :=
  JObj [($"pessoas",
         JArr [JObj [($"idade", JNum 20); ($"idadeReferencia", JNum 18)];
               JObj [($"idade", JNum 15); ($"idadeReferencia", JNum 18)]])].




(** The document and the two rules of the test on an invalid operator
    next to a valid one. *)
Definition docJohn : json :=
  JObj [($"name", JStr $"John Doe"); ($"age", JNum 22)].

Definition ruleInvalid : rule :=
  plainRule "1"
    [mkCondition (Some $"name") $"INVALID_OPERATOR" (Some (JStr $"John Doe")) None].

Definition ruleValid : rule :=
  plainRule "2" [mkCondition (Some $"name") $"=" (Some (JStr $"John Doe")) None].

Definition ruleConflict : rule :=
  plainRule "7" [mkCondition (Some $"age") $"=" (Some (JNum 22)) (Some $"age")].

(** A caller's heap: the document at address 0, the rules at 1. *)
Definition heapJohn : heap := [OJson docJohn; ORules [ruleInvalid; ruleValid]].

End Examples.

(** ** Reference definitions for the further properties *)


(** The records of the conditions of [conds] that pass. *)
Definition passingItems {host : Host} (documentJson : json)
  (contextObj : option json) (conds : list condition) : list conditionValue :=
  flat_map (fun c => match compareOperands documentJson c contextObj with
                     | inr (true, item) => [item]
                     | _ => []
                     end)
           conds.

(** The two accumulators hold the same answer, or the two errors. *)
Definition sameAnswer {host : Host} (ruleId : option json) (a : throws simpleResult)
  (b : throws evaluation) : Prop :=
  match a, b with
  | inr res, inr ev => response res = result ev /\ items res = conditionValues ev
  | inl m, inl m' =>
      m = $"Failed to evaluate conditions in one context."
      /\ m' = failedInRule ruleId
  | _, _ => False
  end.

(** Every descriptor carries its position in the list as its
    placeholder and the last segment of its path as its name. *)
Definition wellNumbered (loops : list loop) : Prop :=
  forall k l, nth_error loops k = Some l ->
              parm l = Some ($"@" ++ JsString.ofNat k)
              /\ objectName l = lastSegment (completeObjectPath l).

(** [c'] is [c] up to the rewriting of the paths that hold a marker:
    same operator, same comparison value, the same fields present, and
    every path without a marker unchanged. *)
Definition rewrittenFrom (c c' : condition) : Prop :=
  operator c' = operator c
  /\ comparisonValue c' = comparisonValue c
  /\ forall f, match getField f c with
               | None => getField f c' = None
               | Some v =>
                   exists v', getField f c' = Some v'
                              /\ (JsString.includes $"[]" v = false -> v' = v)
               end.

(** The order [sortLoopsByPath] sorts by. *)
Definition pathLe {host : Host} (a b : loop) : Prop :=
  (localeCompare (completeObjectPath a) (completeObjectPath b) <= 0)%Z.

(** A tuple holds one index per loop, each within the array the path
    of its loop resolves to. *)
Definition inBounds {host : Host} (documentJson : json) (loops : list loop)
  (t : list nat) : Prop :=
  Forall2
    (fun i l =>
       i < loopLength (objectPath_get documentJson (Some (completeObjectPath l))))
    t loops.

(** A date field lets a rule through at the instant [now]: it is
    absent or empty, or it parses to a date that [holds] against
    [now]. *)
Definition dateAllows {host : Host} (d : option str) (holds : Z -> Z -> bool)
  (now : Z) : bool :=
  match d with
  | Some (c :: s) =>
      match Date_parse (c :: s) with
      | Some ms => holds ms now
      | None => false
      end
  | _ => true
  end.

(** The rule is in force at [now]. *)
Definition inForce {host : Host} (now : Z) (r : rule) : bool :=
  dateAllows (initialDate r) Z.leb now && dateAllows (endDate r) Z.geb now.

(** The entry carries the identification of the rule. *)
Definition entryOf (r : rule) (e : ruleResult) : Prop :=
  r_id e = id r /\ r_type e = type r /\ r_message e = description r.

(** A condition on the elements of the array at [p]: the field at
    [s] of an element, under an operator, against a constant. *)
Definition elementCondition (p : str) (spec : str * str * option json) : condition :=
  let '(s, op, cv) := spec in
  mkCondition (Some (p ++ $"[]" ++ s)) op cv None.

(** The same condition on the element at index [i]. *)
Definition atElement (p : str) (i : nat) (spec : str * str * option json)
  : condition :=
  let '(s, op, cv) := spec in
  mkCondition (Some (p ++ $"." ++ JsString.ofNat i ++ s)) op cv None.

(** The condition [p[]s op q[]t]: a field of the elements of one
    array against a field of the elements of another. *)
Definition pairCondition (p s q t op : str) (cv : option json) : condition :=
  mkCondition (Some (p ++ $"[]" ++ s)) op cv (Some (q ++ $"[]" ++ t)).

(** The same condition on element [i] of the first array and element
    [j] of the second. *)
Definition atPair (p s q t op : str) (cv : option json) (i j : nat) : condition :=
  mkCondition (Some (p ++ $"." ++ JsString.ofNat i ++ s)) op cv
    (Some (q ++ $"." ++ JsString.ofNat j ++ t)).

(** The descriptor discovery builds second, for the array at [q]. *)
Definition secondLoop (q : str) : loop := mkLoop (lastSegment q) q (Some $"@1").

(** The entry that reports the records of the passing contexts, if
    there are any. *)
Definition reportOf (r : rule) (records : list evaluation) : list ruleResult :=
  match records with
  | [] => []
  | _ :: _ => [mkRuleResult (id r) (type r) (description r)
                 (Some (PerContext records)) keywordConditional None]
  end.

(** ** Further sample inputs *)

Module Samples.

(** A clock that stands at the first instant of 2026, and the two
    dates it knows. *)
Definition dated : Host :=
  Model.host (fun _ => 1767225600000%Z)
    (fun s => if JsString.eqb s $"2020-01-01" then Some 1577836800000%Z
              else if JsString.eqb s $"2999-01-01" then Some 32472144000000%Z
              else None).

Definition datedRule (name : string) (initial final : option str) : rule :=
  mkRule (Some (JStr (list_ascii_of_string name))) None None initial final []
    None None None None None.

(** Four rules: one that ended in 2020, one without dates, one that
    starts in 2999 and one whose end date does not parse. *)
Definition datedRules : list rule :=
  [datedRule "ended" None (Some $"2020-01-01");
   datedRule "always" None None;
   datedRule "later" (Some $"2999-01-01") None;
   datedRule "garbled" None (Some $"soon")].

(** [name = 'John Doe'], [age < 18] and a condition that would raise. *)
Definition nameIsJohn : condition :=
  mkCondition (Some $"name") $"=" (Some (JStr $"John Doe")) None.
Definition isMinor : condition :=
  mkCondition (Some $"age") $"<" (Some (JNum 18)) None.
Definition raising : condition :=
  mkCondition (Some $"name") $"INVALID_OPERATOR" (Some (JStr $"John Doe")) None.

(** The record of [a[0].x = b[0].y] and of [a[1].x = b[1].y]. *)
Definition recordAB (i : Z) (left right : string) : evaluation :=
  mkEvaluation true
    [mkConditionValue (Some (list_ascii_of_string left)) (Some (JNum i)) $"="
       (Some (JNum i))].

(** The entry of a rule stopped by a context limit of one. *)
Definition limitOfOne : ruleResult :=
  mkRuleResult (Some (JStr $"ab")) None None None keywordContextLimit
    (Some [mkErrorEntry $"Context limit reached"
             $"The number of contexts exceeded the limit (1)."]).

(** [pessoas[].idade > 18] *)
Definition adults : rule :=
  Examples.plainRule "adults"
    [mkCondition (Some $"pessoas[].idade") $">" (Some (JNum 18)) None].

Definition adultRecord : evaluation :=
  mkEvaluation true
    [mkConditionValue (Some $"pessoas.0.idade") (Some (JNum 20)) $">"
       (Some (JNum 18))].

Definition adultOutcome (i : nat) : evaluation :=
  match i with
  | 0 => adultRecord
  | _ => mkEvaluation false []
  end.

(** The outcome of [a[i].x = b[j].y] on the sample document. *)
Definition outcomeAB (i j : nat) : evaluation :=
  match i, j with
  | 0, 0 => recordAB 1 "a.0.x" "b.0.y"
  | 1, 1 => recordAB 2 "a.1.x" "b.1.y"
  | _, _ => mkEvaluation false []
  end.

End Samples.

(** * Properties *)

Unset Implicit Arguments.


(** ** Strings *)

Module StringFacts.
Import JsString.

Lemma ascii_eqb_eq (a b : ascii) : ascii_eqb a b = true <-> a = b.
Proof. apply Ascii.eqb_eq. Qed.

Lemma eqb_eq (a b : str) : eqb a b = true <-> a = b.
Proof. unfold eqb. destruct (list_eq_dec ascii_dec a b); split; congruence. Qed.

Lemma eqb_refl (a : str) : eqb a a = true.
Proof. now apply eqb_eq. Qed.

(** A match of a pattern is a decomposition of the subject. *)
Lemma startsWith_app (pat s : str) :
  startsWith pat s = true <-> exists rest, s = pat ++ rest.
Proof.
  revert s. induction pat as [|p pat IH]; intros s; simpl.
  - split; [intros _; now exists s | reflexivity].
  - destruct s as [|c s].
    + split; [discriminate | intros [rest Hrest]; discriminate].
    + rewrite andb_true_iff, ascii_eqb_eq, IH. split.
      * intros [-> [rest ->]]. now exists rest.
      * intros [rest [= -> ->]]. split; [reflexivity | now exists rest].
Qed.

Lemma startsWith_In (pat s : str) (c : ascii) :
  In c pat -> startsWith pat s = true -> In c s.
Proof.
  intros Hin Hs. apply startsWith_app in Hs as [rest ->].
  apply in_or_app. now left.
Qed.

(** A template without a dollar sign stands for itself. *)
Lemma getSubstitution_plain (matched before after template : str) :
  ~ In "$"%char template ->
  getSubstitution matched before after template = template.
Proof.
  induction template as [|d t IH]; intros Hplain; [reflexivity |].
  cbn [getSubstitution].
  destruct (ascii_eqb d "$"%char) eqn:E.
  - apply ascii_eqb_eq in E. subst. exfalso. apply Hplain. now left.
  - f_equal. apply IH. intros Hin. apply Hplain. now right.
Qed.

(** A pattern holding a character the subject lacks is never found,
    and replacing it changes nothing. *)
Lemma replaceFrom_absent (pat rep s : str) (c : ascii) :
  In c pat -> ~ In c s -> forall before, replaceFrom pat rep before s = s.
Proof.
  intros Hpat. induction s as [|d s IH]; intros Hs before; simpl.
  - destruct (startsWith pat []) eqn:E; [| reflexivity].
    exfalso. now apply (startsWith_In _ _ _ Hpat E).
  - destruct (startsWith pat (d :: s)) eqn:E.
    + exfalso. apply Hs. now apply (startsWith_In _ _ _ Hpat E).
    + f_equal. apply IH. intros Hin. apply Hs. now right.
Qed.

Lemma replace_absent (pat rep s : str) (c : ascii) :
  In c pat -> ~ In c s -> replace pat rep s = s.
Proof. intros Hpat Hs. now apply replaceFrom_absent with c. Qed.

Lemma includes_In (pat s : str) (c : ascii) :
  In c pat -> includes pat s = true -> In c s.
Proof.
  intros Hpat. induction s as [|d s IH]; simpl; rewrite orb_true_iff.
  - intros [H | H]; [now apply (startsWith_In _ _ _ Hpat H) | discriminate].
  - intros [H | H]; [now apply (startsWith_In _ _ _ Hpat H) |].
    right. now apply IH.
Qed.

Lemma includes_absent (pat s : str) (c : ascii) :
  In c pat -> ~ In c s -> includes pat s = false.
Proof.
  intros Hpat Hs. destruct (includes pat s) eqn:E; [| reflexivity].
  exfalso. apply Hs. now apply includes_In with pat.
Qed.

Lemma startsWith_self (pat rest : str) : startsWith pat (pat ++ rest) = true.
Proof. apply startsWith_app. now exists rest. Qed.

(** A pattern that carries the character [c] right after [name]
    cannot match where [c] would fall inside a stretch without it. *)
Lemma startsWith_early (name tail q rest : str) (c d : ascii) :
  ~ In c (d :: q ++ name) ->
  startsWith (name ++ c :: tail) (d :: q ++ name ++ rest) = false.
Proof.
  intros Hfree.
  destruct (startsWith (name ++ c :: tail) (d :: q ++ name ++ rest)) eqn:E;
    [| reflexivity].
  exfalso. apply startsWith_app in E as [rest' E].
  assert (Hn : nth_error (d :: q ++ name ++ rest) (length name) = Some c).
  { rewrite E, <- app_assoc, nth_error_app2 by lia.
    now rewrite Nat.sub_diag. }
  replace (d :: q ++ name ++ rest) with ((d :: q ++ name) ++ rest) in Hn
    by (simpl; now rewrite <- app_assoc).
  rewrite nth_error_app1 in Hn by (simpl; rewrite length_app; lia).
  apply Hfree. now apply nth_error_In with (length name).
Qed.

Lemma replaceFrom_unfold (pat rep before s : str) :
  replaceFrom pat rep before s
  = if startsWith pat s
    then getSubstitution pat before (skipn (length pat) s) rep
           ++ skipn (length pat) s
    else match s with
         | [] => []
         | c :: s' => c :: replaceFrom pat rep (before ++ [c]) s'
         end.
Proof. now destruct s. Qed.

Lemma replaceFrom_self (pat rep before rest : str) :
  ~ In "$"%char rep ->
  replaceFrom pat rep before (pat ++ rest) = rep ++ rest.
Proof.
  intros Hrep. rewrite replaceFrom_unfold, startsWith_self.
  rewrite getSubstitution_plain by exact Hrep.
  now rewrite skipn_app, Nat.sub_diag, skipn_all.
Qed.

(** The first match sits where the pattern's marker first can. *)
Lemma replace_at (name tail rep q rest : str) (c : ascii) :
  ~ In "$"%char rep ->
  ~ In c (q ++ name) ->
  replace (name ++ c :: tail) rep (q ++ name ++ c :: tail ++ rest)
  = q ++ rep ++ rest.
Proof.
  intros Hrep. unfold replace. generalize (@nil ascii) as before.
  induction q as [|d q IH]; intros before Hfree.
  - rewrite !app_nil_l.
    replace (name ++ c :: tail ++ rest) with ((name ++ c :: tail) ++ rest)
      by (now rewrite <- app_assoc).
    now apply replaceFrom_self.
  - rewrite replaceFrom_unfold. cbn [app].
    rewrite (startsWith_early name tail q (c :: tail ++ rest) c d Hfree).
    f_equal. apply IH. intros Hin. apply Hfree. now right.
Qed.

Lemma replaceAllFrom_skip (pat rep : str) (k : nat) :
  forall before s,
    replaceAllFrom pat rep before k s
    = replaceAllFrom pat rep (before ++ firstn k s) 0 (skipn k s).
Proof.
  induction k as [|k IH]; intros before s.
  - cbn [firstn skipn]. now rewrite app_nil_r.
  - destruct s as [|c s]; [reflexivity |].
    cbn [replaceAllFrom firstn skipn]. rewrite IH. now rewrite <- app_assoc.
Qed.

Lemma replaceAll_nonempty (pat rep s : str) :
  pat <> [] -> replaceAll pat rep s = replaceAllFrom pat rep [] 0 s.
Proof. destruct pat; [contradiction | reflexivity]. Qed.

Lemma replaceAllFrom_self (pat rep before rest : str) :
  pat <> [] ->
  ~ In "$"%char rep ->
  replaceAllFrom pat rep before 0 (pat ++ rest)
  = rep ++ replaceAllFrom pat rep (before ++ pat) 0 rest.
Proof.
  intros Hpat Hrep. destruct pat as [|x pat]; [contradiction |].
  change ((x :: pat) ++ rest) with (x :: (pat ++ rest)).
  cbn [replaceAllFrom].
  change (x :: pat ++ rest) with ((x :: pat) ++ rest).
  rewrite startsWith_self, getSubstitution_plain by exact Hrep. f_equal.
  rewrite replaceAllFrom_skip.
  replace (length (x :: pat) - 1) with (length pat) by (simpl; lia).
  rewrite firstn_app, skipn_app, Nat.sub_diag, firstn_all, skipn_all.
  cbn [firstn skipn app]. now rewrite app_nil_r, <- app_assoc.
Qed.

Lemma replaceAllFrom_absent (pat rep s : str) (c : ascii) :
  In c pat -> ~ In c s ->
  forall before, replaceAllFrom pat rep before 0 s = s.
Proof.
  intros Hpat. induction s as [|d s IH]; intros Hs before; [reflexivity |].
  cbn [replaceAllFrom].
  destruct (startsWith pat (d :: s)) eqn:E.
  - exfalso. apply Hs. now apply (startsWith_In _ _ _ Hpat E).
  - f_equal. apply IH. intros Hin. apply Hs. now right.
Qed.

Lemma replaceAll_at (name tail rep q rest : str) (c : ascii) :
  ~ In "$"%char rep ->
  ~ In c (q ++ name) ->
  ~ In c rest ->
  replaceAll (name ++ c :: tail) rep (q ++ name ++ c :: tail ++ rest)
  = q ++ rep ++ rest.
Proof.
  intros Hrep Hfree Hrest.
  assert (Hpat : name ++ c :: tail <> []) by (now destruct name).
  rewrite replaceAll_nonempty by exact Hpat.
  generalize (@nil ascii) as before.
  induction q as [|d q IH]; intros before.
  - rewrite !app_nil_l.
    replace (name ++ c :: tail ++ rest) with ((name ++ c :: tail) ++ rest)
      by (now rewrite <- app_assoc).
    rewrite replaceAllFrom_self by assumption. f_equal.
    apply replaceAllFrom_absent with c; [| exact Hrest].
    apply in_or_app. right. now left.
  - cbn [app replaceAllFrom].
    rewrite (startsWith_early name tail q (c :: tail ++ rest) c d Hfree).
    f_equal. apply IH. intros Hin. apply Hfree. now right.
Qed.

Lemma includes_at (pat q rest : str) : includes pat (q ++ pat ++ rest) = true.
Proof.
  induction q as [|d q IH].
  - rewrite app_nil_l. destruct (pat ++ rest) eqn:E; simpl; rewrite <- E.
    + now rewrite startsWith_self.
    + now rewrite startsWith_self.
  - cbn [app includes]. rewrite IH. apply orb_true_r.
Qed.

(** Skipping a stretch without the pattern's first character. *)
Lemma includes_after (c : ascii) (tail q x : str) :
  ~ In c q -> includes (c :: tail) (q ++ x) = includes (c :: tail) x.
Proof.
  induction q as [|d q IH]; intros Hq; [reflexivity |].
  cbn [app includes startsWith].
  destruct (ascii_eqb c d) eqn:E.
  - apply ascii_eqb_eq in E. subst. exfalso. apply Hq. now left.
  - cbn [andb orb]. apply IH. intros Hin. apply Hq. now right.
Qed.

Lemma splitHead_at (c : ascii) (tail q rest : str) :
  ~ In c q -> splitHead (c :: tail) (q ++ c :: tail ++ rest) = q.
Proof.
  induction q as [|d q IH]; intros Hq.
  - rewrite app_nil_l.
    change (c :: tail ++ rest) with ((c :: tail) ++ rest).
    destruct ((c :: tail) ++ rest) eqn:E; [discriminate |].
    cbn [splitHead]. rewrite <- E. now rewrite startsWith_self.
  - cbn [app splitHead startsWith].
    destruct (ascii_eqb c d) eqn:E.
    + apply ascii_eqb_eq in E. subst. exfalso. apply Hq. now left.
    + cbn [andb]. f_equal. apply IH. intros Hin. apply Hq. now right.
Qed.

End StringFacts.

(** ** Loop discovery *)

(** The template written for a dollar-free name is dollar-free. *)
Lemma template_plain (q nm : str) :
  ~ In "$"%char (q ++ nm) ->
  ~ In "$"%char (nm ++ $"[" ++ $"@0" ++ $"]").
Proof.
  intros Hfree Hin. apply in_app_or in Hin as [Hin | Hin].
  - apply Hfree. apply in_or_app. now right.
  - cbn in Hin. repeat (destruct Hin as [Hin | Hin]; [discriminate Hin |]).
    exact Hin.
Qed.

Section Discovery.

Variable p : str.
Hypothesis p_plain : ~ In "["%char p.
Hypothesis p_dollar : ~ In "$"%char p.

Local Abbreviation name := (lastSegment p).
Local Abbreviation annotatedConds :=
  (annotateConditions (lastSegment p) [singleLoop p]).

Lemma lastSegment_suffix : exists q, p = q ++ name.
Proof.
  unfold lastSegment, JsString.slice.
  exists (firstn (Z.to_nat (JsString.lastIndexOf "."%char p + 1)) p).
  symmetry. apply firstn_skipn.
Qed.

Lemma extractLoopDetails_at (s : str) :
  extractLoopDetails (p ++ $"[]" ++ s) = (name, p).
Proof.
  unfold extractLoopDetails.
  change (p ++ $"[]" ++ s) with (p ++ "["%char :: ["]"%char] ++ s).
  change $"[]" with ("["%char :: ["]"%char]).
  now rewrite StringFacts.splitHead_at.
Qed.

Lemma replaceAll_bound (s : str) :
  ~ In "["%char s ->
  JsString.replaceAll (name ++ $"[]")
    (name ++ $"[" ++ lastParm [singleLoop p] ++ $"]") (p ++ $"[]" ++ s)
  = bound p s.
Proof.
  intros Hs. unfold bound. change (lastParm [singleLoop p]) with $"@0".
  destruct lastSegment_suffix as [q Hq].
  set (nm := lastSegment p) in *. clearbody nm. subst p.
  rewrite <- !app_assoc.
  change (nm ++ $"[]") with (nm ++ "["%char :: ["]"%char]).
  change (q ++ nm ++ $"[]" ++ s)
    with (q ++ nm ++ "["%char :: ["]"%char] ++ s).
  rewrite StringFacts.replaceAll_at;
    [| now apply template_plain with q | exact p_plain | exact Hs].
  now rewrite <- !app_assoc.
Qed.

Lemma replace_bound (s : str) :
  JsString.replace (name ++ $"[]")
    (name ++ $"[" ++ lastParm [singleLoop p] ++ $"]") (p ++ $"[]" ++ s)
  = bound p s.
Proof.
  unfold bound. change (lastParm [singleLoop p]) with $"@0".
  destruct lastSegment_suffix as [q Hq].
  set (nm := lastSegment p) in *. clearbody nm. subst p.
  rewrite <- !app_assoc.
  change (nm ++ $"[]") with (nm ++ "["%char :: ["]"%char]).
  change (q ++ nm ++ $"[]" ++ s)
    with (q ++ nm ++ "["%char :: ["]"%char] ++ s).
  rewrite StringFacts.replace_at;
    [| now apply template_plain with q | exact p_plain].
  now rewrite <- !app_assoc.
Qed.

Lemma includes_brackets_at (s : str) :
  JsString.includes $"[]" (p ++ $"[]" ++ s) = true.
Proof. apply StringFacts.includes_at. Qed.

Lemma includes_name_at (s : str) :
  JsString.includes (name ++ $"[]") (p ++ $"[]" ++ s) = true.
Proof.
  destruct lastSegment_suffix as [q Hq].
  set (nm := lastSegment p) in *. clearbody nm. subst p.
  rewrite <- app_assoc, (app_assoc nm). apply StringFacts.includes_at.
Qed.

Lemma bound_quiet (s : str) :
  ~ In "["%char s -> JsString.includes $"[]" (bound p s) = false.
Proof.
  intros Hs. unfold bound.
  change $"[]" with ("["%char :: ["]"%char]).
  rewrite StringFacts.includes_after by exact p_plain.
  cbn. apply StringFacts.includes_absent with "["%char; [now left | exact Hs].
Qed.

Lemma plain_quiet (pat v : str) :
  In "["%char pat -> ~ In "["%char v -> JsString.includes pat v = false.
Proof. apply StringFacts.includes_absent. Qed.

Lemma arrayRef_not_plain (o : option str) : arrayRef p o -> plainRef o -> False.
Proof.
  intros (s & -> & _) [H | (v & [= <-] & Hv)]; [discriminate |].
  apply Hv. apply in_or_app. right. now left.
Qed.

Lemma annotateField_array (f : field) (c : condition) (s : str) :
  getField f c = Some (p ++ $"[]" ++ s) ->
  ~ In "["%char s ->
  annotateField name [singleLoop p] f c = setField f (bound p s) c.
Proof.
  intros Hget Hs. unfold annotateField. rewrite Hget.
  rewrite includes_name_at, replaceAll_bound by exact Hs.
  now destruct p.
Qed.

Lemma annotateField_plain (f : field) (c : condition) :
  plainRef (getField f c) ->
  annotateField name [singleLoop p] f c = c.
Proof.
  intros [Hnone | (v & Hget & Hv)]; unfold annotateField.
  - now rewrite Hnone.
  - rewrite Hget.
    rewrite (plain_quiet (name ++ $"[]") v) by
      (try exact Hv; apply in_or_app; right; now left).
    now rewrite andb_false_r.
Qed.

Lemma plainRef_quiet (o : option str) (v : str) :
  plainRef o -> o = Some v -> JsString.includes $"[]" v = false.
Proof.
  intros [-> | (w & -> & Hw)] [= <-].
  apply plain_quiet; [now left | exact Hw].
Qed.

Lemma annotated_quiet (c : condition) :
  refersOnlyTo p c ->
  quiet (annotateField name [singleLoop p] ComparisonRef
           (annotateField name [singleLoop p] Ref c)).
Proof.
  intros [[(s1 & H1 & Hs1) | Hp1] [(s2 & H2 & Hs2) | Hp2]].
  - rewrite (annotateField_array Ref c s1 H1 Hs1).
    rewrite (annotateField_array ComparisonRef _ s2) by (simpl; auto).
    intros [|] v [= <-]; now apply bound_quiet.
  - rewrite (annotateField_array Ref c s1 H1 Hs1).
    rewrite annotateField_plain by exact Hp2.
    intros [|] v; simpl.
    + intros [= <-]. now apply bound_quiet.
    + now apply plainRef_quiet.
  - rewrite (annotateField_plain Ref c) by exact Hp1.
    rewrite (annotateField_array ComparisonRef c s2 H2 Hs2).
    intros [|] v; simpl.
    + now apply plainRef_quiet.
    + intros [= <-]. now apply bound_quiet.
  - rewrite (annotateField_plain Ref c) by exact Hp1.
    rewrite (annotateField_plain ComparisonRef c) by exact Hp2.
    intros [|] v; now apply plainRef_quiet.
Qed.

Lemma annotatedConds_quiet (conds : list condition) :
  Forall (refersOnlyTo p) conds -> Forall quiet (annotatedConds conds).
Proof.
  unfold annotateConditions. induction 1 as [|c conds Hc _ IH]; simpl.
  - constructor.
  - constructor; [now apply annotated_quiet | exact IH].
Qed.

Lemma discoverInField_quiet (fuel : nat) (v : str)
  (conds : list condition) (loops : list loop) :
  JsString.includes $"[]" v = false ->
  discoverInField fuel v conds loops = (conds, loops).
Proof.
  intros Hv. destruct fuel; cbn [discoverInField]; [reflexivity | now rewrite Hv].
Qed.

Lemma discoverInField_first (k : nat) (s : str) (conds : list condition) :
  ~ In "["%char s ->
  discoverInField (S (S k)) (p ++ $"[]" ++ s) conds []
  = (annotatedConds conds, [singleLoop p]).
Proof.
  intros Hs. cbn [discoverInField].
  rewrite includes_brackets_at, extractLoopDetails_at.
  cbn [existsb app length].
  change (mkLoop name p (Some ($"@" ++ JsString.ofNat 0))) with (singleLoop p).
  rewrite replace_bound, bound_quiet by exact Hs.
  reflexivity.
Qed.

Lemma processField_quiet (i : nat) (f : field)
  (conds : list condition) (loops : list loop) :
  Forall quiet conds -> processField i f (conds, loops) = (conds, loops).
Proof.
  intros Hq. unfold processField.
  destruct (nth_error conds i) as [c|] eqn:Hc; [| reflexivity].
  destruct (getField f c) as [v|] eqn:Hv; [| reflexivity].
  destruct (truthyStr (Some v)); [| reflexivity].
  apply discoverInField_quiet.
  rewrite Forall_forall in Hq. apply (Hq c (nth_error_In _ _ Hc) f v Hv).
Qed.

Lemma processField_plain (i : nat) (f : field) (c : condition)
  (conds : list condition) (loops : list loop) :
  nth_error conds i = Some c ->
  plainRef (getField f c) ->
  processField i f (conds, loops) = (conds, loops).
Proof.
  intros Hc Hp. unfold processField. rewrite Hc.
  destruct (getField f c) as [v|] eqn:Hv; [| reflexivity].
  destruct (truthyStr (Some v)); [| reflexivity].
  apply discoverInField_quiet. now apply plainRef_quiet with (Some v).
Qed.

Lemma processField_array (i : nat) (f : field) (c : condition) (s : str)
  (conds : list condition) :
  nth_error conds i = Some c ->
  getField f c = Some (p ++ $"[]" ++ s) ->
  ~ In "["%char s ->
  processField i f (conds, []) = (annotatedConds conds, [singleLoop p]).
Proof.
  intros Hc Hv Hs. unfold processField. rewrite Hc, Hv.
  assert (Hlen : exists k, length (p ++ $"[]" ++ s) = S k).
  { rewrite length_app. simpl. exists (length p + S (length s)). lia. }
  destruct Hlen as [k ->].
  rewrite discoverInField_first by exact Hs.
  now destruct p.
Qed.

Lemma discoveryStep_done (i : nat) (conds : list condition) :
  Forall quiet conds ->
  discoveryStep (conds, [singleLoop p]) i = (conds, [singleLoop p]).
Proof.
  intros Hq. unfold discoveryStep. now rewrite !processField_quiet.
Qed.

Lemma fold_done (idxs : list nat) (conds : list condition) :
  Forall quiet conds ->
  fold_left discoveryStep idxs (conds, [singleLoop p]) = (conds, [singleLoop p]).
Proof.
  intros Hq. induction idxs as [|i idxs IH]; simpl; [reflexivity |].
  now rewrite discoveryStep_done.
Qed.

Lemma fold_fresh (conds : list condition) :
  Forall (refersOnlyTo p) conds ->
  forall idxs,
    Exists (fun i => exists c, nth_error conds i = Some c /\ mentions p c) idxs ->
    fold_left discoveryStep idxs (conds, [])
    = (annotatedConds conds, [singleLoop p]).
Proof.
  intros Hall idxs. pose proof (annotatedConds_quiet conds Hall) as Hq.
  induction idxs as [|i idxs IH]; intros Hex; [inversion Hex |].
  cbn [fold_left]. unfold discoveryStep at 2.
  destruct (nth_error conds i) as [c|] eqn:Hc.
  - assert (Hc' : refersOnlyTo p c)
      by (rewrite Forall_forall in Hall; apply Hall; now apply nth_error_In with i).
    destruct Hc' as [[(s1 & H1 & Hs1) | Hp1] Hcmp].
    + rewrite (processField_array i Ref c s1 conds Hc H1 Hs1).
      rewrite processField_quiet by exact Hq. now apply fold_done.
    + rewrite (processField_plain i Ref c conds [] Hc Hp1).
      destruct Hcmp as [(s2 & H2 & Hs2) | Hp2].
      * rewrite (processField_array i ComparisonRef c s2 conds Hc H2 Hs2).
        now apply fold_done.
      * rewrite (processField_plain i ComparisonRef c conds [] Hc Hp2).
        apply IH. inversion Hex as [? ? (c' & Hc'' & Hm) | ? ? Hrest]; subst;
          [| exact Hrest].
        exfalso. rewrite Hc in Hc''. injection Hc'' as <-.
        destruct Hm as [Hm | Hm];
          [apply (arrayRef_not_plain _ Hm Hp1) | apply (arrayRef_not_plain _ Hm Hp2)].
  - assert (Hstep : forall f, processField i f (conds, []) = (conds, []))
      by (intros f; unfold processField; now rewrite Hc).
    rewrite !Hstep.
    apply IH. inversion Hex as [? ? (c' & Hc'' & _) | ? ? Hrest]; subst;
      [congruence | exact Hrest].
Qed.

(** Discovery on a rule all of whose array references go to [p]:
    one descriptor, and every reference bound to it. *)
Lemma processConditionsForLoops_single (conds : list condition) :
  Forall (refersOnlyTo p) conds ->
  Exists (mentions p) conds ->
  processConditionsForLoops conds []
  = (annotatedConds conds, [singleLoop p]).
Proof.
  intros Hall Hex. unfold processConditionsForLoops.
  change (fun acc conditionIndex =>
            processField conditionIndex ComparisonRef
              (processField conditionIndex Ref acc)) with discoveryStep.
  apply fold_fresh; [exact Hall |].
  apply Exists_exists in Hex as (c & Hin & Hm).
  apply In_nth_error in Hin as [i Hi].
  apply Exists_exists. exists i. split.
  - apply in_seq. split; [lia |]. simpl. apply nth_error_Some. congruence.
  - now exists c.
Qed.

End Discovery.

(** Discovery never builds two descriptors for one path. *)
Section DiscoveryNoDup.

Local Abbreviation paths := (map completeObjectPath).





End DiscoveryNoDup.

(** ** The fuel of loop discovery

    For a path without a dollar sign, every round of the [while] loop
    binds the first unbound marker, so the text after the first marker
    shrinks and the fuel [processField] gives is never used up. *)

Module FuelFacts.
Import JsString StringFacts.

Lemma uint_chars (d : Decimal.uint) :
  forall c, In c (list_ascii_of_string (NilEmpty.string_of_uint d)) ->
            c <> "["%char /\ c <> "$"%char.
Proof.
  induction d; cbn [NilEmpty.string_of_uint list_ascii_of_string];
    intros c Hc; try destruct Hc as [<- | Hc]; try (split; discriminate);
    try contradiction; now apply IHd.
Qed.

Lemma ofZ_chars (z : Z) :
  forall c, In c (ofZ z) -> c <> "["%char /\ c <> "$"%char.
Proof.
  unfold ofZ, NilZero.string_of_int. intros c.
  destruct (Z.to_int z) as [d | d]; unfold NilZero.string_of_uint.
  - destruct d; try apply uint_chars.
    cbn. intros [<- | []]. split; discriminate.
  - cbn [list_ascii_of_string]. intros [<- | Hc]; [split; discriminate |].
    revert Hc. destruct d; try apply uint_chars.
    cbn. intros [<- | []]. split; discriminate.
Qed.

Lemma noEarly_tail (d : ascii) (w rest : str) :
  noEarly (d :: w) rest -> noEarly w rest.
Proof. intros H a b -> Hb. apply (H (d :: a) b); [reflexivity | exact Hb]. Qed.

(** The decomposition of a subject at its first marker. *)
Lemma first_marker (v : str) :
  includes $"[]" v = true ->
  exists rest,
    afterFirst $"[]" v = Some rest
    /\ v = splitHead $"[]" v ++ $"[]" ++ rest
    /\ noEarly (splitHead $"[]" v) rest.
Proof.
  induction v as [|c v IH]; [discriminate |].
  cbn [includes afterFirst splitHead].
  destruct (startsWith $"[]" (c :: v)) eqn:E.
  - intros _. apply startsWith_app in E as [rest E]. exists rest.
    rewrite E. repeat split. intros a b Hab Hb. destruct a, b; try discriminate.
    contradiction.
  - cbn [orb]. intros Hinc. destruct (IH Hinc) as (rest & Hafter & Hv & Hearly).
    exists rest. repeat split; [exact Hafter | cbn [app]; now rewrite <- Hv |].
    intros a b Hab Hb. destruct a as [|a0 a].
    + cbn [app] in Hab. subst b. cbn [app]. now rewrite <- Hv.
    + injection Hab as _ Hab. now apply (Hearly a b).
Qed.

Lemma afterFirst_length (v rest : str) :
  afterFirst $"[]" v = Some rest -> length rest + 2 <= length v.
Proof.
  revert rest. induction v as [|c v IH]; intros rest; cbn [afterFirst].
  - cbn. discriminate.
  - destruct (startsWith $"[]" (c :: v)) eqn:E.
    + intros [= <-]. apply startsWith_app in E as [r E]. cbn in E. injection E as -> ->. cbn. lia.
    + intros H. apply IH in H. cbn [length]. lia.
Qed.

Lemma roundsLeft_bound (v : str) : roundsLeft v <= length v.
Proof.
  unfold roundsLeft. destruct (afterFirst $"[]" v) as [rest|] eqn:E; [| lia].
  apply afterFirst_length in E. lia.
Qed.

(** The pattern [name[]] first matches at the first marker. *)
Lemma replaceFrom_first (name rep q rest : str) :
  ~ In "$"%char rep ->
  noEarly (q ++ name) rest ->
  forall before,
    replaceFrom (name ++ $"[]") rep before (q ++ name ++ $"[]" ++ rest)
    = q ++ rep ++ rest.
Proof.
  intros Hrep. induction q as [|d q IH]; intros Hearly before.
  - rewrite !app_nil_l, app_assoc. now apply replaceFrom_self.
  - rewrite replaceFrom_unfold. cbn [app].
    destruct (startsWith (name ++ $"[]") (d :: q ++ name ++ $"[]" ++ rest)) eqn:E.
    + exfalso. apply startsWith_app in E as [x E].
      assert (Hlen : length name < length (d :: q ++ name))
        by (cbn [length]; rewrite length_app; lia).
      pose proof (firstn_skipn (length name) (d :: q ++ name)) as Hsplit.
      assert (Hb : skipn (length name) (d :: q ++ name) <> []).
      { intros Hnil. apply (f_equal (@length ascii)) in Hnil.
        rewrite length_skipn in Hnil. cbn [length] in Hnil, Hlen. lia. }
      pose proof (Hearly _ _ (eq_sym Hsplit) Hb) as Hno.
      assert (Heq : (d :: q ++ name) ++ $"[]" ++ rest = name ++ $"[]" ++ x).
      { rewrite <- app_assoc in E. rewrite <- E. cbn [app].
        now rewrite <- app_assoc. }
      apply (f_equal (skipn (length name))) in Heq.
      rewrite !skipn_app, skipn_all, Nat.sub_diag in Heq.
      replace (length name - length (d :: q ++ name)) with 0 in Heq by lia.
      rewrite !skipn_O, app_nil_l in Heq. rewrite Heq in Hno.
      now rewrite startsWith_self in Hno.
    + f_equal. apply IH. now apply noEarly_tail with d.
Qed.

(** A stretch without an opening bracket holds no marker. *)
Lemma afterFirst_skip (w x : str) :
  ~ In "["%char w -> afterFirst $"[]" (w ++ x) = afterFirst $"[]" x.
Proof.
  induction w as [|d w IH]; intros Hw; [reflexivity |].
  cbn [app afterFirst startsWith list_ascii_of_string].
  destruct (ascii_eqb "["%char d) eqn:E.
  - apply ascii_eqb_eq in E. subst. exfalso. apply Hw. now left.
  - cbn [andb]. apply IH. intros Hin. apply Hw. now right.
Qed.

(** Whether a marker starts at a place before the first one does not
    depend on what follows the opening bracket found there. *)
Lemma startsWith_transfer (b x y : str) :
  b <> [] ->
  startsWith $"[]" (b ++ "["%char :: x) = startsWith $"[]" (b ++ "["%char :: y).
Proof.
  intros Hb. destruct b as [|b0 [|b1 b]]; [contradiction | |]; cbn.
  - destruct (ascii_eqb "["%char b0); reflexivity.
  - reflexivity.
Qed.

(** Once the first marker is bound, the next one lies in the rest. *)
Lemma afterFirst_token (pre digits rest : str) :
  noEarly pre rest ->
  ~ In "["%char digits ->
  afterFirst $"[]" (pre ++ ($"[" ++ ($"@" ++ digits) ++ $"]") ++ rest)
  = afterFirst $"[]" rest.
Proof.
  intros Hearly Hdigits. induction pre as [|d pre IH].
  - rewrite app_nil_l.
    change (($"[" ++ ($"@" ++ digits) ++ $"]") ++ rest)
      with ("["%char :: ("@"%char :: digits ++ ["]"%char]) ++ rest).
    cbn [afterFirst startsWith list_ascii_of_string].
    replace (ascii_eqb "["%char "["%char && (ascii_eqb "]"%char "@"%char && true))
      with false by reflexivity.
    apply afterFirst_skip. intros [Hin | Hin]; [discriminate |].
    apply in_app_or in Hin as [Hin | [Hin | []]]; [contradiction | discriminate].
  - cbn [app afterFirst].
    assert (Hno : startsWith $"[]"
                    (d :: pre ++ ($"[" ++ ($"@" ++ digits) ++ $"]") ++ rest) = false).
    { pose proof (Hearly [] (d :: pre) eq_refl ltac:(discriminate)) as H.
      etransitivity; [| exact H].
      change (d :: pre ++ ($"[" ++ ($"@" ++ digits) ++ $"]") ++ rest)
        with ((d :: pre) ++ "["%char :: ("@"%char :: digits ++ ["]"%char]) ++ rest).
      change ((d :: pre) ++ $"[]" ++ rest)
        with ((d :: pre) ++ "["%char :: "]"%char :: rest).
      apply startsWith_transfer. discriminate. }
    rewrite Hno. apply IH. now apply noEarly_tail with d.
Qed.

End FuelFacts.

(** More fuel than the remaining rounds changes nothing. *)
Lemma discoverInField_fuel (n : nat) :
  forall fuel v conds loops,
    ~ In "$"%char v ->
    roundsLeft v <= n ->
    n < fuel ->
    discoverInField fuel v conds loops = discoverInField (S n) v conds loops.
Proof.
  induction n as [|n IH]; intros fuel v conds loops Hplain Hrounds Hfuel;
    (destruct fuel as [|fuel]; [lia |]);
    cbn [discoverInField];
    (destruct (JsString.includes $"[]" v) eqn:Hinc; [| reflexivity]);
    destruct (FuelFacts.first_marker v Hinc) as (rest & Hafter & Hv & Hearly);
    unfold roundsLeft in Hrounds; rewrite Hafter in Hrounds; [lia |].
  unfold extractLoopDetails. cbv beta iota zeta.
  set (pre := JsString.splitHead $"[]" v) in *.
  set (name := JsString.slice (JsString.lastIndexOf "."%char pre + 1) pre).
  set (loops' := if existsb _ loops then loops else _).
  assert (Hq : exists q, pre = q ++ name).
  { exists (firstn (Z.to_nat (JsString.lastIndexOf "."%char pre + 1)) pre).
    symmetry. apply firstn_skipn. }
  destruct Hq as [q Hq].
  assert (Hpre : forall c, In c pre -> In c v)
    by (intros c Hc; rewrite Hv; apply in_or_app; now left).
  assert (Hrest : forall c, In c rest -> In c v)
    by (intros c Hc; rewrite Hv; apply in_or_app; right;
        apply in_or_app; now right).
  assert (Hrep : ~ In "$"%char (name ++ $"[" ++ lastParm loops' ++ $"]")).
  { intros Hin. apply in_app_or in Hin as [Hin | Hin].
    - apply Hplain, Hpre. rewrite Hq. apply in_or_app. now right.
    - destruct Hin as [Hin | Hin]; [discriminate |].
      change (In "$"%char (lastParm loops' ++ $"]")) in Hin.
      apply in_app_or in Hin as [[Hin | Hin] | [Hin | []]]; try discriminate.
      now apply FuelFacts.ofZ_chars in Hin. }
  assert (Hnext : JsString.replace (name ++ $"[]")
                    (name ++ $"[" ++ lastParm loops' ++ $"]") v
                  = pre ++ ($"[" ++ lastParm loops' ++ $"]") ++ rest).
  { unfold JsString.replace. rewrite Hv at 1. rewrite Hq at 1.
    rewrite <- app_assoc.
    rewrite FuelFacts.replaceFrom_first; [| exact Hrep | now rewrite <- Hq].
    rewrite Hq. now rewrite <- !app_assoc. }
  rewrite Hnext.
  apply IH.
  - intros Hin. apply in_app_or in Hin as [Hin | Hin]; [now apply Hplain, Hpre |].
    apply in_app_or in Hin as [Hin | Hin]; [| now apply Hplain, Hrest].
    destruct Hin as [Hin | Hin]; [discriminate |].
    change (In "$"%char (lastParm loops' ++ $"]")) in Hin.
    apply in_app_or in Hin as [[Hin | Hin] | [Hin | []]]; try discriminate.
    now apply FuelFacts.ofZ_chars in Hin.
  - unfold roundsLeft, lastParm.
    rewrite FuelFacts.afterFirst_token;
      [| exact Hearly | intros Hin; now apply FuelFacts.ofZ_chars in Hin].
    destruct (afterFirst $"[]" rest) as [r|] eqn:Hr; [| lia].
    apply FuelFacts.afterFirst_length in Hr. lia.
  - lia.
Qed.

(** The fuel [processField] gives a path without a dollar sign is
    enough: any larger amount yields the same loops and conditions. *)
Lemma processField_fuel (v : str) (conds : list condition) (loops : list loop)
  (extra : nat) :
  ~ In "$"%char v ->
  discoverInField (S (length v) + extra) v conds loops
  = discoverInField (S (length v)) v conds loops.
Proof.
  intros Hplain. apply discoverInField_fuel; [exact Hplain | | lia].
  apply FuelFacts.roundsLeft_bound.
Qed.

(** ** The budgeted enumeration *)

Lemma forLoop_invariant {St : Type} (body : nat -> St -> St * bool)
  (P : nat -> St -> Prop) (Q : St -> Prop) (n : nat) :
  forall from s,
    P from s ->
    (forall i s', from <= i < from + n -> P i s' ->
       (snd (body i s') = true -> Q (fst (body i s'))) /\
       (snd (body i s') = false -> P (S i) (fst (body i s')))) ->
    (forall s', P (from + n) s' -> Q s') ->
    Q (forLoop body from n s).
Proof.
  induction n as [|n IH]; intros from s HP Hstep Hend; simpl.
  - apply Hend. now rewrite Nat.add_0_r.
  - destruct (Hstep from s ltac:(lia) HP) as [Hbrk Hcont].
    destruct (body from s) as [s' brk]; simpl in *.
    destruct brk.
    + now apply Hbrk.
    + apply IH.
      * now apply Hcont.
      * intros i s'' Hi. apply Hstep. lia.
      * intros s'' Hs. apply Hend. now replace (from + S n) with (S from + n) by lia.
Qed.

Section ExplodeTheory.

Context {host : Host}.
Variable documentJson : json.
Variables contextLimit startTime timeLimit : Z.

Local Abbreviation ok := (explodeOk contextLimit startTime timeLimit).
Local Abbreviation check := (budgetCheck contextLimit startTime timeLimit).

(** Split the clauses of [explodeOk] and discharge the arithmetic
    and flag ones. *)
Ltac ok_clauses :=
  repeat first [ match goal with |- _ /\ _ => split end | progress intros ];
  try lia; try congruence; auto.

Lemma tripped_false (st : machine) :
  tripped st = false <->
  limitReached (counter st) = false /\ timeReached (counter st) = false.
Proof. unfold tripped. apply orb_false_iff. Qed.

Lemma ok_refl (st : machine) : ok st [] [] st.
Proof.
  unfold explodeOk, cnt. simpl.
  split; [now exists [] |].
  ok_clauses.
Qed.

Lemma ok_weaken (st st' : machine) (full more ts : list (list nat)) :
  ok st full ts st' -> tripped st' = true -> ok st (full ++ more) ts st'.
Proof.
  unfold explodeOk.
  intros (Hpre & _ & Hlen & Hcnt & Hup & Hlim & _ & Hl & Ht & Hw) Htrip.
  split.
  { destruct Hpre as [rest ->]. exists (rest ++ more). now rewrite app_assoc. }
  rewrite length_app. ok_clauses.
Qed.

Lemma ok_seq (st0 st1 st2 : machine) (fullA fullB accA tsB : list (list nat)) :
  ok st0 fullA accA st1 ->
  tripped st1 = false ->
  ok st1 fullB tsB st2 ->
  ok st0 (fullA ++ fullB) (if tripped st2 then accA else accA ++ tsB) st2.
Proof.
  unfold explodeOk.
  intros (_ & HA & HlenA & HcntA & HupA & _ & HmaxA & HlA & HtA & HwA) Hun
         (HpreB & HB & HlenB & HcntB & HupB & HlimB & HmaxB & HlB & HtB & HwB).
  destruct (HA Hun) as [-> HcA]. specialize (HmaxA Hun).
  apply tripped_false in Hun as [Hl1 Ht1].
  assert (Hl0 : limitReached (counter st0) = false)
    by (destruct (limitReached (counter st0)); auto; now rewrite HlA in Hl1).
  assert (Ht0 : timeReached (counter st0) = false)
    by (destruct (timeReached (counter st0)); auto; now rewrite HtA in Ht1).
  destruct (tripped st2) eqn:Htr.
  - split; [now exists fullB |].
    rewrite !length_app. ok_clauses.
    rewrite (HwB H). now rewrite <- (HwA H).
  - destruct (HB eq_refl) as [-> HcB]. specialize (HmaxB eq_refl).
    split; [exists []; now rewrite app_nil_r |].
    rewrite !length_app. ok_clauses.
    rewrite (HwB H). now rewrite <- (HwA H).
Qed.

Lemma ok_leaf (st : machine) (t : list nat) :
  ok st [t]
    (fst match check st with inl st' => ([], st') | inr st' => ([t], st') end)
    (snd match check st with inl st' => ([], st') | inr st' => ([t], st') end).
Proof.
  unfold budgetCheck, explodeOk, cnt, tripped, withinTime.
  destruct (Z.gtb_spec (count (counter st) + 1) contextLimit) as [Hc|Hc];
    cbn [fst snd counter count limitReached timeReached length app].
  - split. { exists [t]. reflexivity. } ok_clauses.
  - destruct (Z.gtb_spec (Date_now (reads st) - startTime) (1000 * timeLimit))
      as [Ht|Ht]; cbn [fst snd counter count limitReached timeReached length app].
    + split. { exists [t]. reflexivity. } ok_clauses.
      all: try (rewrite orb_true_r in *; discriminate).
      specialize (H (reads st)). lia.
    + split. { exists []. reflexivity. } ok_clauses.
Qed.

Lemma check_inl_tripped (st st' : machine) :
  check st = inl st' -> tripped st' = true.
Proof.
  unfold budgetCheck, tripped.
  destruct (_ >? contextLimit)%Z; [intros [= <-]; reflexivity |].
  destruct (_ >? _)%Z; intros [= <-]; simpl. apply orb_true_r.
Qed.

Lemma check_inr_tripped (st st' : machine) :
  check st = inr st' -> tripped st' = tripped st.
Proof.
  unfold budgetCheck, tripped.
  destruct (_ >? contextLimit)%Z; [discriminate |].
  destruct (_ >? _)%Z; intros [= <-]; reflexivity.
Qed.

Lemma rows_snoc (f : nat -> list (list nat)) (i : nat) :
  flat_map f (seq 0 (S i)) = flat_map f (seq 0 i) ++ f i.
Proof. rewrite seq_S, flat_map_app. simpl. now rewrite app_nil_r. Qed.

Lemma rows_split (f : nat -> list (list nat)) (i n : nat) :
  i <= n -> exists more, flat_map f (seq 0 n) = flat_map f (seq 0 i) ++ more.
Proof.
  intros Hin. replace n with (i + (n - i)) by lia.
  rewrite seq_app, flat_map_app. eexists; reflexivity.
Qed.

(** Every run of the generator meets [explodeOk] against the
    unbudgeted enumeration of the same loops. *)
Lemma explodeContexts_ok (loops : list loop) :
  forall tuple st,
    ok st (fullContexts documentJson loops tuple)
      (fst (explodeContexts documentJson loops tuple contextLimit startTime timeLimit st))
      (snd (explodeContexts documentJson loops tuple contextLimit startTime timeLimit st)).
Proof.
  remember (length loops) as n eqn:Hn. revert loops Hn.
  induction n as [n IH] using lt_wf_ind. intros [|l rest] Hn tuple st.
  - rewrite explodeContexts_equation_1. simp fullContexts. apply ok_leaf.
  - rewrite explodeContexts_equation_2. simp fullContexts.
    set (len := loopLength _).
    set (f := fun i => fullContexts documentJson (newLoops l i rest) (tuple ++ [i])).
    apply forLoop_invariant
      with (P := fun i acc => ok st (flat_map f (seq 0 i)) (fst acc) (snd acc)).
    + apply ok_refl.
    + intros i [acc cur] Hi HP. cbn [fst snd] in HP.
      destruct (rows_split f (S i) len) as [more Hmore]; [lia |].
      rewrite rows_snoc in Hmore.
      destruct (tripped cur) eqn:Htr.
      * cbn [fst snd]. split; [intros _ | discriminate].
        rewrite Hmore, <- app_assoc. now apply ok_weaken.
      * destruct rest as [|l2 rest'].
        -- pose proof (ok_leaf cur (tuple ++ [i])) as Hleaf.
           pose proof (ok_seq _ _ _ _ _ _ _ HP Htr Hleaf) as Hseq.
           assert (Hf : f i = [tuple ++ [i]])
             by (unfold f; simpl; now simp fullContexts).
           destruct (check cur) as [st'|st'] eqn:Hchk; cbn [fst snd] in *.
           ++ rewrite (check_inl_tripped _ _ Hchk) in Hseq.
              split; [intros _ | discriminate].
              rewrite Hmore, Hf. apply ok_weaken; [exact Hseq |].
              now apply check_inl_tripped with cur.
           ++ rewrite (check_inr_tripped _ _ Hchk), Htr in Hseq.
              split; [discriminate | intros _].
              rewrite rows_snoc, Hf. exact Hseq.
        -- assert (Hlen : length (newLoops l i (l2 :: rest')) < n)
             by (unfold newLoops; rewrite length_map; simpl in *; lia).
           pose proof (IH _ Hlen _ eq_refl (tuple ++ [i]) cur) as Hin.
           fold (f i) in Hin.
           destruct (explodeContexts documentJson (newLoops l i (l2 :: rest'))
                       (tuple ++ [i]) contextLimit startTime timeLimit cur)
             as [tuples st'].
           cbn [fst snd] in *.
           split; [discriminate | intros _].
           rewrite rows_snoc. now apply ok_seq with cur.
    + intros acc HP. exact HP.
Qed.

End ExplodeTheory.

Section Enumeration.

Context {host : Host}.
Variable documentJson : json.

Lemma newLoops_paths (l : loop) (i : nat) (rest : list loop) :
  Forall (fun x => bracketFree (completeObjectPath x)) rest ->
  map completeObjectPath (newLoops l i rest) = map completeObjectPath rest.
Proof.
  induction 1 as [|x rest Hx _ IH]; simpl; [reflexivity |].
  rewrite IH. f_equal.
  apply StringFacts.replace_absent with (c := "["%char); [| exact Hx].
  apply in_or_app. right. now left.
Qed.

Lemma cartesianSize_paths (a b : list loop) :
  map completeObjectPath a = map completeObjectPath b ->
  cartesianSize documentJson a = cartesianSize documentJson b.
Proof.
  intros Hab. unfold cartesianSize.
  rewrite <- (map_map completeObjectPath
                (fun p => loopLength (objectPath_get documentJson (Some p))) a).
  rewrite <- (map_map completeObjectPath
                (fun p => loopLength (objectPath_get documentJson (Some p))) b).
  now rewrite Hab.
Qed.

Lemma bracketFree_paths (a b : list loop) :
  map completeObjectPath a = map completeObjectPath b ->
  Forall (fun x => bracketFree (completeObjectPath x)) a ->
  Forall (fun x => bracketFree (completeObjectPath x)) b.
Proof.
  revert b. induction a as [|x a IH]; intros [|y b]; simpl; try discriminate.
  - constructor.
  - intros [= Hxy Hab] Hall. inversion Hall; subst.
    constructor; [now rewrite <- Hxy | now apply IH].
Qed.

(** For loops over independent arrays the unbudgeted enumeration has
    as many tuples as the product of the array lengths. *)
Lemma fullContexts_size (loops : list loop) :
  forall tuple,
    Forall (fun x => bracketFree (completeObjectPath x)) loops ->
    length (fullContexts documentJson loops tuple) = cartesianSize documentJson loops.
Proof.
  remember (length loops) as n eqn:Hn. revert loops Hn.
  induction n as [n IH] using lt_wf_ind. intros [|l rest] Hn tuple Hall.
  - now simp fullContexts.
  - simp fullContexts. inversion Hall as [|? ? Hl Hrest]; subst.
    rewrite flat_map_constant_length with (c := cartesianSize documentJson rest).
    + now rewrite length_seq.
    + intros i _.
      pose proof (newLoops_paths l i rest Hrest) as Hp.
      rewrite (IH (length (newLoops l i rest))) with (loops := newLoops l i rest).
      * now apply cartesianSize_paths.
      * unfold newLoops. rewrite length_map. simpl. lia.
      * reflexivity.
      * apply bracketFree_paths with rest; [now symmetry | exact Hrest].
Qed.

(** The tuples of two loops of lengths [m] and [n], in row-major order. *)
Lemma fullContexts_two (l1 l2 : loop) (m n : nat) :
  arrayLength documentJson (completeObjectPath l1) m ->
  (forall i, i < m ->
     arrayLength documentJson
       (JsString.replace
          (completeObjectPath l1 ++ $"[" ++ templ (parm l1) ++ $"]")
          (completeObjectPath l1 ++ $"." ++ JsString.ofNat i)
          (completeObjectPath l2))
       n) ->
  fullContexts documentJson [l1; l2] [] = rowMajor m n.
Proof.
  intros (xs & Hxs & Hm) Hinner. simp fullContexts.
  rewrite Hxs. simpl loopLength. rewrite Hm. unfold rowMajor.
  assert (Hrows : forall l, (forall i, In i l -> i < m) ->
            flat_map (fun i => fullContexts documentJson (newLoops l1 i [l2]) ([] ++ [i])) l
            = flat_map (fun i => map (fun j => [i; j]) (seq 0 n)) l).
  { induction l as [|i l IHl]; intros Hl; cbn [flat_map]; [reflexivity |].
    rewrite IHl by (intros k Hk; apply Hl; now right).
    f_equal. unfold newLoops. cbn [map]. simp fullContexts.
    cbn [completeObjectPath].
    destruct (Hinner i (Hl i (or_introl eq_refl))) as (ys & -> & Hn).
    cbn [loopLength]. rewrite Hn.
    clear. induction (seq 0 n) as [|j js IHjs]; cbn [flat_map map]; [reflexivity |].
    simp fullContexts. now rewrite IHjs. }
  apply Hrows. intros i Hi. apply in_seq in Hi. lia.
Qed.

Lemma rowMajor_In (m n : nat) (t : list nat) :
  In t (rowMajor m n) <-> exists i j, i < m /\ j < n /\ t = [i; j].
Proof.
  unfold rowMajor. rewrite in_flat_map. split.
  - intros (i & Hi & Ht). apply in_map_iff in Ht as (j & <- & Hj).
    apply in_seq in Hi, Hj. exists i, j. repeat split; lia.
  - intros (i & j & Hi & Hj & ->). exists i. split.
    + apply in_seq. lia.
    + apply in_map_iff. exists j. split; [reflexivity | apply in_seq; lia].
Qed.

Lemma rowMajor_length (m n : nat) : length (rowMajor m n) = m * n.
Proof.
  unfold rowMajor. rewrite flat_map_constant_length with (c := n).
  - now rewrite length_seq.
  - intros i _. now rewrite length_map, length_seq.
Qed.

Lemma rowMajor_NoDup (m n : nat) : NoDup (rowMajor m n).
Proof.
  unfold rowMajor.
  enough (H : forall from,
             NoDup (flat_map (fun i => map (fun j => [i; j]) (seq 0 n)) (seq from m)))
    by apply H.
  induction m as [|m IH]; intros from; simpl; [constructor |].
  apply NoDup_app.
  - apply NoDup_map_NoDup_ForallPairs; [| apply seq_NoDup].
    intros a b _ _ [= ->]. reflexivity.
  - apply IH.
  - intros t Ht Hin. apply in_map_iff in Ht as (j & <- & _).
    apply in_flat_map in Hin as (i & Hi & Hin).
    apply in_map_iff in Hin as (j' & [= <- _] & _).
    apply in_seq in Hi. lia.
Qed.


End Enumeration.

(** ** Evaluation over the contexts *)

Section ContextEvaluation.

Context {host : Host}.
Variable documentJson : json.
Variable ruleId : option json.
Variable conds : list condition.
Variable loops : list loop.
Variable contextObj : option json.

Local Abbreviation evalIn :=
  (evaluateInContext documentJson ruleId conds loops contextObj).
Local Abbreviation evalFrom :=
  (evaluateContextsFrom documentJson ruleId conds loops contextObj).

Lemma evalFrom_all (outcome : list nat -> evaluation) (remaining : list (list nat)) :
  forall results,
    (forall c, In c remaining -> evalIn c = inr (outcome c)) ->
    evalFrom true remaining results
    = inr (results ++ filter result (map outcome remaining)).
Proof.
  induction remaining as [|c rest IH]; intros results Hall; simpl.
  - now rewrite app_nil_r.
  - rewrite (Hall c (or_introl eq_refl)). simpl.
    destruct (result (outcome c)).
    + rewrite IH by (intros x Hx; apply Hall; now right).
      now rewrite <- app_assoc.
    + apply IH. intros x Hx. apply Hall. now right.
Qed.



End ContextEvaluation.

(** ** The heap and the rule loop *)

Lemma nth_error_writeAt_other {A : Type} (x : A) (l : list A) :
  forall i j, i <> j -> nth_error (writeAt i x l) j = nth_error l j.
Proof.
  induction l as [|y l IH]; intros [|i] [|j] Hij; simpl; try reflexivity.
  - contradiction.
  - apply IH. congruence.
Qed.

Lemma nth_error_writeAt_same {A : Type} (x : A) (l : list A) :
  forall i, i < length l -> nth_error (writeAt i x l) i = Some x.
Proof.
  induction l as [|y l IH]; intros [|i] Hi; simpl in *; try lia; [reflexivity |].
  apply IH. lia.
Qed.

Lemma length_writeAt {A : Type} (x : A) (l : list A) :
  forall i, length (writeAt i x l) = length l.
Proof. induction l as [|y l IH]; intros [|i]; simpl; auto. Qed.

Lemma readRules_writeRule (h : heap) (a i : nat) (r : rule) (R : list rule) :
  nth_error h a = Some (ORules R) ->
  nth_error (writeRule h a i r) a = Some (ORules (writeAt i r R)).
Proof.
  intros Ha. unfold writeRule, readRules. rewrite Ha.
  apply nth_error_writeAt_same. apply nth_error_Some. congruence.
Qed.

Lemma filterRulesByDate_indices {host : Host} (rules : list rule) (clock : nat) :
  NoDup (fst (filterRulesByDate rules clock)).
Proof.
  unfold filterRulesByDate.
  assert (H : forall l start kept clock0,
             NoDup kept -> (forall k, In k kept -> k < start) ->
             NoDup (fst (fold_left
               (fun (acc : list nat * nat) (p : nat * rule) =>
                  let (kept, reads) := acc in
                  let (index, r) := p in
                  let (isAfterStartDate, reads) := dateHolds (initialDate r) Z.leb reads in
                  let (isBeforeEndDate, reads) := dateHolds (endDate r) Z.geb reads in
                  (if isAfterStartDate && isBeforeEndDate then kept ++ [index] else kept,
                   reads))
               (combine (seq start (length l)) l) (kept, clock0)))).
  { induction l as [|r l IH]; intros start kept clock0 Hnd Hlt; [exact Hnd |].
    cbn [length seq combine fold_left].
    destruct (dateHolds (initialDate r) Z.leb clock0) as [b1 c1].
    destruct (dateHolds (endDate r) Z.geb c1) as [b2 c2].
    apply IH.
    - destruct (b1 && b2); [| exact Hnd].
      apply NoDup_app; [exact Hnd | repeat constructor; intros [] |].
      intros k Hk [<- | []]. specialize (Hlt _ Hk). lia.
    - intros k Hk. destruct (b1 && b2).
      + apply in_app_or in Hk as [Hk | [<- | []]]; [specialize (Hlt _ Hk) |]; lia.
      + specialize (Hlt _ Hk). lia. }
  apply H; [constructor | intros k []].
Qed.

Section Batch.

Context {host : Host}.
Variable documentJson : json.
Variable contextObj : option json.
Variable o : options.
Variable startTime : Z.
Variable a : nat.

Lemma ruleLoop_cons (i : nat) (valid : list nat)
  (results : list ruleResult) (h : heap) (clock : nat) :
  ruleLoop documentJson contextObj o startTime a (i :: valid) (results, h, clock)
  = ruleLoop documentJson contextObj o startTime a valid
      match nth_error (readRules h a) i with
      | Some r =>
          let '(r', entries, clock') :=
            processRule documentJson contextObj (contextLimitOf o) startTime
              (timeLimitOf o) (returnAllContextsOf o) r clock in
          (results ++ entries, writeRule h a i r', clock')
      | None => (results, h, clock)
      end.
Proof. reflexivity. Qed.

(** The rule loop appends the entries of the rules it is given, one
    after the other, writes the cell of the working copy only, and
    leaves the heap its size. *)
Lemma ruleLoop_spec (R : list rule) (valid : list nat) :
  forall results h clock Rcur,
    NoDup valid ->
    nth_error h a = Some (ORules Rcur) ->
    (forall i, In i valid -> nth_error Rcur i = nth_error R i) ->
    let out := ruleLoop documentJson contextObj o startTime a valid (results, h, clock) in
    fst (fst out)
    = results ++ batchEntries documentJson contextObj o startTime (pick R valid) clock
    /\ length (snd (fst out)) = length h
    /\ (forall a', a' <> a -> nth_error (snd (fst out)) a' = nth_error h a')
    /\ (exists R', nth_error (snd (fst out)) a = Some (ORules R')).
Proof.
  induction valid as [|i valid IH]; intros results h clock Rcur Hnd Ha Hsame.
  - cbn. rewrite app_nil_r. repeat split; auto. now exists Rcur.
  - inversion Hnd as [|? ? Hnotin Hnd']; subst.
    rewrite ruleLoop_cons.
    unfold readRules at 1. rewrite Ha.
    rewrite (Hsame i (or_introl eq_refl)).
    unfold pick. cbn [flat_map]. fold (pick R valid).
    destruct (nth_error R i) as [r|] eqn:Hr.
    + cbn [app batchEntries].
      destruct (processRule documentJson contextObj (contextLimitOf o) startTime
                  (timeLimitOf o) (returnAllContextsOf o) r clock)
        as [[r' entries] clock'].
      specialize (IH (results ++ entries) (writeRule h a i r') clock'
                    (writeAt i r' Rcur) Hnd'
                    (readRules_writeRule h a i r' Rcur Ha)).
      destruct IH as (Hres & Hlen & Hframe & Hcell).
      { intros j Hj. rewrite nth_error_writeAt_other by (intros ->; contradiction).
        apply Hsame. now right. }
      cbv beta iota zeta. rewrite <- app_assoc in Hres.
      split; [exact Hres |]. split; [| split; [| exact Hcell]].
      * etransitivity; [exact Hlen |]. unfold writeRule. apply length_writeAt.
      * intros a' Ha'. etransitivity; [apply Hframe; exact Ha' |].
        unfold writeRule. apply nth_error_writeAt_other. congruence.
    + cbn [app]. apply (IH results h clock Rcur Hnd' Ha).
      intros j Hj. apply Hsame. now right.
Qed.

End Batch.

(** What a call returns depends on the heap only through the three
    objects it is given; it allocates one cell and writes no other. *)
Lemma validateRules_spec {host : Host} (h : heap) (documentJson rules : nat)
  (contextObj : option nat) (o : options) :
  fst (validateRules h documentJson rules contextObj o)
  = batchResults (readJson h documentJson) (option_map (readJson h) contextObj) o
      (readRules h rules)
  /\ length (snd (validateRules h documentJson rules contextObj o)) = S (length h)
  /\ (forall a, a < length h ->
        nth_error (snd (validateRules h documentJson rules contextObj o)) a
        = nth_error h a)
  /\ (exists copy,
        nth_error (snd (validateRules h documentJson rules contextObj o)) (length h)
        = Some (ORules copy)).
Proof.
  unfold validateRules, batchResults.
  assert (Hcopy : nth_error (h ++ [ORules (readRules h rules)]) (length h)
                  = Some (ORules (readRules h rules)))
    by (rewrite nth_error_app2, Nat.sub_diag by lia; reflexivity).
  assert (Hread : readRules (h ++ [ORules (readRules h rules)]) (length h)
                  = readRules h rules)
    by (unfold readRules at 1; now rewrite Hcopy).
  rewrite Hread.
  pose proof (filterRulesByDate_indices (readRules h rules) 0) as Hnd.
  destruct (filterRulesByDate (readRules h rules) 0) as [valid clock].
  cbn [fst] in Hnd.
  pose proof (ruleLoop_spec (readJson h documentJson)
                (option_map (readJson h) contextObj) o (Date_now clock) (length h)
                (readRules h rules) valid [] (h ++ [ORules (readRules h rules)])
                (S clock) (readRules h rules) Hnd Hcopy (fun _ _ => eq_refl)) as Hloop.
  destruct (ruleLoop _ _ _ _ _ _ _) as [[results h'] clock'].
  cbn [fst snd] in *. destruct Hloop as (Hres & Hlen & Hframe & Hcell).
  split; [exact Hres |]. split; [| split; [| exact Hcell]].
  - rewrite Hlen, length_app. simpl. lia.
  - intros a' Ha'. rewrite Hframe by lia. now apply nth_error_app1.
Qed.

(** ** Conjunctions and thrown errors *)

Section Conjunction.

Context {host : Host}.
Variable documentJson : json.
Variable ruleId : option json.
Variable contextObj : option json.

(** The step of the [reduce] in [evaluateConditionsInContexts]. *)
Local Abbreviation step :=
  (fun (acc : throws evaluation) c =>
     prevItem <- acc ;;
     if result prevItem then
       r <- rethrow (failedInRule ruleId)
              (compareOperands documentJson c contextObj) ;;
       let (test, item) := r in
       if test
       then inr (mkEvaluation true (conditionValues prevItem ++ [item]))
       else inr (mkEvaluation false (conditionValues prevItem))
     else inr (mkEvaluation false (conditionValues prevItem))).

Lemma reduce_thrown (conds : list condition) (msg : str) :
  fold_left step conds (inl msg) = inl msg.
Proof. induction conds as [|c conds IH]; [reflexivity | exact IH]. Qed.

Lemma reduce_failed (conds : list condition) :
  forall vals,
    fold_left step conds (inr (mkEvaluation false vals))
    = inr (mkEvaluation false vals).
Proof. induction conds as [|c conds IH]; intros vals; [reflexivity | apply IH]. Qed.



End Conjunction.

Lemma replaceContextValues_noLoops (c : condition) (context : list nat) :
  replaceContextValues c [] context = c.
Proof. now destruct c. Qed.

Section Reporting.

Context {host : Host}.
Variable documentJson : json.
Variable r : rule.
Variable loops : list loop.
Variable contextObj : option json.

Local Abbreviation evalIn :=
  (evaluateInContext documentJson (id r) (conditions r) loops contextObj).
Local Abbreviation evalFrom :=
  (evaluateContextsFrom documentJson (id r) (conditions r) loops contextObj).

(** What the loop over the contexts adds to its result list: passing
    records only, and at least one exactly when a context passes. *)
Lemma evalFrom_records (returnAll : bool) (remaining : list (list nat)) :
  forall results records,
    evalFrom returnAll remaining results = inr records ->
    exists extra,
      records = results ++ extra
      /\ Forall (fun ev => result ev = true) extra
      /\ (extra <> [] <->
          exists c, In c remaining /\ passesIn documentJson r loops contextObj c).
Proof.
  induction remaining as [|c rest IH]; intros results records.
  - intros [= <-]. exists []. rewrite app_nil_r.
    repeat split; [constructor | congruence | intros (c & [] & _)].
  - cbn [evaluateContextsFrom bindT].
    destruct (evalIn c) as [msg | ev] eqn:Hc; [discriminate |]. cbn [bindT].
    destruct (result ev) eqn:Hev.
    + assert (Hpass : exists x, In x (c :: rest)
                        /\ passesIn documentJson r loops contextObj x)
        by (exists c; split; [now left | now exists ev]).
      destruct returnAll; cbn [negb].
      * intros Hrun. apply IH in Hrun as (extra & -> & Hall & _).
        exists (ev :: extra). rewrite <- app_assoc.
        repeat split; [now constructor | intros _; exact Hpass | discriminate].
      * intros [= <-]. exists [ev].
        repeat split; [now repeat constructor | intros _; exact Hpass | discriminate].
    + intros Hrun. apply IH in Hrun as (extra & -> & Hall & Hiff).
      exists extra. repeat split; [exact Hall | |].
      * intros Hne. apply Hiff in Hne as (x & Hx & Hp). exists x. split; [now right | exact Hp].
      * intros (x & [<- | Hx] & Hp).
        -- destruct Hp as (ev' & Hev' & Hres). rewrite Hc in Hev'.
           injection Hev' as <-. congruence.
        -- apply Hiff. now exists x.
Qed.

(** A context that throws, reached by the loop, makes the loop throw. *)
Lemma evalFrom_raise (returnAll : bool) (pre post : list (list nat))
  (c : list nat) (msg : str) :
  forall results,
    (forall x, In x pre ->
       exists e, evalIn x = inr e /\ (returnAll = true \/ result e = false)) ->
    evalIn c = inl msg ->
    evalFrom returnAll (pre ++ c :: post) results = inl msg.
Proof.
  induction pre as [|x pre IH]; intros results Hpre Hc.
  - cbn [app evaluateContextsFrom]. now rewrite Hc.
  - destruct (Hpre x (or_introl eq_refl)) as (e & He & Hmode).
    cbn [app evaluateContextsFrom]. rewrite He. cbn [bindT].
    assert (Hrest : forall y, In y pre ->
              exists e', evalIn y = inr e' /\ (returnAll = true \/ result e' = false))
      by (intros y Hy; apply Hpre; now right).
    destruct (result e) eqn:Hres.
    + destruct Hmode as [-> | Hf]; [| congruence]. cbn [negb]. now apply IH.
    + now apply IH.
Qed.

End Reporting.

(** ** The rule evaluator *)

Section RuleEvaluator.

Context {host : Host}.
Variable documentJson : json.
Variable contextObj : option json.
Variables contextLimit startTime timeLimit : Z.
Variable returnAllContexts : bool.



(** An error in the evaluation of a rule becomes that rule's entry. *)
Lemma processRule_raise (r r1 : rule) (clock : nat) (loops : list loop)
  (st : machine) (msg : str) :
  prepareRule documentJson contextLimit startTime timeLimit r clock = (r1, loops, st) ->
  evaluateRule documentJson contextObj returnAllContexts r1 loops = inl msg ->
  processRule documentJson contextObj contextLimit startTime timeLimit
    returnAllContexts r clock
  = (r1, [errorResult r1 msg], reads st).
Proof. intros Hprep Heval. unfold processRule. now rewrite Hprep, Heval. Qed.

Lemma processRule_return (r r1 r2 : rule) (clock : nat) (loops : list loop)
  (st : machine) :
  prepareRule documentJson contextLimit startTime timeLimit r clock = (r1, loops, st) ->
  evaluateRule documentJson contextObj returnAllContexts r1 loops = inr r2 ->
  processRule documentJson contextObj contextLimit startTime timeLimit
    returnAllContexts r clock
  = (r2, addRuleToResults r2 ++ limitEntry r2 contextLimit timeLimit, reads st).
Proof. intros Hprep Heval. unfold processRule. now rewrite Hprep, Heval. Qed.


End RuleEvaluator.


(** * The claims *)

(** C2. Two loops over arrays of lengths [m] and [n]: when neither
    budget flag is set at the end, [explodeContexts] returns exactly the
    [m * n] index pairs, without repetition, every pair [(i, j)] among
    them, in row-major order (the first loop of the list varies
    slowest); and the per-context records [evaluateConditionsInContexts]
    returns follow that order. *)
Theorem cartesian_two_loops {host : Host} (documentJson : json)
  (contextLimit startTime timeLimit : Z) (clock : nat) (l1 l2 : loop)
  (m n : nat) (tuples : list (list nat)) (st : machine) :
  explodeContexts documentJson [l1; l2] [] contextLimit startTime timeLimit
    (mkMachine freshCounter clock) = (tuples, st) ->
  arrayLength documentJson (completeObjectPath l1) m ->
  (forall i, i < m ->
     arrayLength documentJson
       (JsString.replace
          (completeObjectPath l1 ++ $"[" ++ templ (parm l1) ++ $"]")
          (completeObjectPath l1 ++ $"." ++ JsString.ofNat i)
          (completeObjectPath l2))
       n) ->
  limitReached (counter st) = false ->
  timeReached (counter st) = false ->
  tuples = rowMajor m n /\
  length tuples = m * n /\
  NoDup tuples /\
  (forall i j, i < m -> j < n -> In [i; j] tuples) /\
  (forall t, In t tuples -> exists i j, i < m /\ j < n /\ t = [i; j]) /\
  (forall (r : rule) (contextObj : option json) (outcome : list nat -> evaluation),
      contexts r = Some tuples ->
      (forall c, In c tuples ->
         evaluateInContext documentJson (id r) (conditions r) [l1; l2] contextObj c
         = inr (outcome c)) ->
      evaluateConditionsInContexts documentJson r [l1; l2] contextObj true
      = inr (filter result (map outcome (rowMajor m n)))).
Proof.
  intros Hrun Hm Hn Hlim Htime.
  pose proof (explodeContexts_ok documentJson contextLimit startTime timeLimit
                [l1; l2] [] (mkMachine freshCounter clock)) as Hok.
  rewrite Hrun in Hok. cbn [fst snd] in Hok.
  destruct Hok as (_ & Hfull & _).
  destruct Hfull as [Hts _]; [now apply tripped_false |].
  rewrite (fullContexts_two documentJson l1 l2 m n Hm Hn) in Hts. subst tuples.
  split; [reflexivity |].
  split; [apply rowMajor_length |].
  split; [apply rowMajor_NoDup |].
  split; [intros i j Hi Hj; apply rowMajor_In; now exists i, j |].
  split; [intros t Ht; now apply rowMajor_In |].
  intros r contextObj outcome Hctx Hall.
  unfold evaluateConditionsInContexts. rewrite Hctx.
  now rewrite evalFrom_all with (outcome := outcome).
Qed.




Lemma cartesian_two_loops_witness :
  fst (explodeContexts (host := Model.still) Examples.docAB
         [Examples.loopA; Examples.loopB] [] 10000 0 200
         (mkMachine freshCounter 0))
  = rowMajor 2 3.
Proof.
  set (run := explodeContexts (host := Model.still) Examples.docAB
                [Examples.loopA; Examples.loopB] [] 10000 0 200
                (mkMachine freshCounter 0)).
  apply (cartesian_two_loops (host := Model.still) Examples.docAB
           10000 0 200 0 Examples.loopA Examples.loopB
           2 3 (fst run) (snd run)).
  - apply surjective_pairing.
  - eexists. split; [vm_compute; reflexivity | reflexivity].
  - intros i Hi. eexists.
    split; [destruct i as [|[|i]]; [vm_compute; reflexivity .. | lia] | reflexivity].
  - vm_compute. reflexivity.
  - vm_compute. reflexivity.
Defined.

(** C9. A condition whose left operand is absent, under any operator
    other than the two existence operators, evaluates to [false]:
    [testCondition] returns, it does not throw. *)
Theorem absent_left_is_false {host : Host} (leftValue rightValue : value)
  (operator : str) :
  val leftValue = None ->
  operator <> $"exists" ->
  operator <> $"does_not_exists" ->
  testCondition leftValue rightValue operator = inr false.
Proof.
  intros Hleft Hex Hnex. unfold testCondition, isOp.
  destruct (JsString.eqb operator $"exists") eqn:E1.
  { apply StringFacts.eqb_eq in E1. contradiction. }
  destruct (JsString.eqb operator $"does_not_exists") eqn:E2.
  { apply StringFacts.eqb_eq in E2. contradiction. }
  now rewrite Hleft.
Qed.

Lemma absent_left_is_false_witness :
  testCondition (host := Model.still)
    (getValueWithContext (host := Model.still) Examples.docAB (Some $"missing") None)
    (mkValue (Some (JNum 1)) FromRule) $"<="
  = inr false.
Proof.
  apply absent_left_is_false.
  - vm_compute. reflexivity.
  - discriminate.
  - discriminate.
Defined.









(** C8. A call allocates one heap cell, which holds its private copy
    of the rules, and writes no other: every object of the caller, the
    document, the rules array and the side context among them, is left
    as it was.  Hence a second call on the same arguments, under the
    same clock readings, returns the same results. *)
Theorem validateRules_frame {host : Host} (h : heap) (documentJson rules : nat)
  (contextObj : option nat) (o : options) :
  let h' := snd (validateRules h documentJson rules contextObj o) in
  (forall a, a < length h -> nth_error h' a = nth_error h a)
  /\ length h' = S (length h)
  /\ (exists copy, nth_error h' (length h) = Some (ORules copy))
  /\ (documentJson < length h -> rules < length h ->
      (forall c, contextObj = Some c -> c < length h) ->
      fst (validateRules h' documentJson rules contextObj o)
      = fst (validateRules h documentJson rules contextObj o)).
Proof.
  intros h'.
  destruct (validateRules_spec h documentJson rules contextObj o)
    as (Hres & Hlen & Hframe & Hcell).
  fold h' in Hlen, Hframe, Hcell.
  split; [exact Hframe |]. split; [exact Hlen |]. split; [exact Hcell |].
  intros Hdoc Hrules Hctx.
  destruct (validateRules_spec h' documentJson rules contextObj o) as (Hres' & _).
  rewrite Hres, Hres'.
  assert (HreadJ : forall a, a < length h -> readJson h' a = readJson h a)
    by (intros a Ha; unfold readJson; now rewrite Hframe).
  assert (HreadR : readRules h' rules = readRules h rules)
    by (unfold readRules; now rewrite Hframe).
  rewrite HreadR, (HreadJ documentJson Hdoc).
  destruct contextObj as [c|]; [| reflexivity].
  cbn [option_map]. now rewrite (HreadJ c (Hctx c eq_refl)).
Qed.

Lemma validateRules_frame_witness :
  fst (validateRules (host := Model.still)
         (snd (validateRules (host := Model.still) Examples.heapJohn 0 1 None
                 Examples.noOptions))
         0 1 None Examples.noOptions)
  = fst (validateRules (host := Model.still) Examples.heapJohn 0 1 None
           Examples.noOptions).
Proof.
  destruct (validateRules_frame (host := Model.still) Examples.heapJohn 0 1 None
              Examples.noOptions) as (_ & _ & _ & Hsame).
  apply Hsame.
  - simpl. lia.
  - simpl. lia.
  - intros c Hc. discriminate.
Defined.

(** C1, the code at a failing input.  The rule [zeta[].v = alpha[].w]
    meets [zeta] first, so its paths carry [@0] for [zeta] and [@1] for
    [alpha]; sorting puts [alpha] first, so a tuple gives [alpha]'s
    index at position 0.  [replaceContextValues] replaces [[@k]] by the
    index at position [k]: in the context that picks [alpha[0]] and
    [zeta[1]] the paths become [zeta.0.v] and [alpha.1.w], each array
    receiving the other one's index, and the rule, satisfied by
    [zeta[1].v = alpha[0].w], is not reported. *)
Theorem placeholder_position_mismatch :
  let run := prepareRule (host := Model.still) Examples.docZA 10000 0 200
               Examples.ruleZA 0 in
  let r1 := fst (fst run) in
  let loops := snd (fst run) in
  map completeObjectPath loops = [$"alpha"; $"zeta"]
  /\ map parm loops = [Some $"@1"; Some $"@0"]
  /\ conditions r1 = [mkCondition (Some $"zeta[@0].v") $"=" None (Some $"alpha[@1].w")]
  /\ contexts r1 = Some [[0; 0]; [0; 1]]
  /\ map (fun c => replaceContextValues c loops [0; 1]) (conditions r1)
     = [mkCondition (Some $"zeta.0.v") $"=" None (Some $"alpha.1.w")]
  /\ fst (validateRules (host := Model.still)
            [OJson Examples.docZA; ORules [Examples.ruleZA]] 0 1 None
            Examples.noOptions) = [].
Proof. vm_compute. repeat split. Qed.

(** C5, the code at a failing input.  The rule
    [a.items[].v = b.items[].v] traverses two arrays whose paths end in
    [items].  Discovery meets [a.items[]] and rewrites every [items[]]
    of the rule, so [b.items[]] is bound to the same placeholder and
    never discovered: one descriptor, no warning, one context per
    element of [a.items], and [b.items[1]], which satisfies the rule,
    is never visited. *)
Theorem same_name_arrays_merged :
  processConditionsForLoops (conditions Examples.ruleItems) []
  = ([mkCondition (Some $"a.items[@0].v") $"=" None (Some $"b.items[@0].v")],
     [mkLoop $"items" $"a.items" (Some $"@0")])
  /\ validateArrayReferences [mkLoop $"items" $"a.items" (Some $"@0")] = (true, [])
  /\ contexts (fst (fst (prepareRule (host := Model.still) Examples.docItems
                           10000 0 200 Examples.ruleItems 0)))
     = Some [[0]]
  /\ fst (validateRules (host := Model.still)
            [OJson Examples.docItems; ORules [Examples.ruleItems]] 0 1 None
            Examples.noOptions) = [].
Proof. vm_compute. repeat split. Qed.


(** * Further properties *)

(** ** The condition test *)

Section ConditionTest.

Context {host : Host}.





Lemma lowerChar_idempotent (c : ascii) :
  JsString.lowerChar (JsString.lowerChar c) = JsString.lowerChar c.
Proof. destruct c as [[] [] [] [] [] [] [] []]; reflexivity. Qed.

Lemma toLowerCase_idempotent (s : str) :
  JsString.toLowerCase (JsString.toLowerCase s) = JsString.toLowerCase s.
Proof.
  unfold JsString.toLowerCase. rewrite map_map.
  apply map_ext. apply lowerChar_idempotent.
Qed.

Lemma lowerIfString_idempotent (v : value) :
  lowerIfString (lowerIfString v) = lowerIfString v.
Proof.
  unfold lowerIfString. destruct v as [[[| | | s | |]|] o]; cbn; try reflexivity.
  now rewrite toLowerCase_idempotent.
Qed.

Lemma lowerIfString_undefined (v : value) :
  isUndefined (lowerIfString v) = isUndefined v.
Proof. destruct v as [[[| | | s | |]|] o]; reflexivity. Qed.

Lemma lowerIfString_from (v : value) : from (lowerIfString v) = from v.
Proof. destruct v as [[[| | | s | |]|] o]; reflexivity. Qed.

Lemma lowerIfString_length (v : value) :
  option_map lengthProperty (val (lowerIfString v)) = option_map lengthProperty (val v).
Proof.
  destruct v as [[[| | | s | |]|] o]; cbn; try reflexivity.
  unfold JsString.toLowerCase. now rewrite length_map.
Qed.

(** X2. Letter case never matters: lowering a string operand before the
    call changes the outcome of no operator. *)
Theorem testCondition_ignores_case (leftValue rightValue : value) (operator : str) :
  testCondition (lowerIfString leftValue) (lowerIfString rightValue) operator
  = testCondition leftValue rightValue operator.
Proof.
  unfold testCondition.
  rewrite lowerIfString_undefined, !lowerIfString_idempotent, lowerIfString_from.
  pose proof (lowerIfString_length leftValue) as Hlen.
  destruct (val (lowerIfString leftValue)) as [l'|] eqn:Hl',
           (val leftValue) as [l|] eqn:Hl; cbn in Hlen; try discriminate;
    [| reflexivity].
  injection Hlen as Hlen. now rewrite Hlen.
Qed.

(** X3. On a present left operand [<>] answers the opposite of [=],
    [does_not_contains] the opposite of [contains] and [not_in] the
    opposite of [in]; [is_contained] answers what [in] answers. *)
Theorem operators_in_pairs (leftValue rightValue : value) (test : bool) :
  val leftValue <> None ->
  (testCondition leftValue rightValue $"=" = inr test ->
   testCondition leftValue rightValue $"<>" = inr (negb test))
  /\ (testCondition leftValue rightValue $"contains" = inr test ->
      testCondition leftValue rightValue $"does_not_contains" = inr (negb test))
  /\ (testCondition leftValue rightValue $"in" = inr test ->
      testCondition leftValue rightValue $"not_in" = inr (negb test))
  /\ (testCondition leftValue rightValue $"is_contained" = inr test
      <-> testCondition leftValue rightValue $"in" = inr test).
Proof.
  intros Hleft. unfold testCondition, isOp.
  destruct (val leftValue) as [l|]; [| contradiction].
  repeat match goal with
         | |- context [JsString.eqb (list_ascii_of_string ?a) (list_ascii_of_string ?b)] =>
             let v := eval vm_compute in
                        (JsString.eqb (list_ascii_of_string a) (list_ascii_of_string b)) in
             change (JsString.eqb (list_ascii_of_string a) (list_ascii_of_string b)) with v
         end.
  cbv iota.
  repeat split.
  - now intros [= <-].
  - destruct (receiverIncludes _ _); cbn; [now intros [= <-] | discriminate].
  - destruct (receiverIncludes _ _); cbn; [now intros [= <-] | discriminate].
  - destruct (receiverIncludes _ _); cbn; [now intros [= <-] | discriminate].
  - destruct (receiverIncludes _ _); cbn; [now intros [= <-] | discriminate].
Qed.

(** X4. A path under the [_context.] prefix is read from a truthy side
    context with the prefix removed once; without a side context, or
    without the prefix, the path is read from the document as it is. *)
Theorem getValueWithContext_routes (documentJson : json) :
  (forall q ctx,
      truthy ctx = true ->
      getValueWithContext documentJson (Some ($"_context." ++ q)) (Some ctx)
      = mkValue (objectPath_get ctx (Some q)) (FromContext q))
  /\ (forall p ctx,
        JsString.startsWith $"_context." p = false \/ truthy ctx = false ->
        getValueWithContext documentJson (Some p) (Some ctx)
        = mkValue (objectPath_get documentJson (Some p)) (FromDocument (Some p)))
  /\ (forall path,
        getValueWithContext documentJson path None
        = mkValue (objectPath_get documentJson path) (FromDocument path)).
Proof.
  split; [| split].
  - intros q ctx Hctx. unfold getValueWithContext.
    rewrite StringFacts.startsWith_self, Hctx. cbn [andb].
    unfold JsString.replace.
    rewrite StringFacts.replaceFrom_self by (intros []).
    reflexivity.
  - intros p ctx H. unfold getValueWithContext.
    destruct H as [-> | ->]; [reflexivity | now rewrite andb_false_r].
  - intros path. unfold getValueWithContext. now destruct path.
Qed.

End ConditionTest.

(** ** The two conjunctions *)

Section Conjunctions.

Context {host : Host}.
Variable documentJson : json.
Variable contextObj : option json.

(** The step of the [reduce] in [evaluateSimpleConditions]. *)
Local Abbreviation simpleStep :=
  (fun (acc : throws simpleResult) c =>
     result <- acc ;;
     if response result then
       r <- rethrow $"Failed to evaluate conditions in one context."
              (compareOperands documentJson c contextObj) ;;
       let (test, item) := r in
       inr (mkSimpleResult test
              (if test then items result ++ [item] else items result))
     else inr (mkSimpleResult false (items result))).

Lemma simple_thrown (conds : list condition) (msg : str) :
  fold_left simpleStep conds (inl msg) = inl msg.
Proof. induction conds as [|c conds IH]; [reflexivity | exact IH]. Qed.

Lemma simple_failed (conds : list condition) (vals : list conditionValue) :
  fold_left simpleStep conds (inr (mkSimpleResult false vals))
  = inr (mkSimpleResult false vals).
Proof. induction conds as [|c conds IH]; [reflexivity | exact IH]. Qed.

Lemma simple_passing (pre rest : list condition) :
  forall vals,
    Forall (passes documentJson contextObj) pre ->
    fold_left simpleStep (pre ++ rest) (inr (mkSimpleResult true vals))
    = fold_left simpleStep rest
        (inr (mkSimpleResult true (vals ++ passingItems documentJson contextObj pre))).
Proof.
  induction pre as [|c pre IH]; intros vals Hpre.
  - cbn. now rewrite app_nil_r.
  - inversion Hpre as [|? ? [item Hc] Hrest]; subst.
    cbn [app fold_left bindT response items passingItems flat_map].
    rewrite Hc. cbn [rethrow bindT].
    fold (passingItems documentJson contextObj pre).
    rewrite IH by exact Hrest. now rewrite <- app_assoc.
Qed.

(** X5. The conjunction stops at the first condition that fails: the
    conditions after it are not evaluated, so nothing they hold can
    raise, and the items kept are those of the conditions before it. *)
Theorem evaluateSimpleConditions_stops (pre post : list condition)
  (c : condition) (item : conditionValue) :
  Forall (passes documentJson contextObj) pre ->
  compareOperands documentJson c contextObj = inr (false, item) ->
  evaluateSimpleConditions documentJson (pre ++ c :: post) contextObj
  = inr (mkSimpleResult false (passingItems documentJson contextObj pre)).
Proof.
  intros Hpre Hc. unfold evaluateSimpleConditions.
  rewrite simple_passing by exact Hpre.
  cbn [fold_left bindT response items app]. rewrite Hc. cbn [rethrow bindT].
  apply simple_failed.
Qed.

(** X6. The direct conjunction: when every condition passes the answer
    is [true] with one item per condition, in order; when a condition
    raises after conditions that pass, the error leaves under the one
    message of the evaluator, whatever was thrown. *)
Theorem evaluateSimpleConditions_outcomes (conds : list condition) :
  (Forall (passes documentJson contextObj) conds ->
   evaluateSimpleConditions documentJson conds contextObj
   = inr (mkSimpleResult true (passingItems documentJson contextObj conds))
   /\ length (passingItems documentJson contextObj conds) = length conds)
  /\ (forall pre c post msg,
        conds = pre ++ c :: post ->
        Forall (passes documentJson contextObj) pre ->
        compareOperands documentJson c contextObj = inl msg ->
        evaluateSimpleConditions documentJson conds contextObj
        = inl $"Failed to evaluate conditions in one context.").
Proof.
  unfold evaluateSimpleConditions. split.
  - intros Hall. split.
    + rewrite <- (app_nil_r conds) at 1. now rewrite simple_passing.
    + induction Hall as [|c cs [item Hc] _ IH]; [reflexivity |].
      cbn [passingItems flat_map]. rewrite Hc. cbn [app length].
      fold (passingItems documentJson contextObj cs). now rewrite IH.
  - intros pre c post msg -> Hpre Hc.
    rewrite simple_passing by exact Hpre.
    cbn [fold_left bindT response]. rewrite Hc. cbn [rethrow bindT].
    apply simple_thrown.
Qed.

(** The step of the [reduce] in [evaluateConditionsInContexts]. *)
Local Abbreviation contextStep ruleId :=
  (fun (acc : throws evaluation) c =>
     prevItem <- acc ;;
     if result prevItem then
       r <- rethrow (failedInRule ruleId)
              (compareOperands documentJson c contextObj) ;;
       let (test, item) := r in
       if test
       then inr (mkEvaluation true (conditionValues prevItem ++ [item]))
       else inr (mkEvaluation false (conditionValues prevItem))
     else inr (mkEvaluation false (conditionValues prevItem))).

Lemma steps_agree (ruleId : option json) (conds : list condition) :
  forall a b,
    sameAnswer ruleId a b ->
    sameAnswer ruleId (fold_left simpleStep conds a)
      (fold_left (contextStep ruleId) conds b).
Proof.
  induction conds as [|c conds IH]; intros a b Hab; [exact Hab |].
  cbn [fold_left]. apply IH.
  destruct a as [m | [resp its]], b as [m' | [res vals]]; cbn in Hab |- *;
    try contradiction; [exact Hab |].
  destruct Hab as [<- <-].
  destruct resp; [| now split].
  destruct (compareOperands documentJson c contextObj) as [e | [[] item]];
    cbn; now split.
Qed.

(** X7. Without loops the two evaluators agree: the conjunction in the
    empty context gives the answer and the items of the direct
    evaluation, and raises exactly when it does. *)
Theorem evaluators_agree_without_loops (ruleId : option json)
  (conds : list condition) :
  sameAnswer ruleId
    (evaluateSimpleConditions documentJson conds contextObj)
    (evaluateInContext documentJson ruleId conds [] contextObj []).
Proof.
  unfold evaluateSimpleConditions, evaluateInContext.
  rewrite (map_ext _ (fun c => c)) by (intros c; apply replaceContextValues_noLoops).
  rewrite map_id. apply steps_agree. now split.
Qed.

Lemma compareOperands_item (c : condition) (test : bool) (item : conditionValue) :
  compareOperands documentJson c contextObj = inr (test, item) ->
  instancePath item = ref c /\ cv_operator item = operator c.
Proof.
  unfold compareOperands.
  destruct (comparisonValue c), (comparisonRef c); try discriminate;
    match goal with
    | |- context [testCondition ?l ?r ?o] => destruct (testCondition l r o)
    end; cbn; try discriminate; intros [= <- <-]; now split.
Qed.

Lemma context_records (ruleId : option json) (conds : list condition) :
  forall vals ev,
    fold_left (contextStep ruleId) conds (inr (mkEvaluation true vals)) = inr ev ->
    (result ev = true ->
     exists its, conditionValues ev = vals ++ its
                 /\ map instancePath its = map ref conds
                 /\ map cv_operator its = map operator conds)
    /\ (result ev = false ->
        length (conditionValues ev) < length vals + length conds).
Proof.
  induction conds as [|c conds IH]; intros vals ev.
  - cbn. intros [= <-]. cbn. split; [| discriminate].
    intros _. exists []. now rewrite app_nil_r.
  - cbn [fold_left bindT result conditionValues].
    destruct (compareOperands documentJson c contextObj) as [e | [[] item]] eqn:Hc;
      cbn [rethrow bindT].
    + now rewrite reduce_thrown.
    + intros Hev. destruct (IH _ _ Hev) as [Htrue Hfalse].
      destruct (compareOperands_item _ _ _ Hc) as [Hpath Hop].
      split.
      * intros Hres. destruct (Htrue Hres) as (its & Hvals & Hpaths & Hops).
        exists (item :: its). rewrite Hvals, <- app_assoc. cbn.
        now rewrite Hpath, Hop, Hpaths, Hops.
      * intros Hres. specialize (Hfalse Hres).
        rewrite length_app in Hfalse. cbn in Hfalse |- *. lia.
    + rewrite reduce_failed. intros [= <-]. cbn.
      split; [discriminate | intros _; lia].
Qed.

End Conjunctions.

(** ** The records of the contexts *)

Section Records.

Context {host : Host}.
Variable documentJson : json.
Variable contextObj : option json.

(** X8. The record of a context that passes holds one entry per
    condition of the rule, in the order of the conditions, each with
    the instantiated path and the operator of its condition; the
    record of a context that fails holds fewer entries than there are
    conditions. *)
Theorem evaluateInContext_record (ruleId : option json) (conds : list condition)
  (loops : list loop) (context : list nat) (ev : evaluation) :
  evaluateInContext documentJson ruleId conds loops contextObj context = inr ev ->
  (result ev = true ->
   map instancePath (conditionValues ev)
   = map (fun c => ref (replaceContextValues c loops context)) conds
   /\ map cv_operator (conditionValues ev) = map operator conds)
  /\ (result ev = false -> length (conditionValues ev) < length conds).
Proof.
  unfold evaluateInContext. intros Hev.
  apply context_records in Hev as [Htrue Hfalse]. split.
  - intros Hres. destruct (Htrue Hres) as (its & Hvals & Hpaths & Hops).
    cbn in Hvals. subst its. rewrite Hpaths, Hops, !map_map. split; reflexivity.
  - intros Hres. specialize (Hfalse Hres). now rewrite length_map in Hfalse.
Qed.

Lemma evalFrom_first_of_all (r : rule) (loops : list loop)
  (remaining : list (list nat)) :
  forall results rs,
    evaluateContextsFrom documentJson (id r) (conditions r) loops contextObj
      true remaining results = inr rs ->
    exists extra,
      rs = results ++ extra
      /\ evaluateContextsFrom documentJson (id r) (conditions r) loops contextObj
           false remaining results = inr (results ++ firstn 1 extra).
Proof.
  induction remaining as [|c rest IH]; intros results rs.
  - cbn. intros [= <-]. exists []. now rewrite app_nil_r.
  - cbn [evaluateContextsFrom].
    destruct (evaluateInContext documentJson (id r) (conditions r) loops
                contextObj c) as [e | ev]; [discriminate |].
    cbn [bindT negb]. destruct (result ev) eqn:Hres.
    + intros Hrun.
      destruct (evalFrom_records documentJson r loops contextObj true rest
                  _ _ Hrun) as (extra & -> & _).
      exists (ev :: extra). now rewrite <- app_assoc.
    + apply IH.
Qed.

Lemma first_of_all (r : rule) (loops : list loop) (records : list evaluation) :
  evaluateConditionsInContexts documentJson r loops contextObj true = inr records ->
  evaluateConditionsInContexts documentJson r loops contextObj false
  = inr (firstn 1 records).
Proof.
  unfold evaluateConditionsInContexts. intros Hall.
  destruct (evalFrom_first_of_all r loops _ _ _ Hall) as (extra & -> & Hfirst).
  exact Hfirst.
Qed.

(** X9. Asking for the first passing context only gives the first of
    the records that asking for all of them gives. *)
Theorem first_context_of_all (r : rule) (loops : list loop)
  (records : list evaluation) :
  evaluateConditionsInContexts documentJson r loops contextObj true = inr records ->
  evaluateConditionsInContexts documentJson r loops contextObj false
  = inr (firstn 1 records).
Proof.
  unfold evaluateConditionsInContexts. intros Hall.
  destruct (evalFrom_first_of_all r loops _ _ _ Hall) as (extra & -> & Hfirst).
  exact Hfirst.
Qed.

End Records.

(** ** The loop descriptors *)

Module SegmentFacts.
Import JsString StringFacts.

Lemma lastIndexOfFrom_spec (c : ascii) (s : str) :
  forall i found,
    let k := lastIndexOfFrom c s i found in
    (k = found /\ ~ In c s)
    \/ ((i <= k < i + Z.of_nat (length s))%Z
        /\ nth_error s (Z.to_nat (k - i)) = Some c
        /\ ~ In c (skipn (S (Z.to_nat (k - i))) s)).
Proof.
  induction s as [|d s IH]; intros i found; cbn [lastIndexOfFrom].
  - left. split; [reflexivity | intros []].
  - cbv zeta in IH.
    destruct (IH (i + 1)%Z (if ascii_eqb c d then i else found))
      as [[Hk Hnot] | (Hrange & Hnth & Hafter)].
    + rewrite Hk. destruct (ascii_eqb c d) eqn:E.
      * apply ascii_eqb_eq in E. subst d. right.
        rewrite Z.sub_diag. cbn [length Z.to_nat nth_error skipn].
        repeat split; [lia | lia | exact Hnot].
      * left. split; [reflexivity |]. intros [-> | Hin]; [| contradiction].
        assert (ascii_eqb c c = true) by now apply ascii_eqb_eq.
        congruence.
    + right.
      set (k := lastIndexOfFrom c s (i + 1) (if ascii_eqb c d then i else found)) in *.
      replace (Z.to_nat (k - i)) with (S (Z.to_nat (k - (i + 1)))) by lia.
      cbn [length nth_error skipn]. repeat split; [lia | lia | exact Hnth | exact Hafter].
Qed.

Lemma firstn_snoc {A : Type} (l : list A) :
  forall n x, nth_error l n = Some x -> firstn (S n) l = firstn n l ++ [x].
Proof.
  induction l as [|y l IH]; intros [|n] x; cbn; try discriminate.
  - now intros [= ->].
  - intros H. now rewrite <- (IH n x H).
Qed.

(** The last segment of a path holds no dot and is what follows the
    last dot of the path. *)
Lemma lastSegment_spec (p : str) :
  ~ In "."%char (lastSegment p)
  /\ exists q, p = q ++ lastSegment p /\ (q = [] \/ exists q', q = q' ++ ["."%char]).
Proof.
  unfold lastSegment, slice, lastIndexOf.
  destruct (lastIndexOfFrom_spec "."%char p 0 (-1))
    as [[Hk Hnot] | (Hrange & Hnth & Hafter)]; cbv zeta in *.
  - rewrite Hk. cbn [Z.add Z.to_nat skipn]. split; [exact Hnot |].
    exists []. split; [reflexivity | now left].
  - set (k := lastIndexOfFrom "."%char p 0 (-1)) in *.
    rewrite Z.sub_0_r in Hnth, Hafter.
    replace (Z.to_nat (k + 1)) with (S (Z.to_nat k)) by lia.
    split; [exact Hafter |].
    exists (firstn (S (Z.to_nat k)) p). split.
    + symmetry. apply firstn_skipn.
    + right. exists (firstn (Z.to_nat k) p). now apply firstn_snoc.
Qed.

Lemma splitHead_prefix (sep s : str) :
  exists rest, s = splitHead sep s ++ rest
               /\ (rest = [] \/ startsWith sep rest = true).
Proof.
  induction s as [|c s IH]; cbn [splitHead].
  - destruct (startsWith sep []) eqn:E.
    + exists []. split; [reflexivity | now left].
    + exists []. split; [reflexivity | now left].
  - destruct (startsWith sep (c :: s)) eqn:E.
    + exists (c :: s). split; [reflexivity | now right].
    + destruct IH as (rest & Hs & Hrest). exists rest.
      split; [cbn [app]; now rewrite <- Hs | exact Hrest].
Qed.

Lemma startsWith_longer (sep a b : str) :
  startsWith sep a = true -> startsWith sep (a ++ b) = true.
Proof.
  intros H. apply startsWith_app in H as [rest ->].
  rewrite <- app_assoc. apply startsWith_self.
Qed.

Lemma splitHead_clean (sep s : str) :
  sep <> [] -> includes sep (splitHead sep s) = false.
Proof.
  intros Hsep. induction s as [|c s IH]; cbn [splitHead].
  - destruct (startsWith sep []) eqn:E; cbn [includes]; destruct sep; try reflexivity;
      contradiction.
  - destruct (startsWith sep (c :: s)) eqn:E.
    + cbn [includes]. destruct sep; [contradiction | reflexivity].
    + cbn [includes]. rewrite IH, orb_false_r.
      destruct (startsWith sep (c :: splitHead sep s)) eqn:E'; [| reflexivity].
      destruct (splitHead_prefix sep s) as (rest & Hs & _).
      apply (startsWith_longer _ _ rest) in E'. cbn [app] in E'.
      rewrite <- Hs in E'. congruence.
Qed.

End SegmentFacts.

(** X10. The descriptor read off a path: [completeObjectPath] is the
    text before the first marker (it holds no marker and the rest of
    the path starts with one, if there is a rest), and [objectName] is
    its last dot-separated segment (it holds no dot, and what precedes
    it in the path is empty or ends in a dot). *)
Theorem extractLoopDetails_shape (value : str) :
  let name := fst (extractLoopDetails value) in
  let path := snd (extractLoopDetails value) in
  (exists rest, value = path ++ rest
                /\ (rest = [] \/ JsString.startsWith $"[]" rest = true))
  /\ JsString.includes $"[]" path = false
  /\ ~ In "."%char name
  /\ exists q, path = q ++ name /\ (q = [] \/ exists q', q = q' ++ ["."%char]).
Proof.
  cbn [extractLoopDetails fst snd]. unfold extractLoopDetails. cbn [fst snd].
  split; [apply SegmentFacts.splitHead_prefix |].
  split; [apply SegmentFacts.splitHead_clean; discriminate |].
  apply (SegmentFacts.lastSegment_spec (JsString.splitHead $"[]" value)).
Qed.

(** ** What discovery keeps *)

Section DiscoveryInvariants.

(** A property of the loop list that registering a descriptor keeps
    is kept by the whole discovery. *)
Lemma discoverInField_loops (P : list loop -> Prop) :
  (forall v loops,
      P loops ->
      P (loops ++ [mkLoop (fst (extractLoopDetails v)) (snd (extractLoopDetails v))
                     (Some ($"@" ++ JsString.ofNat (length loops)))])) ->
  forall fuel v conds loops,
    P loops -> P (snd (discoverInField fuel v conds loops)).
Proof.
  intros Hpush. induction fuel as [|fuel IH]; intros v conds loops HP;
    cbn [discoverInField]; [exact HP |].
  destruct (JsString.includes _ v); [| exact HP].
  pose proof (Hpush v loops HP) as Hnew.
  destruct (extractLoopDetails v) as [nm path]. cbn [fst snd] in Hnew.
  apply IH. now destruct (existsb _ loops).
Qed.

Lemma processConditionsForLoops_loops (P : list loop -> Prop) :
  (forall v loops,
      P loops ->
      P (loops ++ [mkLoop (fst (extractLoopDetails v)) (snd (extractLoopDetails v))
                     (Some ($"@" ++ JsString.ofNat (length loops)))])) ->
  forall conds loops,
    P loops -> P (snd (processConditionsForLoops conds loops)).
Proof.
  intros Hpush conds loops HP. unfold processConditionsForLoops.
  assert (Hfield : forall i f acc, P (snd acc) -> P (snd (processField i f acc))).
  { intros i f [cs ls] Hacc. unfold processField.
    destruct (nth_error cs i) as [c|]; [| exact Hacc].
    destruct (getField f c) as [v|]; [| exact Hacc].
    destruct (truthyStr (Some v)); [| exact Hacc].
    now apply discoverInField_loops. }
  assert (H : forall idxs acc, P (snd acc) ->
                               P (snd (fold_left discoveryStep idxs acc))).
  { induction idxs as [|i idxs IH]; intros acc Hacc; [exact Hacc |].
    apply IH. unfold discoveryStep. now do 2 apply Hfield. }
  now apply (H _ (conds, loops)).
Qed.

(** X11. Placeholders are discovery ordinals: the descriptor discovery
    leaves at position [k] of its list carries the placeholder [@k],
    and its name is the last segment of its path. *)
Theorem discovery_numbers_loops (conds : list condition) :
  wellNumbered (snd (processConditionsForLoops conds [])).
Proof.
  apply processConditionsForLoops_loops.
  - intros v loops Hloops k l Hk.
    destruct (Nat.lt_ge_cases k (length loops)) as [Hlt | Hge].
    + rewrite nth_error_app1 in Hk by exact Hlt. now apply Hloops.
    + rewrite nth_error_app2 in Hk by exact Hge.
      destruct (k - length loops) as [|d] eqn:Hd; cbn in Hk;
        [| now destruct d].
      injection Hk as <-. cbn [parm objectName completeObjectPath].
      replace k with (length loops) by lia. split; reflexivity.
  - intros k l Hk. now destruct k.
Qed.

Lemma includes_split (pat s : str) :
  JsString.includes pat s = true -> exists q rest, s = q ++ pat ++ rest.
Proof.
  induction s as [|c s IH]; cbn [JsString.includes].
  - rewrite orb_false_r. intros H. apply StringFacts.startsWith_app in H as [rest ->].
    now exists [], rest.
  - destruct (JsString.startsWith pat (c :: s)) eqn:E.
    + intros _. apply StringFacts.startsWith_app in E as [rest ->]. now exists [], rest.
    + cbn [orb]. intros H. destruct (IH H) as (q & rest & ->).
      now exists (c :: q), rest.
Qed.

Lemma includes_marker (name v : str) :
  JsString.includes (name ++ $"[]") v = true -> JsString.includes $"[]" v = true.
Proof.
  intros H. apply includes_split in H as (q & rest & ->).
  rewrite <- app_assoc, app_assoc. apply StringFacts.includes_at.
Qed.

Lemma rewrittenFrom_refl (c : condition) : rewrittenFrom c c.
Proof.
  repeat split. intros f. destruct (getField f c) as [v|]; [| reflexivity].
  now exists v.
Qed.

Lemma rewrittenFrom_trans (a b c : condition) :
  rewrittenFrom a b -> rewrittenFrom b c -> rewrittenFrom a c.
Proof.
  intros (Hop & Hval & Hab) (Hop' & Hval' & Hbc).
  split; [congruence |]. split; [congruence |].
  intros f. specialize (Hab f). specialize (Hbc f).
  destruct (getField f a) as [v|].
  - destruct Hab as (v' & Hb & Hsame). rewrite Hb in Hbc.
    destruct Hbc as (v'' & Hc & Hsame'). exists v''. split; [exact Hc |].
    intros Hquiet. specialize (Hsame Hquiet). subst v'. now apply Hsame'.
  - now rewrite Hab in Hbc.
Qed.

Lemma annotateField_rewrittenFrom (name : str) (loops : list loop) (f : field)
  (c : condition) :
  rewrittenFrom c (annotateField name loops f c).
Proof.
  unfold annotateField.
  destruct (getField f c) as [v|] eqn:Hv; [| apply rewrittenFrom_refl].
  destruct (truthyStr (Some v) && JsString.includes (name ++ $"[]") v) eqn:E;
    [| apply rewrittenFrom_refl].
  apply andb_prop in E as [_ E]. apply includes_marker in E.
  split; [now destruct f |]. split; [now destruct f |].
  intros g. destruct f, g; cbn [getField setField ref comparisonRef] in *.
  - rewrite Hv. eexists. split; [reflexivity | congruence].
  - destruct (comparisonRef c) as [w|]; [| reflexivity]. now exists w.
  - destruct (ref c) as [w|]; [| reflexivity]. now exists w.
  - rewrite Hv. eexists. split; [reflexivity | congruence].
Qed.

Lemma Forall2_trans_with {A : Type} (R : A -> A -> Prop) :
  (forall a b c, R a b -> R b c -> R a c) ->
  forall l1 l2 l3, Forall2 R l1 l2 -> Forall2 R l2 l3 -> Forall2 R l1 l3.
Proof.
  intros Htrans l1 l2 l3 H12. revert l3.
  induction H12 as [|a b l1 l2 Hab _ IH]; intros l3 H23; inversion H23; subst;
    constructor; eauto.
Qed.

Lemma annotateConditions_rewrittenFrom (name : str) (loops : list loop)
  (conds0 conds : list condition) :
  Forall2 rewrittenFrom conds0 conds ->
  Forall2 rewrittenFrom conds0 (annotateConditions name loops conds).
Proof.
  intros H. apply (Forall2_trans_with _ rewrittenFrom_trans _ conds); [exact H |].
  unfold annotateConditions. clear H.
  induction conds as [|c conds IH]; constructor; [| exact IH].
  eapply rewrittenFrom_trans; apply annotateField_rewrittenFrom.
Qed.

Lemma discoverInField_conds (conds0 : list condition) :
  forall fuel v conds loops,
    Forall2 rewrittenFrom conds0 conds ->
    Forall2 rewrittenFrom conds0 (fst (discoverInField fuel v conds loops)).
Proof.
  induction fuel as [|fuel IH]; intros v conds loops H; cbn [discoverInField];
    [exact H |].
  destruct (JsString.includes _ v); [| exact H].
  destruct (extractLoopDetails v) as [nm path].
  apply IH. now apply annotateConditions_rewrittenFrom.
Qed.

(** X12. Discovery rewrites paths and nothing else: it leaves the
    number and the order of the conditions, their operators and their
    comparison values, keeps an absent path absent, and never touches
    a path that holds no marker. *)
Theorem discovery_rewrites_only_paths (conds : list condition) (loops : list loop) :
  Forall2 rewrittenFrom conds (fst (processConditionsForLoops conds loops)).
Proof.
  unfold processConditionsForLoops.
  assert (Hfield : forall i f acc,
             Forall2 rewrittenFrom conds (fst acc) ->
             Forall2 rewrittenFrom conds (fst (processField i f acc))).
  { intros i f [cs ls] Hacc. unfold processField.
    destruct (nth_error cs i) as [c|]; [| exact Hacc].
    destruct (getField f c) as [v|]; [| exact Hacc].
    destruct (truthyStr (Some v)); [| exact Hacc].
    now apply discoverInField_conds. }
  assert (H : forall idxs acc,
             Forall2 rewrittenFrom conds (fst acc) ->
             Forall2 rewrittenFrom conds (fst (fold_left discoveryStep idxs acc))).
  { induction idxs as [|i idxs IH]; intros acc Hacc; [exact Hacc |].
    apply IH. unfold discoveryStep. now do 2 apply Hfield. }
  apply (H _ (conds, loops)). cbn [fst]. clear.
  induction conds as [|c cs IH]; constructor; [apply rewrittenFrom_refl | exact IH].
Qed.

End DiscoveryInvariants.

(** ** Paths without placeholders *)

Lemma replaceAllFrom_quiet (pat rep s : str) :
  JsString.includes pat s = false ->
  forall before, JsString.replaceAllFrom pat rep before 0 s = s.
Proof.
  induction s as [|c s IH]; intros Hno before; [reflexivity |].
  cbn [JsString.includes] in Hno. apply orb_false_iff in Hno as [Hhere Hlater].
  cbn [JsString.replaceAllFrom]. rewrite Hhere. f_equal. now apply IH.
Qed.

Lemma includes_prefix (a b v : str) :
  JsString.includes (a ++ b) v = true -> JsString.includes a v = true.
Proof.
  intros H. apply includes_split in H as (q & rest & ->).
  rewrite <- app_assoc. apply StringFacts.includes_at.
Qed.

Lemma token_quiet (k : nat) (rep v : str) :
  JsString.includes $"[@" v = false ->
  JsString.replaceAll (placeholderToken k) rep v = v.
Proof.
  intros Hno. unfold placeholderToken.
  change ($"[@" ++ JsString.ofNat k ++ $"]")
    with ("["%char :: "@"%char :: JsString.ofNat k ++ $"]").
  cbn [JsString.replaceAll]. apply replaceAllFrom_quiet.
  change ("["%char :: "@"%char :: JsString.ofNat k ++ $"]")
    with ($"[@" ++ (JsString.ofNat k ++ $"]")).
  destruct (JsString.includes ($"[@" ++ (JsString.ofNat k ++ $"]")) v) eqn:E;
    [| reflexivity].
  apply includes_prefix in E. congruence.
Qed.

(** X13. A condition whose paths hold no placeholder is the same in
    every context, whatever the loops. *)
Theorem replaceContextValues_plain (c : condition) (loops : list loop)
  (context : list nat) :
  (forall f v, getField f c = Some v -> JsString.includes $"[@" v = false) ->
  replaceContextValues c loops context = c.
Proof.
  intros Hplain. unfold replaceContextValues.
  assert (H : forall idxs,
             fold_left
               (fun (acc : option str * option str) loopIndex =>
                  let (adjustedRef, adjustedComparisonRef) := acc in
                  (option_map
                     (JsString.replaceAll (placeholderToken loopIndex)
                        (indexSegment context loopIndex))
                     adjustedRef,
                   if truthyStr adjustedComparisonRef
                   then option_map
                          (JsString.replaceAll (placeholderToken loopIndex)
                             (indexSegment context loopIndex))
                          adjustedComparisonRef
                   else adjustedComparisonRef))
               idxs (ref c, comparisonRef c)
             = (ref c, comparisonRef c)).
  { assert (Hstep : forall k,
              (option_map
                 (JsString.replaceAll (placeholderToken k) (indexSegment context k))
                 (ref c),
               if truthyStr (comparisonRef c)
               then option_map
                      (JsString.replaceAll (placeholderToken k)
                         (indexSegment context k))
                      (comparisonRef c)
               else comparisonRef c)
              = (ref c, comparisonRef c)).
    { intros k. f_equal.
      - destruct (ref c) as [v|] eqn:Hv; [| reflexivity].
        cbn [option_map]. now rewrite (token_quiet k _ v (Hplain Ref v Hv)).
      - destruct (comparisonRef c) as [v|] eqn:Hv; [| reflexivity].
        destruct (truthyStr (Some v)); [| reflexivity].
        cbn [option_map].
        now rewrite (token_quiet k _ v (Hplain ComparisonRef v Hv)). }
    induction idxs as [|k idxs IH]; [reflexivity |].
    cbn [fold_left]. rewrite Hstep. exact IH. }
  rewrite H. now destruct c.
Qed.

(** ** Tokens and positions *)

(** X14. When sorting leaves the discovered loops where discovery put
    them, the token replaced for a position of the loop list is the
    token of the loop at that position. *)
Theorem tokens_match_when_sorted {host : Host} (conds : list condition) :
  let loops := snd (processConditionsForLoops conds []) in
  sortLoopsByPath loops = loops ->
  forall k l,
    nth_error (sortLoopsByPath loops) k = Some l ->
    placeholderToken k = $"[" ++ templ (parm l) ++ $"]".
Proof.
  intros loops Hsame k l Hk. rewrite Hsame in Hk.
  assert (Hnum : wellNumbered loops).
  { unfold loops. apply processConditionsForLoops_loops.
    - intros v ls Hls j x Hj.
      destruct (Nat.lt_ge_cases j (length ls)) as [Hlt | Hge].
      + rewrite nth_error_app1 in Hj by exact Hlt. now apply Hls.
      + rewrite nth_error_app2 in Hj by exact Hge.
        destruct (j - length ls) as [|d] eqn:Hd; cbn in Hj; [| now destruct d].
        injection Hj as <-. cbn [parm objectName completeObjectPath].
        replace j with (length ls) by lia. split; reflexivity.
    - intros j x Hj. now destruct j. }
  destruct (Hnum k l Hk) as [-> _]. reflexivity.
Qed.

(** ** The loop of one field *)

(** X15. On a path without a dollar sign the [while] loop of a field
    ends within as many rounds as the path has characters: more
    rounds than that change nothing. *)
Theorem discovery_loop_ends (fuel : nat) (refValue : str)
  (conds : list condition) (loops : list loop) :
  ~ In "$"%char refValue ->
  length refValue < fuel ->
  discoverInField fuel refValue conds loops
  = discoverInField (S (length refValue)) refValue conds loops.
Proof.
  intros Hplain Hfuel. apply discoverInField_fuel; [exact Hplain | | exact Hfuel].
  apply FuelFacts.roundsLeft_bound.
Qed.

(** ** Sorting and the name check *)

Section Sorting.

Context {host : Host}.

Lemma insertLoop_perm (l : loop) (sorted : list loop) :
  Permutation (insertLoop l sorted) (l :: sorted).
Proof.
  induction sorted as [|x rest IH]; cbn [insertLoop]; [reflexivity |].
  destruct (localeCompare _ _ <? 0)%Z; [reflexivity |].
  rewrite IH. apply perm_swap.
Qed.

Lemma sort_perm (loops : list loop) :
  forall sorted,
    Permutation (fold_left (fun sorted l => insertLoop l sorted) loops sorted)
      (sorted ++ loops).
Proof.
  induction loops as [|l loops IH]; intros sorted; cbn [fold_left].
  - now rewrite app_nil_r.
  - rewrite IH, insertLoop_perm. apply Permutation_middle.
Qed.

Hypothesis compare_total :
  forall a b, (0 <= localeCompare a b)%Z -> (localeCompare b a <= 0)%Z.

Lemma insertLoop_hd (l : loop) (sorted : list loop) (x : loop) :
  HdRel pathLe x sorted -> pathLe x l -> HdRel pathLe x (insertLoop l sorted).
Proof.
  intros Hhd Hxl. destruct sorted as [|y rest]; cbn [insertLoop].
  - now constructor.
  - destruct (localeCompare _ _ <? 0)%Z; constructor; [exact Hxl |].
    now inversion Hhd.
Qed.

Lemma insertLoop_sorted (l : loop) (sorted : list loop) :
  Sorted pathLe sorted -> Sorted pathLe (insertLoop l sorted).
Proof.
  induction sorted as [|x rest IH]; intros Hs; cbn [insertLoop].
  - repeat constructor.
  - destruct (localeCompare (completeObjectPath l) (completeObjectPath x) <? 0)%Z
      eqn:E.
    + constructor; [exact Hs |]. constructor. unfold pathLe.
      apply Z.ltb_lt in E. lia.
    + apply Z.ltb_ge in E. inversion Hs as [|? ? Hrest Hhd]; subst.
      constructor; [now apply IH |].
      apply insertLoop_hd; [exact Hhd |]. now apply compare_total.
Qed.

Lemma sort_sorted (loops : list loop) :
  forall sorted,
    Sorted pathLe sorted ->
    Sorted pathLe (fold_left (fun sorted l => insertLoop l sorted) loops sorted).
Proof.
  induction loops as [|l loops IH]; intros sorted Hs; [exact Hs |].
  cbn [fold_left]. apply IH. now apply insertLoop_sorted.
Qed.

End Sorting.

(** X16. Sorting neither drops nor repeats a descriptor, and when the
    comparison of the host is a total preorder the result is in path
    order: every descriptor is at most any descriptor after it. *)
Theorem sortLoopsByPath_sorts {host : Host} (loops : list loop) :
  Permutation (sortLoopsByPath loops) loops
  /\ ((forall a b, (0 <= localeCompare a b)%Z -> (localeCompare b a <= 0)%Z) ->
      (forall a b c, (localeCompare a b <= 0)%Z -> (localeCompare b c <= 0)%Z ->
                     (localeCompare a c <= 0)%Z) ->
      StronglySorted pathLe (sortLoopsByPath loops)).
Proof.
  unfold sortLoopsByPath. split.
  - apply (sort_perm loops []).
  - intros Htotal Htrans. apply Sorted_StronglySorted.
    + intros x y z. unfold pathLe. apply Htrans.
    + apply sort_sorted; [exact Htotal | constructor].
Qed.

(** ** Names met twice *)

Lemma indexOfName_app (name : str) (l : list str) (x : str) :
  indexOfName name (l ++ [x])
  = match indexOfName name l with
    | Some i => Some i
    | None => if JsString.eqb x name then Some (length l) else None
    end.
Proof.
  induction l as [|y l IH]; cbn [app indexOfName length].
  - now destruct (JsString.eqb x name).
  - destruct (JsString.eqb y name); [reflexivity |].
    rewrite IH. destruct (indexOfName name l); [reflexivity |].
    now destruct (JsString.eqb x name).
Qed.

Lemma indexOfName_bound (name : str) (l : list str) (i : nat) :
  indexOfName name l = Some i -> i < length l.
Proof.
  revert i. induction l as [|y l IH]; intros i; cbn [indexOfName length];
    [discriminate |].
  destruct (JsString.eqb y name); [intros [= <-]; lia |].
  destruct (indexOfName name l) as [j|]; cbn; [| discriminate].
  intros [= <-]. specialize (IH j eq_refl). lia.
Qed.

Lemma indexOfName_In (name : str) (l : list str) :
  indexOfName name l <> None <-> In name l.
Proof.
  induction l as [|y l IH]; cbn [indexOfName In]; [tauto |].
  destruct (JsString.eqb y name) eqn:E.
  - apply StringFacts.eqb_eq in E. split; [now left | discriminate].
  - assert (y <> name) by (intros ->; now rewrite StringFacts.eqb_refl in E).
    destruct (indexOfName name l); cbn; split; intros H'; try discriminate;
      try tauto.
    right. apply IH. discriminate.
Qed.

Lemma combine_snoc {A B : Type} (a : list A) (c : list B) (x : A) (y : B) :
  length a = length c ->
  combine (a ++ [x]) (c ++ [y]) = combine a c ++ [(x, y)].
Proof.
  revert c. induction a as [|a0 a IH]; intros [|c0 c]; cbn; try discriminate;
    [reflexivity |].
  intros [= H]. now rewrite IH.
Qed.

(** The names reported after one more name is appended. *)
Lemma duplicateNames_snoc (l : list str) (x : str) :
  duplicateNames (l ++ [x])
  = duplicateNames l ++ (if in_dec (list_eq_dec ascii_dec) x l then [x] else []).
Proof.
  unfold duplicateNames.
  rewrite length_app, Nat.add_1_r, seq_S, Nat.add_0_l.
  rewrite combine_snoc by now rewrite length_seq.
  rewrite filter_app, map_app. f_equal.
  - f_equal. apply filter_ext_in. intros [i y] Hin. cbn [fst snd].
    rewrite indexOfName_app.
    destruct (indexOfName y l) as [j|] eqn:Hj; [reflexivity |].
    exfalso. apply in_combine_r in Hin.
    apply indexOfName_In in Hin. contradiction.
  - cbn [combine filter fst snd]. rewrite indexOfName_app, StringFacts.eqb_refl.
    destruct (in_dec (list_eq_dec ascii_dec) x l) as [Hin | Hnot].
    + apply indexOfName_In in Hin.
      destruct (indexOfName x l) as [j|] eqn:Hj; [| contradiction].
      apply indexOfName_bound in Hj.
      replace (j =? length l) with false by (symmetry; apply Nat.eqb_neq; lia).
      reflexivity.
    + destruct (indexOfName x l) as [j|] eqn:Hj.
      * exfalso. apply Hnot, indexOfName_In. congruence.
      * now rewrite Nat.eqb_refl.
Qed.

Lemma duplicateNames_nil_iff (names : list str) :
  duplicateNames names = [] <-> NoDup names.
Proof.
  induction names as [|x l IH] using rev_ind; [split; [constructor | reflexivity] |].
  rewrite duplicateNames_snoc. split.
  - intros H. apply app_eq_nil in H as [Hl Hx].
    destruct (in_dec (list_eq_dec ascii_dec) x l) as [Hin | Hnot]; [discriminate |].
    apply NoDup_app; [now apply IH | repeat constructor; intros [] |].
    intros y Hy [<- | []]. contradiction.
  - intros H. apply NoDup_app_remove_r in H as Hl.
    apply IH in Hl. rewrite Hl.
    destruct (in_dec (list_eq_dec ascii_dec) x l) as [Hin | Hnot]; [| reflexivity].
    exfalso. apply NoDup_remove_2 in H. rewrite app_nil_r in H. contradiction.
Qed.

(** X17. The name check never blocks a rule, and it warns exactly when
    two descriptors of the list share a name. *)
Theorem validateArrayReferences_warns (sortedLoops : list loop) :
  fst (validateArrayReferences sortedLoops) = true
  /\ (snd (validateArrayReferences sortedLoops) = []
      <-> NoDup (map objectName sortedLoops)).
Proof.
  split; [reflexivity |]. apply duplicateNames_nil_iff.
Qed.

(** ** The generated contexts *)

Section Contexts.

Context {host : Host}.
Variable documentJson : json.

Lemma inBounds_paths (a b : list loop) (t : list nat) :
  map completeObjectPath a = map completeObjectPath b ->
  inBounds documentJson a t -> inBounds documentJson b t.
Proof.
  unfold inBounds. intros Hab H. revert b Hab.
  induction H as [|i l t a Hi _ IH]; intros [|y b]; cbn; try discriminate.
  - constructor.
  - intros [= Hp Hab]. constructor; [now rewrite <- Hp | now apply IH].
Qed.

Lemma fullContexts_shape (loops : list loop) :
  forall tuple t,
    In t (fullContexts documentJson loops tuple) ->
    exists idx,
      t = tuple ++ idx
      /\ length idx = length loops
      /\ (Forall (fun x => bracketFree (completeObjectPath x)) loops ->
          inBounds documentJson loops idx).
Proof.
  remember (length loops) as n eqn:Hn. revert loops Hn.
  induction n as [n IH] using lt_wf_ind. intros [|l rest] Hn tuple t.
  - simp fullContexts. intros [<- | []]. exists [].
    rewrite app_nil_r. split; [reflexivity |]. split; [now rewrite Hn |].
    intros _. constructor.
  - simp fullContexts. rewrite in_flat_map. intros (i & Hi & Ht).
    apply in_seq in Hi.
    assert (Hlen : length (newLoops l i rest) < n)
      by (unfold newLoops; rewrite length_map; cbn in Hn; lia).
    destruct (IH _ Hlen _ eq_refl _ _ Ht) as (idx & -> & Hidx & Hb).
    exists (i :: idx). rewrite <- app_assoc. split; [reflexivity |].
    split; [cbn; rewrite Hidx; unfold newLoops; rewrite length_map; now rewrite Hn |].
    intros Hall. inversion Hall as [|? ? Hl Hrest]; subst.
    constructor; [lia |].
    pose proof (newLoops_paths l i rest Hrest) as Hp.
    apply inBounds_paths with (newLoops l i rest); [exact Hp |].
    apply Hb. apply bracketFree_paths with rest; [now symmetry | exact Hrest].
Qed.

Lemma fullContexts_NoDup (loops : list loop) :
  forall tuple, NoDup (fullContexts documentJson loops tuple).
Proof.
  remember (length loops) as n eqn:Hn. revert loops Hn.
  induction n as [n IH] using lt_wf_ind. intros [|l rest] Hn tuple.
  - simp fullContexts. repeat constructor. intros [].
  - simp fullContexts.
    generalize (loopLength (objectPath_get documentJson (Some (completeObjectPath l)))).
    intros len.
    enough (H : forall from,
               NoDup (flat_map
                        (fun i => fullContexts documentJson (newLoops l i rest)
                                    (tuple ++ [i]))
                        (seq from len)))
      by apply H.
    induction len as [|len IHlen]; intros from; cbn [seq flat_map]; [constructor |].
    apply NoDup_app.
    + apply (IH (length (newLoops l from rest))); [| reflexivity].
      unfold newLoops. rewrite length_map. cbn in Hn. lia.
    + apply IHlen.
    + intros t Ht Hin. apply in_flat_map in Hin as (j & Hj & Hin).
      apply in_seq in Hj.
      apply fullContexts_shape in Ht as (idx & -> & _).
      apply fullContexts_shape in Hin as (idx' & Heq & _).
      rewrite <- !app_assoc in Heq. apply app_inv_head in Heq.
      injection Heq as Heq _. lia.
Qed.

(** X18. Whatever the budget, the contexts returned are pairwise
    distinct and each holds one index per loop; for loops over
    independent arrays every index lies within its array. *)
Theorem explodeContexts_tuples (loops : list loop)
  (contextLimit startTime timeLimit : Z) (st : machine) :
  let tuples :=
    fst (explodeContexts documentJson loops [] contextLimit startTime timeLimit st) in
  NoDup tuples
  /\ forall t, In t tuples ->
       length t = length loops
       /\ (Forall (fun x => bracketFree (completeObjectPath x)) loops ->
           inBounds documentJson loops t).
Proof.
  intros tuples.
  destruct (explodeContexts_ok documentJson contextLimit startTime timeLimit
              loops [] st) as ([rest Hpre] & _).
  fold tuples in Hpre. split.
  - pose proof (fullContexts_NoDup loops []) as Hnd. rewrite Hpre in Hnd.
    now apply NoDup_app_remove_r in Hnd.
  - intros t Ht.
    assert (Hin : In t (fullContexts documentJson loops []))
      by (rewrite Hpre; apply in_or_app; now left).
    apply fullContexts_shape in Hin as (idx & -> & Hlen & Hb).
    cbn [app]. now split.
Qed.

Lemma cartesianSize_zero (loops : list loop) :
  Exists (fun l => loopLength
                     (objectPath_get documentJson (Some (completeObjectPath l))) = 0)
         loops ->
  cartesianSize documentJson loops = 0.
Proof.
  unfold cartesianSize. induction 1 as [l rest H | l rest _ IH]; cbn [map fold_right].
  - now rewrite H.
  - rewrite IH. lia.
Qed.

(** X19. Loops over independent arrays, one of them empty or absent:
    no context is generated, wherever that loop stands in the list
    and whatever the budget. *)
Theorem empty_array_no_context (loops : list loop)
  (contextLimit startTime timeLimit : Z) (st : machine) :
  Forall (fun x => bracketFree (completeObjectPath x)) loops ->
  Exists (fun l => loopLength
                     (objectPath_get documentJson (Some (completeObjectPath l))) = 0)
         loops ->
  fst (explodeContexts documentJson loops [] contextLimit startTime timeLimit st) = [].
Proof.
  intros Hfree Hempty.
  destruct (explodeContexts_ok documentJson contextLimit startTime timeLimit
              loops [] st) as ([rest Hpre] & _).
  pose proof (fullContexts_size documentJson loops [] Hfree) as Hsize.
  rewrite (cartesianSize_zero loops Hempty) in Hsize.
  apply length_zero_iff_nil in Hsize. rewrite Hsize in Hpre.
  symmetry in Hpre. now apply app_eq_nil in Hpre.
Qed.

End Contexts.

(** ** The budget flags *)

Section Flags.

Context {host : Host}.
Variable documentJson : json.
Variables contextLimit startTime timeLimit : Z.

Local Abbreviation oneFlag st :=
  (limitReached (counter st) && timeReached (counter st) = false).

Lemma budgetCheck_flags (st : machine) :
  tripped st = false ->
  match budgetCheck contextLimit startTime timeLimit st with
  | inl st' => oneFlag st'
  | inr st' => tripped st' = false
  end.
Proof.
  intros Htr. apply tripped_false in Htr as [Hl Ht]. unfold budgetCheck.
  destruct (_ >? contextLimit)%Z; cbn; [now rewrite Ht |].
  destruct (_ >? _)%Z; cbn; [now rewrite Hl |].
  apply tripped_false. now split.
Qed.

Lemma explodeContexts_flags (loops : list loop) :
  forall tuple st,
    tripped st = false ->
    oneFlag (snd (explodeContexts documentJson loops tuple contextLimit startTime
                    timeLimit st)).
Proof.
  remember (length loops) as n eqn:Hn. revert loops Hn.
  induction n as [n IH] using lt_wf_ind. intros [|l rest] Hn tuple st Htr.
  - rewrite explodeContexts_equation_1.
    pose proof (budgetCheck_flags st Htr) as H.
    destruct (budgetCheck contextLimit startTime timeLimit st) as [st' | st'];
      cbn [snd]; [exact H |].
    apply tripped_false in H as [-> _]. reflexivity.
  - rewrite explodeContexts_equation_2.
    apply forLoop_invariant with (P := fun (_ : nat) acc => oneFlag (snd acc)).
    + cbn [snd]. apply tripped_false in Htr as [-> _]. reflexivity.
    + intros i [acc cur] _ HP. cbn [snd] in HP.
      destruct (tripped cur) eqn:Hcur.
      * cbn [fst snd]. split; [intros _; exact HP | discriminate].
      * destruct rest as [|l2 rest'].
        -- pose proof (budgetCheck_flags cur Hcur) as H.
           destruct (budgetCheck contextLimit startTime timeLimit cur)
             as [st' | st']; cbn [fst snd].
           ++ split; [intros _; exact H | discriminate].
           ++ split; [discriminate | intros _].
              apply tripped_false in H as [-> _]. reflexivity.
        -- assert (Hlen : length (newLoops l i (l2 :: rest')) < n)
             by (unfold newLoops; rewrite length_map; simpl in *; lia).
           pose proof (IH _ Hlen _ eq_refl (tuple ++ [i]) cur Hcur) as Hin.
           destruct (explodeContexts documentJson (newLoops l i (l2 :: rest'))
                       (tuple ++ [i]) contextLimit startTime timeLimit cur)
             as [tuples st'].
           cbn [fst snd] in *. split; [discriminate | intros _; exact Hin].
    + intros acc HP. exact HP.
Qed.

Lemma evaluateRule_flags (contextObj : option json) (returnAllContexts : bool)
  (r r' : rule) (loops : list loop) :
  evaluateRule documentJson contextObj returnAllContexts r loops = inr r' ->
  contextLimitReached r' = contextLimitReached r
  /\ timeLimitReached r' = timeLimitReached r
  /\ id r' = id r /\ type r' = type r /\ description r' = description r.
Proof.
  unfold evaluateRule.
  destruct (contexts r) as [[|c cs]|];
    match goal with
    | |- context [bindT ?m _] => destruct m
    end; cbn; try discriminate; intros [= <-]; repeat split.
Qed.

(** X20. A [context_limit] entry names exactly one cause: the two
    budget flags of a rule are never set together, since generation
    stops at the first one. *)
Theorem limit_entry_has_one_cause (contextObj : option json)
  (returnAllContexts : bool) (r : rule) (clock : nat) (e : ruleResult) :
  In e (snd (fst (processRule documentJson contextObj contextLimit startTime
                    timeLimit returnAllContexts r clock))) ->
  r_keyword e = keywordContextLimit ->
  r_conditions e = None
  /\ (r_errors e
      = Some [mkErrorEntry $"Context limit reached"
                ($"The number of contexts exceeded the limit ("
                   ++ JsString.ofZ contextLimit ++ $").")]
      \/ r_errors e
         = Some [mkErrorEntry $"Time limit reached"
                   ($"The time limit of " ++ JsString.ofZ timeLimit
                      ++ $" seconds was exceeded during context generation.")]).
Proof.
  destruct (prepareRule documentJson contextLimit startTime timeLimit r clock)
    as [[r1 loops] st] eqn:Hprep.
  pose proof Hprep as Hflags. unfold prepareRule in Hflags.
  destruct (processConditionsForLoops _ _) as [conds found] in Hflags.
  pose proof (explodeContexts_flags (sortLoopsByPath found) []
                (mkMachine freshCounter clock) eq_refl) as Hone.
  destruct (explodeContexts documentJson (sortLoopsByPath found) [] contextLimit
              startTime timeLimit (mkMachine freshCounter clock)) as [tuples st0].
  injection Hflags as <- <- <-. cbn [snd] in Hone.
  destruct (evaluateRule documentJson contextObj returnAllContexts
              (setContexts tuples (counter st0)
                 (setConditions conds (setConditionResultContext [] r)))
              (sortLoopsByPath found)) as [msg | r2] eqn:Heval.
  - rewrite (processRule_raise _ _ _ _ _ _ _ _ _ _ _ _ Hprep Heval). cbn [fst snd].
    intros [<- | []]. discriminate.
  - rewrite (processRule_return _ _ _ _ _ _ _ _ _ _ _ _ Hprep Heval). cbn [fst snd].
    apply evaluateRule_flags in Heval as (Hl & Ht & _).
    cbn [setContexts contextLimitReached timeLimitReached] in Hl, Ht.
    intros Hin Hkey. apply in_app_or in Hin as [Hin | Hin].
    + exfalso. unfold addRuleToResults in Hin.
      destruct (conditionResultContext r2) as [[|ev evs]|];
        try (destruct Hin as [<- | []]; discriminate);
        destruct (conditionsResult r2) as [res|]; try contradiction;
        destruct (response res && negb (length (items res) =? 0));
        try contradiction; destruct Hin as [<- | []]; discriminate.
    + unfold limitEntry in Hin. rewrite Hl, Ht in Hin.
      destruct (limitReached (counter st0)), (timeReached (counter st0));
        try discriminate; cbn in Hin; try contradiction;
        destruct Hin as [<- | []]; cbn; split; auto.
Qed.

End Flags.

(** ** What the context limit leaves *)

Section Budget.

Context {host : Host}.
Variable documentJson : json.
Variables contextLimit startTime timeLimit : Z.
Hypothesis within : withinTime startTime timeLimit.

Lemma budgetCheck_within (c : Z) (r : nat) :
  budgetCheck contextLimit startTime timeLimit (mkMachine (mkCounter c false false) r)
  = if (c + 1 >? contextLimit)%Z
    then inl (mkMachine (mkCounter (c + 1) true false) r)
    else inr (mkMachine (mkCounter (c + 1) false false) (S r)).
Proof.
  unfold budgetCheck. cbn [counter count reads limitReached timeReached].
  destruct (c + 1 >? contextLimit)%Z; [reflexivity |].
  destruct (Z.gtb_spec (Date_now r - startTime) (1000 * timeLimit)) as [H | H];
    [| reflexivity].
  specialize (within r). lia.
Qed.

(** The run over the last loop, from a counter at [c] with no flag
    set: the indices the limit still allows. *)
Lemma lastLoop_run (l : loop) (tuple : list nat) (c : Z) (r : nat) :
  let len := loopLength (objectPath_get documentJson (Some (completeObjectPath l))) in
  let k := Nat.min len (Z.to_nat (contextLimit - c)) in
  explodeContexts documentJson [l] tuple contextLimit startTime timeLimit
    (mkMachine (mkCounter c false false) r)
  = (map (fun j => tuple ++ [j]) (seq 0 k),
     mkMachine
       (mkCounter (c + Z.of_nat k + (if k <? len then 1 else 0)) (k <? len) false)
       (r + k)).
Proof.
  intros len k. rewrite explodeContexts_equation_2. fold len.
  apply forLoop_invariant
    with (P := fun j acc =>
                 acc = (map (fun j => tuple ++ [j]) (seq 0 j),
                        mkMachine (mkCounter (c + Z.of_nat j) false false) (r + j))
                 /\ (0 < j -> (c + Z.of_nat j <= contextLimit)%Z)).
  - split; [| lia]. cbn [seq map]. now rewrite Z.add_0_r, Nat.add_0_r.
  - intros j acc Hj [-> Hle]. cbn [tripped counter limitReached timeReached orb].
    rewrite budgetCheck_within.
    destruct (Z.gtb_spec (c + Z.of_nat j + 1) contextLimit) as [Hgt | Hok];
      cbn [fst snd]; (split; [| intros; try discriminate]); try discriminate.
    + intros _.
      assert (Hk : k = j) by (unfold k; lia).
      rewrite Hk. replace (j <? len) with true by (symmetry; apply Nat.ltb_lt; lia).
      reflexivity.
    + split; [| lia]. rewrite seq_S, map_app. cbn [map Nat.add].
      replace (c + Z.of_nat (S j))%Z with (c + Z.of_nat j + 1)%Z by lia.
      now replace (r + S j) with (S (r + j)) by lia.
  - intros acc [-> Hle]. cbn [Nat.add] in *.
    assert (Hk : k = len) by (unfold k; lia).
    rewrite Hk, Nat.ltb_irrefl, Z.add_0_r. reflexivity.
Qed.

(** X21. One loop under a context limit, the clock within the time
    limit: the contexts are the first indices of the array, as many as
    the limit allows, and the limit flag is set exactly when an index
    is left over. *)
Theorem one_loop_under_limit (l : loop) (clock : nat) :
  let len := loopLength (objectPath_get documentJson (Some (completeObjectPath l))) in
  let run := explodeContexts documentJson [l] [] contextLimit startTime timeLimit
               (mkMachine freshCounter clock) in
  fst run = map (fun j => [j]) (seq 0 (Nat.min len (Z.to_nat contextLimit)))
  /\ limitReached (counter (snd run)) = (Z.to_nat contextLimit <? len)
  /\ timeReached (counter (snd run)) = false.
Proof.
  intros len run. unfold run, freshCounter. rewrite lastLoop_run. fold len.
  rewrite Z.sub_0_r. cbn [fst snd counter limitReached timeReached app].
  split; [reflexivity |]. split; [| reflexivity].
  destruct (Nat.ltb_spec (Z.to_nat contextLimit) len) as [H | H].
  - apply Nat.ltb_lt. lia.
  - apply Nat.ltb_ge. lia.
Qed.

Lemma rowMajor_empty (m : nat) : rowMajor m 0 = [].
Proof.
  unfold rowMajor. induction (seq 0 m) as [|i rest IH]; [reflexivity | exact IH].
Qed.

Lemma rowMajor_snoc (i n : nat) :
  rowMajor (S i) n = rowMajor i n ++ map (fun j => [i; j]) (seq 0 n).
Proof. unfold rowMajor. apply rows_snoc. Qed.

(** X22. Two loops under a context limit, the clock within the time
    limit: only complete rows are kept.  The row the limit interrupts
    is dropped as a whole, so fewer contexts than the limit allows may
    come back. *)
Theorem two_loops_under_limit (l1 l2 : loop) (m n : nat) (clock : nat) :
  (0 <= contextLimit)%Z ->
  arrayLength documentJson (completeObjectPath l1) m ->
  (forall i, i < m ->
     arrayLength documentJson
       (JsString.replace
          (completeObjectPath l1 ++ $"[" ++ templ (parm l1) ++ $"]")
          (completeObjectPath l1 ++ $"." ++ JsString.ofNat i)
          (completeObjectPath l2))
       n) ->
  fst (explodeContexts documentJson [l1; l2] [] contextLimit startTime timeLimit
         (mkMachine freshCounter clock))
  = rowMajor (Nat.min m (Z.to_nat (contextLimit / Z.of_nat n))) n.
Proof.
  intros Hpos (xs & Hxs & Hm) Hinner.
  rewrite explodeContexts_equation_2. rewrite Hxs. cbn [loopLength]. rewrite Hm.
  set (rows := Nat.min m (Z.to_nat (contextLimit / Z.of_nat n))).
  apply forLoop_invariant
    with (Q := fun acc : list (list nat) * machine => fst acc = rowMajor rows n)
         (P := fun i acc =>
                 (acc = (rowMajor i n,
                         mkMachine (mkCounter (Z.of_nat (i * n)) false false)
                           (i * n + clock))
                  /\ (Z.of_nat (i * n) <= contextLimit)%Z)
                 \/ (fst acc = rowMajor rows n /\ tripped (snd acc) = true)).
  - left. split; [reflexivity | exact Hpos].
  - intros i [acc cur] Hi [[Hacc Hle] | [Hacc Htr]].
    + injection Hacc as -> ->.
      cbn [tripped counter limitReached timeReached orb app].
      unfold newLoops. cbn [map]. rewrite lastLoop_run.
      cbn [completeObjectPath].
      destruct (Hinner i ltac:(lia)) as (ys & -> & Hn). cbn [loopLength]. rewrite Hn.
      set (k := Nat.min n (Z.to_nat (contextLimit - Z.of_nat (i * n)))).
      unfold tripped. cbn [counter limitReached timeReached fst snd].
      rewrite orb_false_r.
      split; [discriminate | intros _].
      destruct (Nat.ltb_spec k n) as [Hk | Hk].
      * right. split; [| reflexivity]. cbn [fst]. f_equal. unfold rows.
        assert (Hdiv : (Z.of_nat i = contextLimit / Z.of_nat n)%Z).
        { apply Z.div_unique with (r := (contextLimit - Z.of_nat n * Z.of_nat i)%Z);
            nia. }
        lia.
      * left. assert (Hkn : k = n) by (unfold k; lia). rewrite Hkn.
        split; [| unfold k in Hkn; nia].
        rewrite rowMajor_snoc. f_equal.
        f_equal; [f_equal; nia | nia].
    + cbn [fst snd] in *. rewrite Htr. cbn [fst snd].
      split; [intros _; exact Hacc | discriminate].
  - intros acc [[-> Hle] | [Hacc _]]; [| exact Hacc]. cbn [fst Nat.add].
    destruct n as [|n']; [now rewrite !rowMajor_empty |].
    f_equal. unfold rows.
    assert (Hdiv : (Z.of_nat m <= contextLimit / Z.of_nat (S n'))%Z)
      by (apply Z.div_le_lower_bound; nia).
    lia.
Qed.

End Budget.

(** ** The rules in force *)

Section InForce.

Context {host : Host}.

Local Abbreviation dateStep :=
  (fun (acc : list nat * nat) (p : nat * rule) =>
     let (kept, reads) := acc in
     let (index, r) := p in
     let (isAfterStartDate, reads) := dateHolds (initialDate r) Z.leb reads in
     let (isBeforeEndDate, reads) := dateHolds (endDate r) Z.geb reads in
     (if isAfterStartDate && isBeforeEndDate then kept ++ [index] else kept, reads)).

Lemma dateHolds_allows (d : option str) (holds : Z -> Z -> bool) (reads : nat) :
  fst (dateHolds d holds reads) = dateAllows d holds (Date_now reads).
Proof. destruct d as [[|c s]|]; reflexivity. Qed.

Lemma dateHolds_fst (d : option str) (holds : Z -> Z -> bool) (reads : nat) :
  dateHolds d holds reads
  = (dateAllows d holds (Date_now reads), snd (dateHolds d holds reads)).
Proof. destruct d as [[|c s]|]; reflexivity. Qed.

(** The fold of [filterRulesByDate] under a clock that stands at [now]. *)
Lemma dateFold_constant (now : Z) :
  (forall n, Date_now n = now) ->
  forall l start kept clock,
    fst (fold_left dateStep (combine (seq start (length l)) l) (kept, clock))
    = kept ++ map fst (filter (fun p => inForce now (snd p))
                         (combine (seq start (length l)) l)).
Proof.
  intros Hnow. induction l as [|r l IH]; intros start kept clock.
  - cbn. now rewrite app_nil_r.
  - cbn [length seq combine fold_left filter snd].
    rewrite (dateHolds_fst (initialDate r)).
    rewrite (dateHolds_fst (endDate r)).
    rewrite !Hnow. rewrite IH. fold (inForce now r).
    destruct (inForce now r); [| reflexivity].
    cbn [map fst]. now rewrite <- app_assoc.
Qed.

Lemma pick_filtered (f : rule -> bool) (b : list rule) :
  forall a,
    pick (a ++ b)
      (map fst (filter (fun p : nat * rule => f (snd p))
                  (combine (seq (length a) (length b)) b)))
    = filter f b.
Proof.
  induction b as [|x b IH]; intros a; [reflexivity |].
  cbn [length seq combine filter snd].
  specialize (IH (a ++ [x])). rewrite <- app_assoc, length_app in IH.
  cbn [app length] in IH. rewrite Nat.add_1_r in IH.
  destruct (f x); [| exact IH].
  cbn [map fst pick flat_map]. fold (pick (a ++ x :: b)).
  rewrite nth_error_app2, Nat.sub_diag by lia. cbn [nth_error app].
  f_equal. exact IH.
Qed.

(** X23. Under a clock that stands still, the rules evaluated are
    exactly the rules in force, in the order of the rules array: a
    rule is left out when a date it carries does not parse, when its
    initial date lies ahead or when its end date is past. *)
Theorem filterRulesByDate_in_force (now : Z) (rules : list rule) (reads : nat) :
  (forall n, Date_now n = now) ->
  pick rules (fst (filterRulesByDate rules reads)) = filter (inForce now) rules.
Proof.
  intros Hnow. unfold filterRulesByDate.
  rewrite (dateFold_constant now Hnow). cbn [app].
  apply (pick_filtered (inForce now) rules []).
Qed.

(** The indices kept, one rule at a time, for any clock. *)
Lemma dateFold_sound (l : list rule) :
  forall start kept clock i,
    In i (fst (fold_left dateStep (combine (seq start (length l)) l) (kept, clock))) ->
    In i kept
    \/ exists r t1 t2,
         start <= i /\ nth_error l (i - start) = Some r
         /\ dateAllows (initialDate r) Z.leb (Date_now t1) = true
         /\ dateAllows (endDate r) Z.geb (Date_now t2) = true.
Proof.
  induction l as [|r l IH]; intros start kept clock i; [now left |].
  cbn [length seq combine fold_left].
  rewrite (dateHolds_fst (initialDate r)).
  rewrite (dateHolds_fst (endDate r)).
  intros Hin. apply IH in Hin as [Hin | (r' & t1 & t2 & Hle & Hnth & H1 & H2)].
  - destruct (dateAllows (initialDate r) Z.leb _) eqn:E1;
      [destruct (dateAllows (endDate r) Z.geb _) eqn:E2 |]; cbn [andb] in Hin;
      try (now left).
    apply in_app_or in Hin as [Hin | [<- | []]]; [now left |].
    right. exists r. do 2 eexists. rewrite Nat.sub_diag.
    repeat split; [lia | exact E1 | exact E2].
  - right. exists r', t1, t2.
    replace (i - start) with (S (i - S start)) by lia.
    repeat split; [lia | exact Hnth | exact H1 | exact H2].
Qed.

Lemma dateFold_kept (l : list (nat * rule)) :
  forall kept clock i,
    In i kept -> In i (fst (fold_left dateStep l (kept, clock))).
Proof.
  induction l as [|[j r] l IH]; intros kept clock i Hin; [exact Hin |].
  cbn [fold_left].
  destruct (dateHolds (initialDate r) Z.leb clock) as [b1 c1].
  destruct (dateHolds (endDate r) Z.geb c1) as [b2 c2].
  apply IH. destruct (b1 && b2); [apply in_or_app; now left | exact Hin].
Qed.

Lemma dateFold_complete (l : list rule) :
  forall start kept clock i r,
    start <= i -> nth_error l (i - start) = Some r ->
    (forall now, inForce now r = true) ->
    In i (fst (fold_left dateStep (combine (seq start (length l)) l) (kept, clock))).
Proof.
  induction l as [|x l IH]; intros start kept clock i r Hle Hnth Hall.
  - now destruct (i - start).
  - cbn [length seq combine fold_left].
    rewrite (dateHolds_fst (initialDate x)).
    rewrite (dateHolds_fst (endDate x)).
    destruct (Nat.eq_dec i start) as [-> | Hne].
    + rewrite Nat.sub_diag in Hnth. injection Hnth as ->.
      assert (H1 : forall now, dateAllows (initialDate r) Z.leb now = true)
        by (intros now; specialize (Hall now); unfold inForce in Hall;
            now apply andb_prop in Hall).
      assert (H2 : forall now, dateAllows (endDate r) Z.geb now = true)
        by (intros now; specialize (Hall now); unfold inForce in Hall;
            now apply andb_prop in Hall).
      rewrite H1, H2. cbn [andb]. apply dateFold_kept.
      apply in_or_app. right. now left.
    + apply IH with r; [lia | | exact Hall].
      now replace (i - start) with (S (i - S start)) in Hnth by lia.
Qed.

(** X24. Whatever the clock shows: a rule is evaluated only if each
    date it carries parses and holds at some reading of the clock, and
    a rule whose dates hold at every instant, a rule without dates
    among them, is always evaluated. *)
Theorem filterRulesByDate_members (rules : list rule) (reads i : nat) :
  (In i (fst (filterRulesByDate rules reads)) ->
   exists r t1 t2,
     nth_error rules i = Some r
     /\ dateAllows (initialDate r) Z.leb (Date_now t1) = true
     /\ dateAllows (endDate r) Z.geb (Date_now t2) = true)
  /\ (forall r,
        nth_error rules i = Some r ->
        (forall now, inForce now r = true) ->
        In i (fst (filterRulesByDate rules reads))).
Proof.
  unfold filterRulesByDate. split.
  - intros Hin.
    apply dateFold_sound in Hin as [[] | (r & t1 & t2 & _ & Hnth & H1 & H2)].
    rewrite Nat.sub_0_r in Hnth. now exists r, t1, t2.
  - intros r Hnth Hall. apply dateFold_complete with r; [lia | | exact Hall].
    now rewrite Nat.sub_0_r.
Qed.

End InForce.

(** ** The entries of a batch *)

Section Entries.

Context {host : Host}.
Variable documentJson : json.
Variable contextObj : option json.

Lemma prepareRule_meta (contextLimit startTime timeLimit : Z) (r r1 : rule)
  (clock : nat) (loops : list loop) (st : machine) :
  prepareRule documentJson contextLimit startTime timeLimit r clock = (r1, loops, st) ->
  id r1 = id r /\ type r1 = type r /\ description r1 = description r.
Proof.
  unfold prepareRule.
  destruct (processConditionsForLoops _ _) as [conds found].
  destruct (explodeContexts _ _ _ _ _ _ _) as [tuples st0].
  intros [= <- _ _]. repeat split.
Qed.

Lemma evaluateRule_meta (returnAllContexts : bool) (r r' : rule) (loops : list loop) :
  evaluateRule documentJson contextObj returnAllContexts r loops = inr r' ->
  id r' = id r /\ type r' = type r /\ description r' = description r.
Proof.
  unfold evaluateRule.
  destruct (contexts r) as [[|c cs]|];
    match goal with
    | |- context [bindT ?m _] => destruct m
    end; cbn; try discriminate; intros [= <-]; repeat split.
Qed.

Lemma addRuleToResults_entries (r : rule) :
  length (addRuleToResults r) <= 1
  /\ Forall (entryOf r) (addRuleToResults r).
Proof.
  unfold addRuleToResults.
  destruct (conditionResultContext r) as [[|ev evs]|];
    try (split; [cbn; lia | repeat constructor]);
    destruct (conditionsResult r) as [res|];
    try (split; [cbn; lia | constructor]);
    destruct (response res && negb (length (items res) =? 0));
    split; cbn; try lia; repeat constructor.
Qed.

Lemma limitEntry_entries (contextLimit timeLimit : Z) (r : rule) :
  length (limitEntry r contextLimit timeLimit) <= 1
  /\ Forall (entryOf r) (limitEntry r contextLimit timeLimit).
Proof.
  unfold limitEntry.
  destruct (_ || _); split; cbn; try lia; repeat constructor.
Qed.

Lemma entryOf_same (r r' : rule) (e : ruleResult) :
  id r' = id r -> type r' = type r -> description r' = description r ->
  entryOf r' e -> entryOf r e.
Proof. unfold entryOf. intros -> -> ->. tauto. Qed.

Lemma processRule_entries (contextLimit startTime timeLimit : Z)
  (returnAllContexts : bool) (r : rule) (clock : nat) :
  let entries :=
    snd (fst (processRule documentJson contextObj contextLimit startTime timeLimit
                returnAllContexts r clock)) in
  length entries <= 2 /\ Forall (entryOf r) entries.
Proof.
  destruct (prepareRule documentJson contextLimit startTime timeLimit r clock)
    as [[r1 loops] st] eqn:Hprep.
  destruct (prepareRule_meta _ _ _ _ _ _ _ _ Hprep) as (Hid & Hty & Hde).
  destruct (evaluateRule documentJson contextObj returnAllContexts r1 loops)
    as [msg | r2] eqn:Heval; cbv zeta.
  - rewrite (processRule_raise _ _ _ _ _ _ _ _ _ _ _ _ Hprep Heval). cbn [fst snd].
    split; [cbn; lia |]. constructor; [| constructor].
    apply entryOf_same with r1; try assumption. repeat split.
  - rewrite (processRule_return _ _ _ _ _ _ _ _ _ _ _ _ Hprep Heval). cbn [fst snd].
    destruct (evaluateRule_meta _ _ _ _ Heval) as (Hid' & Hty' & Hde').
    destruct (addRuleToResults_entries r2) as [Hn1 Hall1].
    destruct (limitEntry_entries contextLimit timeLimit r2) as [Hn2 Hall2].
    rewrite length_app. split; [lia |].
    apply Forall_app. split; eapply Forall_impl; try eassumption;
      intros e He; apply entryOf_same with r2; congruence.
Qed.

Lemma batchEntries_entries (o : options) (startTime : Z) (rules : list rule) :
  forall clock,
    let entries := batchEntries documentJson contextObj o startTime rules clock in
    length entries <= 2 * length rules
    /\ Forall (fun e => exists r, In r rules /\ entryOf r e) entries.
Proof.
  induction rules as [|r rules IH]; intros clock; cbv zeta.
  - split; [cbn; lia | constructor].
  - cbn [batchEntries].
    pose proof (processRule_entries (contextLimitOf o) startTime (timeLimitOf o)
                  (returnAllContextsOf o) r clock) as [Hn Hall].
    destruct (processRule documentJson contextObj (contextLimitOf o) startTime
                (timeLimitOf o) (returnAllContextsOf o) r clock)
      as [[r' entries] clock'].
    cbn [fst snd] in Hn, Hall. destruct (IH clock') as [Hn' Hall'].
    rewrite length_app. split; [cbn [length]; lia |].
    apply Forall_app. split.
    + eapply Forall_impl; [| exact Hall]. intros e He. exists r. split; [now left | exact He].
    + eapply Forall_impl; [| exact Hall']. intros e (r0 & Hin & He).
      exists r0. split; [now right | exact He].
Qed.

Lemma pick_sub (rules : list rule) (valid : list nat) :
  length (pick rules valid) <= length valid
  /\ forall r, In r (pick rules valid) -> In r rules.
Proof.
  induction valid as [|i valid [IHn IHin]]; [split; [cbn; lia | intros r []] |].
  cbn [pick flat_map]. fold (pick rules valid).
  destruct (nth_error rules i) as [x|] eqn:Hx; cbn [app length].
  - split; [lia |]. intros r [<- | Hin]; [now apply nth_error_In with i | now apply IHin].
  - split; [lia | exact IHin].
Qed.

End Entries.

(** X25. What a call returns: at most two entries per rule of the
    array, and every entry carries the [id], the [type] and the
    [description] of one of the caller's rules. *)
Theorem validateRules_entries {host : Host} (h : heap) (documentJson rules : nat)
  (contextObj : option nat) (o : options) :
  let results := fst (validateRules h documentJson rules contextObj o) in
  length results <= 2 * length (readRules h rules)
  /\ Forall (fun e => exists r, In r (readRules h rules) /\ entryOf r e) results.
Proof.
  cbv zeta.
  destruct (validateRules_spec h documentJson rules contextObj o) as [-> _].
  unfold batchResults. set (R := readRules h rules).
  pose proof (filterRulesByDate_indices R 0) as Hnd.
  assert (Hbound : forall i, In i (fst (filterRulesByDate R 0)) -> i < length R).
  { intros i Hin. unfold filterRulesByDate in Hin.
    apply dateFold_sound in Hin as [[] | (r & _ & _ & _ & Hnth & _)].
    rewrite Nat.sub_0_r in Hnth. apply nth_error_Some. congruence. }
  destruct (filterRulesByDate R 0) as [valid clock]. cbn [fst] in Hnd, Hbound.
  destruct (batchEntries_entries (readJson h documentJson)
              (option_map (readJson h) contextObj) o (Date_now clock)
              (pick R valid) (S clock)) as [Hn Hall].
  destruct (pick_sub R valid) as [Hlen Hsub].
  assert (Hvalid : length valid <= length R).
  { replace (length R) with (length (seq 0 (length R))) by apply length_seq.
    apply NoDup_incl_length; [exact Hnd |].
    intros i Hi. apply in_seq. specialize (Hbound i Hi). lia. }
  split; [lia |].
  eapply Forall_impl; [| exact Hall]. intros e (r & Hin & He).
  exists r. split; [now apply Hsub | exact He].
Qed.

(** ** Rules from end to end *)

Section EndToEnd.

Context {host : Host}.
Variable documentJson : json.
Variable contextObj : option json.
Variables contextLimit startTime timeLimit : Z.

Lemma processConditionsForLoops_quiet (conds : list condition) (loops : list loop) :
  Forall quiet conds -> processConditionsForLoops conds loops = (conds, loops).
Proof.
  intros Hq. unfold processConditionsForLoops.
  induction (seq 0 (length conds)) as [|i idxs IH]; [reflexivity |].
  cbn [fold_left]. now rewrite !processField_quiet.
Qed.

Lemma firstLeaf (clock : nat) :
  (1 <= contextLimit)%Z ->
  (Date_now clock - startTime <= 1000 * timeLimit)%Z ->
  explodeContexts documentJson [] [] contextLimit startTime timeLimit
    (mkMachine freshCounter clock)
  = ([[]], mkMachine (mkCounter 1 false false) (S clock)).
Proof.
  intros Hlimit Htime. rewrite explodeContexts_equation_1.
  unfold budgetCheck, freshCounter.
  cbn [counter count reads limitReached timeReached Z.add].
  destruct (Z.gtb_spec 1 contextLimit) as [H | _]; [lia |].
  destruct (Z.gtb_spec (Date_now clock - startTime) (1000 * timeLimit)) as [H | _];
    [lia | reflexivity].
Qed.

(** X26. A rule none of whose paths holds a marker, within the budget,
    is evaluated once, in the empty context, on its conditions as
    they are: one entry with that one record when the conjunction
    passes, no entry when it fails, the error entry when a condition
    raises. *)
Theorem plain_rule_entries (returnAllContexts : bool) (r : rule) (clock : nat) :
  Forall quiet (conditions r) ->
  conditionsResult r = None ->
  (1 <= contextLimit)%Z ->
  (Date_now clock - startTime <= 1000 * timeLimit)%Z ->
  snd (fst (processRule documentJson contextObj contextLimit startTime timeLimit
              returnAllContexts r clock))
  = match evaluateInContext documentJson (id r) (conditions r) [] contextObj [] with
    | inr ev =>
        if result ev
        then [mkRuleResult (id r) (type r) (description r)
                (Some (PerContext [ev])) keywordConditional None]
        else []
    | inl msg => [errorResult r msg]
    end.
Proof.
  intros Hq Hfresh Hlimit Htime.
  unfold processRule, prepareRule.
  cbn [conditions setConditionResultContext].
  rewrite (processConditionsForLoops_quiet _ _ Hq).
  change (sortLoopsByPath []) with (@nil loop).
  rewrite (firstLeaf clock Hlimit Htime).
  cbn [validateArrayReferences fst negb].
  unfold evaluateRule, evaluateConditionsInContexts.
  cbn [setContexts setConditions setConditionResultContext contexts id conditions
       evaluateContextsFrom].
  destruct (evaluateInContext documentJson (id r) (conditions r) [] contextObj [])
    as [msg | ev]; cbn [bindT fst snd]; [reflexivity |].
  destruct (result ev) eqn:Hres; cbn [app].
  - destruct (negb returnAllContexts); cbn [fst snd]; reflexivity.
  - cbn [fst snd]. unfold addRuleToResults, limitEntry. cbn. now rewrite Hfresh.
Qed.

(** X27. A rule with no condition at all, within the budget, is
    reported as satisfied, with one record that holds no value. *)
Theorem empty_rule_is_satisfied (returnAllContexts : bool) (r : rule) (clock : nat) :
  conditions r = [] ->
  (1 <= contextLimit)%Z ->
  (Date_now clock - startTime <= 1000 * timeLimit)%Z ->
  snd (fst (processRule documentJson contextObj contextLimit startTime timeLimit
              returnAllContexts r clock))
  = [mkRuleResult (id r) (type r) (description r)
       (Some (PerContext [mkEvaluation true []])) keywordConditional None].
Proof.
  intros Hnone Hlimit Htime.
  unfold processRule, prepareRule.
  cbn [conditions setConditionResultContext]. rewrite Hnone.
  change (processConditionsForLoops [] []) with (@nil condition, @nil loop).
  cbv beta iota.
  change (sortLoopsByPath []) with (@nil loop).
  rewrite (firstLeaf clock Hlimit Htime).
  cbn [validateArrayReferences fst negb].
  unfold evaluateRule, evaluateConditionsInContexts.
  cbn [setContexts setConditions setConditionResultContext contexts id conditions
       evaluateContextsFrom evaluateInContext map fold_left bindT result].
  now destruct returnAllContexts.
Qed.

Lemma ofNat_chars (n : nat) :
  forall c, In c (JsString.ofNat n) -> c <> "["%char /\ c <> "$"%char.
Proof.
  unfold JsString.ofNat, NilZero.string_of_uint. intros c.
  destruct (Nat.to_uint n); try apply FuelFacts.uint_chars.
  cbn. intros [<- | []]. split; discriminate.
Qed.

(** The annotated path of one array, instantiated at an index. *)
Lemma bound_instantiated (p s : str) (i : nat) :
  ~ In "["%char p ->
  ~ In "["%char s ->
  JsString.replaceAll (placeholderToken 0) (indexSegment [i] 0) (bound p s)
  = p ++ $"." ++ JsString.ofNat i ++ s.
Proof.
  intros Hp Hs.
  change (placeholderToken 0) with ([] ++ "["%char :: $"@0]").
  change (indexSegment [i] 0) with ($"." ++ JsString.ofNat i).
  change (bound p s) with (p ++ [] ++ "["%char :: $"@0]" ++ s).
  rewrite StringFacts.replaceAll_at; [now rewrite <- app_assoc | | |exact Hs].
  - intros [Hin | Hin]; [discriminate |]. now apply ofNat_chars in Hin.
  - now rewrite app_nil_r.
Qed.

Section ArrayRule.

Variable p : str.
Hypothesis p_plain : ~ In "["%char p.
Hypothesis p_dollar : ~ In "$"%char p.

Local Abbreviation plainSpecs :=
  (Forall (fun spec : str * str * option json => ~ In "["%char (fst (fst spec)))).

Lemma elementCondition_refers (specs : list (str * str * option json)) :
  plainSpecs specs -> Forall (refersOnlyTo p) (map (elementCondition p) specs).
Proof.
  induction 1 as [|[[s op] cv] rest Hs _ IH]; [constructor |].
  constructor; [| exact IH].
  split; [left; exists s; now split | right; now left].
Qed.

Lemma elementCondition_annotated (specs : list (str * str * option json)) :
  plainSpecs specs ->
  annotateConditions (lastSegment p) [singleLoop p] (map (elementCondition p) specs)
  = map (fun spec => let '(s, op, cv) := spec in
                     mkCondition (Some (bound p s)) op cv None)
        specs.
Proof.
  unfold annotateConditions. rewrite map_map.
  induction 1 as [|[[s op] cv] rest Hs _ IH]; [reflexivity |].
  cbn [map]. rewrite IH. f_equal. cbn [elementCondition].
  rewrite (annotateField_array p p_plain p_dollar Ref _ s) by (reflexivity || exact Hs).
  apply (annotateField_plain p). now left.
Qed.

Lemma elementCondition_instantiated (specs : list (str * str * option json))
  (i : nat) :
  plainSpecs specs ->
  map (fun c => replaceContextValues c [singleLoop p] [i])
    (map (fun spec => let '(s, op, cv) := spec in
                      mkCondition (Some (bound p s)) op cv None)
         specs)
  = map (atElement p i) specs.
Proof.
  rewrite map_map.
  induction 1 as [|[[s op] cv] rest Hs _ IH]; [reflexivity |].
  cbn [map]. rewrite IH. f_equal.
  unfold replaceContextValues.
  cbn [length seq fold_left ref comparisonRef option_map truthyStr fst snd
       operator comparisonValue atElement].
  now rewrite bound_instantiated.
Qed.

End ArrayRule.

(** X28. A rule over one array, each condition comparing a field of
    the element with a constant, within the budget: the element at
    each index is tested by the conditions written for that index,
    the records of the elements that pass are reported in index
    order (the first of them alone when one context is enough), and
    the rule is left out when no element passes. *)
Theorem array_rule_entries (returnAllContexts : bool) (r : rule) (clock : nat)
  (p : str) (specs : list (str * str * option json)) (len : nat)
  (outcome : nat -> evaluation) :
  ~ In "["%char p ->
  ~ In "$"%char p ->
  specs <> [] ->
  Forall (fun spec => ~ In "["%char (fst (fst spec))) specs ->
  conditions r = map (elementCondition p) specs ->
  conditionsResult r = None ->
  arrayLength documentJson p len ->
  0 < len ->
  (Z.of_nat len <= contextLimit)%Z ->
  withinTime startTime timeLimit ->
  (forall i, i < len ->
     evaluateInContext documentJson (id r) (map (atElement p i) specs) []
       contextObj []
     = inr (outcome i)) ->
  snd (fst (processRule documentJson contextObj contextLimit startTime timeLimit
              returnAllContexts r clock))
  = let passing := filter result (map outcome (seq 0 len)) in
    let records := if returnAllContexts then passing else firstn 1 passing in
    match records with
    | [] => []
    | _ :: _ => [mkRuleResult (id r) (type r) (description r)
                   (Some (PerContext records)) keywordConditional None]
    end.
Proof.
  intros Hp Hdollar Hsome Hplain Hconds Hfresh Hlen Hpos Hlimit Hwithin Hall.
  destruct (prepareRule documentJson contextLimit startTime timeLimit r clock)
    as [[r1 loops] st] eqn:Hprep.
  pose proof Hprep as Hrun. unfold prepareRule in Hrun.
  cbn [conditions setConditionResultContext] in Hrun. rewrite Hconds in Hrun.
  rewrite (processConditionsForLoops_single p Hp Hdollar) in Hrun;
    [| now apply elementCondition_refers
     | destruct specs as [|[[s op] cv] rest]; [contradiction |];
       inversion Hplain; subst; apply Exists_cons_hd; left; exists s; now split].
  rewrite (elementCondition_annotated p Hp Hdollar specs Hplain) in Hrun.
  change (sortLoopsByPath [singleLoop p]) with [singleLoop p] in Hrun.
  unfold freshCounter in Hrun.
  rewrite (lastLoop_run documentJson contextLimit startTime timeLimit Hwithin) in Hrun.
  cbn [singleLoop completeObjectPath] in Hrun.
  destruct Hlen as (xs & Hxs & Hxslen). rewrite Hxs in Hrun. cbn [loopLength] in Hrun.
  rewrite Hxslen, Z.sub_0_r in Hrun.
  replace (Nat.min len (Z.to_nat contextLimit)) with len in Hrun by lia.
  rewrite Nat.ltb_irrefl in Hrun. cbn [app] in Hrun.
  injection Hrun as Hr1 Hloops Hst.
  set (annotated := map (fun spec : str * str * option json =>
                           let '(s, op, cv) := spec in
                           mkCondition (Some (bound p s)) op cv None) specs) in *.
  set (tuples := map (fun j => [j]) (seq 0 len)) in *.
  assert (Hid : id r1 = id r) by now rewrite <- Hr1.
  assert (Hcs : conditions r1 = annotated) by now rewrite <- Hr1.
  assert (Hctx : contexts r1 = Some tuples) by now rewrite <- Hr1.
  assert (Hevery : forall c, In c tuples ->
            evaluateInContext documentJson (id r1) (conditions r1) loops contextObj c
            = inr (outcome (hd 0 c))).
  { intros c Hc. unfold tuples in Hc. apply in_map_iff in Hc as (i & <- & Hi).
    apply in_seq in Hi. rewrite Hid, Hcs, <- Hloops. cbn [hd].
    rewrite <- (Hall i) by lia. unfold evaluateInContext.
    unfold annotated.
    rewrite (elementCondition_instantiated p Hp specs i Hplain).
    rewrite (map_ext _ (fun c => c)) by (intros c; apply replaceContextValues_noLoops).
    now rewrite map_id. }
  assert (Hrecords : evaluateConditionsInContexts documentJson r1 loops contextObj true
                     = inr (filter result (map outcome (seq 0 len)))).
  { unfold evaluateConditionsInContexts. rewrite Hctx.
    rewrite (evalFrom_all _ _ _ _ _ (fun c => outcome (hd 0 c)) _ _ Hevery).
    cbn [app]. unfold tuples. now rewrite map_map. }
  set (passing := filter result (map outcome (seq 0 len))) in *.
  assert (Heval : evaluateRule documentJson contextObj returnAllContexts r1 loops
                  = inr (setConditionResultContext
                           (if returnAllContexts then passing else firstn 1 passing)
                           r1)).
  { unfold evaluateRule. rewrite Hctx. unfold tuples.
    destruct len as [|len']; [lia |]. cbn [seq map].
    destruct returnAllContexts.
    - now rewrite Hrecords.
    - now rewrite (first_of_all documentJson contextObj r1 loops _ Hrecords). }
  rewrite (processRule_return _ _ _ _ _ _ _ _ _ _ _ _ Hprep Heval). cbn [fst snd].
  cbv zeta. fold passing.
  unfold addRuleToResults, limitEntry.
  cbn [setConditionResultContext conditionResultContext conditionsResult
       contextLimitReached timeLimitReached id type description].
  rewrite <- Hr1.
  cbn [setContexts setConditions setConditionResultContext conditionsResult
       contextLimitReached timeLimitReached limitReached timeReached
       id type description orb].
  rewrite Hfresh.
  destruct (if returnAllContexts then passing else firstn 1 passing);
    now rewrite app_nil_r.
Qed.

End EndToEnd.

(** ** Rules over two arrays *)

Lemma plain_chars (x : string) (c : ascii) :
  forallb (fun d => negb (Ascii.eqb d c)) (list_ascii_of_string x) = true ->
  ~ In c (list_ascii_of_string x).
Proof.
  intros Hs Hin. rewrite forallb_forall in Hs. specialize (Hs _ Hin).
  now rewrite Ascii.eqb_refl in Hs.
Qed.

Lemma first_occurrence (c : ascii) (l : str) :
  In c l -> exists l1 l2, l = l1 ++ c :: l2 /\ ~ In c l1.
Proof.
  induction l as [|d l IH]; [intros [] |].
  destruct (ascii_dec d c) as [-> | Hne].
  - intros _. exists [], l. split; [reflexivity | intros []].
  - intros [Heq | Hin]; [contradiction |].
    destruct (IH Hin) as (l1 & l2 & -> & Hnot).
    exists (d :: l1), l2. split; [reflexivity |].
    intros [Heq | Hin1]; [contradiction | now apply Hnot].
Qed.

Lemma split_unique (c : ascii) (x : str) :
  forall x' y y',
    x ++ c :: y = x' ++ c :: y' -> ~ In c x -> ~ In c x' -> x = x' /\ y = y'.
Proof.
  induction x as [|d x IH]; intros [|d' x'] y y' Heq Hx Hx'; cbn in Heq.
  - injection Heq as ->. now split.
  - injection Heq as -> _. exfalso. apply Hx'. now left.
  - injection Heq as -> _. exfalso. apply Hx. now left.
  - injection Heq as -> Heq.
    destruct (IH x' y y' Heq) as [-> ->]; [| | now split].
    + intros H. apply Hx. now right.
    + intros H. apply Hx'. now right.
Qed.

Lemma discoverInField_round (fuel : nat) (refValue : str)
  (conds : list condition) (loops : list loop) :
  discoverInField (S fuel) refValue conds loops
  = if JsString.includes $"[]" refValue
    then
      let (name, path) := extractLoopDetails refValue in
      let loops' :=
        if existsb (fun l => JsString.eqb (completeObjectPath l) path) loops
        then loops
        else loops ++ [mkLoop name path
                         (Some ($"@" ++ JsString.ofNat (length loops)))] in
      discoverInField fuel
        (JsString.replace (name ++ $"[]")
           (name ++ $"[" ++ lastParm loops' ++ $"]") refValue)
        (annotateConditions name loops' conds) loops'
    else (conds, loops).
Proof. reflexivity. Qed.

Section TwoArrays.

Variables p s q t : str.
Hypothesis p_plain : ~ In "["%char p.
Hypothesis s_plain : ~ In "["%char s.
Hypothesis q_plain : ~ In "["%char q.
Hypothesis t_plain : ~ In "["%char t.
Hypothesis p_dollar : ~ In "$"%char p.
Hypothesis q_dollar : ~ In "$"%char q.
Hypothesis apart : forall x, q <> x ++ lastSegment p.

Lemma lastSegment_plain (x : str) : ~ In "["%char x -> ~ In "["%char (lastSegment x).
Proof.
  intros Hx Hin. destruct (lastSegment_suffix x) as [pre Hpre].
  apply Hx. rewrite Hpre. apply in_or_app. now right.
Qed.

Lemma lastSegment_dollar (x : str) : ~ In "$"%char x -> ~ In "$"%char (lastSegment x).
Proof.
  intros Hx Hin. destruct (lastSegment_suffix x) as [pre Hpre].
  apply Hx. rewrite Hpre. apply in_or_app. now right.
Qed.

Lemma paths_differ : p <> q.
Proof.
  intros <-. destruct (lastSegment_suffix p) as [pre Hpre]. now apply (apart pre).
Qed.

(** The name of the first array does not reach into the second path. *)
Lemma other_untouched :
  JsString.includes (lastSegment p ++ $"[]") (q ++ $"[]" ++ t) = false.
Proof.
  destruct (JsString.includes _ _) eqn:E; [exfalso | reflexivity].
  apply includes_split in E as (a & b & Heq).
  change (q ++ $"[]" ++ t) with (q ++ "["%char :: "]"%char :: t) in Heq.
  rewrite <- app_assoc in Heq.
  change (a ++ lastSegment p ++ $"[]" ++ b)
    with (a ++ lastSegment p ++ "["%char :: "]"%char :: b) in Heq.
  destruct (in_dec ascii_dec "["%char a) as [Hin | Hnot].
  - destruct (first_occurrence _ _ Hin) as (a1 & a2 & -> & Ha1).
    rewrite <- app_assoc in Heq. cbn [app] in Heq.
    apply split_unique in Heq as [_ Heq]; [| exact q_plain | exact Ha1].
    assert (Hbad : In "["%char ("]"%char :: t)).
    { rewrite Heq. apply in_or_app. right. apply in_or_app. right. now left. }
    destruct Hbad as [Hbad | Hbad]; [discriminate | contradiction].
  - rewrite app_assoc in Heq.
    apply split_unique in Heq as [Heq _]; [| exact q_plain |].
    + now apply (apart a).
    + intros Hin. apply in_app_or in Hin as [Hin | Hin]; [contradiction |].
      now apply (lastSegment_plain p p_plain).
Qed.

Variable op : str.
Variable cv : option json.

(** The condition after the first array is bound, and after both are. *)
Local Abbreviation halfBound :=
  (mkCondition (Some (bound p s)) op cv (Some (q ++ $"[]" ++ t))).
Local Abbreviation bothBound :=
  (mkCondition (Some (bound p s)) op cv (Some (q ++ $"[@1]" ++ t))).

Lemma marker_truthy (x y : str) : truthyStr (Some (x ++ $"[]" ++ y)) = true.
Proof. now destruct x. Qed.

Lemma first_round :
  processField 0 Ref ([pairCondition p s q t op cv], [])
  = ([halfBound], [singleLoop p]).
Proof.
  rewrite (processField_array p p_plain p_dollar 0 Ref
             (pairCondition p s q t op cv) s) by (reflexivity || exact s_plain).
  f_equal. unfold annotateConditions. cbn [map]. f_equal.
  rewrite (annotateField_array p p_plain p_dollar Ref _ s)
    by (reflexivity || exact s_plain).
  unfold annotateField.
  cbn [getField setField pairCondition ref comparisonRef operator comparisonValue].
  now rewrite other_untouched, andb_false_r.
Qed.

Lemma second_token :
  JsString.includes $"[]" (q ++ $"[@1]" ++ t) = false.
Proof.
  change $"[]" with ("["%char :: ["]"%char]).
  rewrite StringFacts.includes_after by exact q_plain.
  change ($"[@1]" ++ t) with ("["%char :: $"@1]" ++ t).
  cbn [JsString.includes JsString.startsWith JsString.ascii_eqb Ascii.eqb
       Bool.eqb andb orb].
  rewrite StringFacts.includes_after by (now apply (plain_chars "@1]")).
  apply StringFacts.includes_absent with "["%char; [now left | exact t_plain].
Qed.

Lemma second_template :
  ~ In "$"%char (lastSegment q ++ $"[@1]").
Proof.
  intros Hin. apply in_app_or in Hin as [Hin | Hin].
  - now apply (lastSegment_dollar q q_dollar).
  - now apply (plain_chars "[@1]") in Hin.
Qed.

Lemma second_replaceAll :
  JsString.replaceAll (lastSegment q ++ $"[]") (lastSegment q ++ $"[@1]")
    (q ++ $"[]" ++ t)
  = q ++ $"[@1]" ++ t.
Proof.
  destruct (lastSegment_suffix q) as [pre Hpre].
  pose proof second_template as Htpl.
  set (nm := lastSegment q) in *.
  assert (Hq : ~ In "["%char (pre ++ nm)) by now rewrite <- Hpre.
  clearbody nm. rewrite Hpre. rewrite <- !app_assoc.
  change (nm ++ $"[]") with (nm ++ "["%char :: ["]"%char]).
  change (pre ++ nm ++ $"[]" ++ t) with (pre ++ nm ++ "["%char :: ["]"%char] ++ t).
  rewrite StringFacts.replaceAll_at;
    [now rewrite <- !app_assoc | exact Htpl | exact Hq | exact t_plain].
Qed.

Lemma second_replace :
  JsString.replace (lastSegment q ++ $"[]") (lastSegment q ++ $"[@1]")
    (q ++ $"[]" ++ t)
  = q ++ $"[@1]" ++ t.
Proof.
  destruct (lastSegment_suffix q) as [pre Hpre].
  pose proof second_template as Htpl.
  set (nm := lastSegment q) in *.
  assert (Hq : ~ In "["%char (pre ++ nm)) by now rewrite <- Hpre.
  clearbody nm. rewrite Hpre. rewrite <- !app_assoc.
  change (nm ++ $"[]") with (nm ++ "["%char :: ["]"%char]).
  change (pre ++ nm ++ $"[]" ++ t) with (pre ++ nm ++ "["%char :: ["]"%char] ++ t).
  rewrite StringFacts.replace_at;
    [now rewrite <- !app_assoc | exact Htpl | exact Hq].
Qed.

Lemma second_round :
  processField 0 ComparisonRef ([halfBound], [singleLoop p])
  = ([bothBound], [singleLoop p; secondLoop q]).
Proof.
  unfold processField.
  cbn [nth_error getField comparisonRef]. rewrite marker_truthy.
  assert (Hfuel : exists k, length (q ++ $"[]" ++ t) = S k).
  { exists (length q + S (length t)). rewrite length_app. cbn. lia. }
  destruct Hfuel as [k ->].
  rewrite discoverInField_round, includes_brackets_at.
  rewrite (extractLoopDetails_at q q_plain).
  cbn [existsb singleLoop completeObjectPath orb].
  destruct (JsString.eqb p q) eqn:E.
  { apply StringFacts.eqb_eq in E. now destruct paths_differ. }
  cbn [orb app length]. cbv zeta.
  set (found := [singleLoop p;
                 mkLoop (lastSegment q) q (Some ($"@" ++ JsString.ofNat 1))]).
  change (lastParm found) with $"@1".
  change (lastSegment q ++ $"[" ++ $"@1" ++ $"]") with (lastSegment q ++ $"[@1]").
  rewrite second_replace.
  unfold annotateConditions. cbn [map].
  unfold annotateField at 2.
  cbn [getField ref].
  replace (JsString.includes (lastSegment q ++ $"[]") (bound p s)) with false.
  2:{ symmetry. destruct (JsString.includes (lastSegment q ++ $"[]") (bound p s)) eqn:Hi;
        [| reflexivity].
      apply includes_marker in Hi. now rewrite (bound_quiet p p_plain s s_plain) in Hi. }
  rewrite andb_false_r.
  unfold annotateField. cbn [getField comparisonRef]. rewrite marker_truthy.
  rewrite (includes_name_at q q_plain q_dollar). cbn [andb].
  change (lastParm found) with $"@1".
  change (lastSegment q ++ $"[" ++ $"@1" ++ $"]") with (lastSegment q ++ $"[@1]").
  rewrite second_replaceAll.
  cbn [setField ref operator comparisonValue].
  now rewrite discoverInField_round, second_token.
Qed.

Lemma pair_discovery :
  processConditionsForLoops [pairCondition p s q t op cv] []
  = ([bothBound], [singleLoop p; secondLoop q]).
Proof.
  unfold processConditionsForLoops. cbn [length seq fold_left].
  now rewrite first_round, second_round.
Qed.

Lemma element_plain (x y : str) (i : nat) :
  ~ In "["%char x -> ~ In "["%char y ->
  ~ In "["%char (x ++ $"." ++ JsString.ofNat i ++ y).
Proof.
  intros Hx Hy Hin. apply in_app_or in Hin as [Hin | Hin]; [contradiction |].
  destruct Hin as [Hin | Hin]; [discriminate |].
  change (In "["%char (JsString.ofNat i ++ y)) in Hin.
  apply in_app_or in Hin as [Hin | Hin]; [| contradiction].
  now apply ofNat_chars in Hin.
Qed.

Lemma second_instantiated (j : nat) (rest : list nat) (i : nat) :
  JsString.replaceAll (placeholderToken 1) (indexSegment (i :: j :: rest) 1)
    (q ++ $"[@1]" ++ t)
  = q ++ $"." ++ JsString.ofNat j ++ t.
Proof.
  change (placeholderToken 1) with ([] ++ "["%char :: $"@1]").
  change (indexSegment (i :: j :: rest) 1) with ($"." ++ JsString.ofNat j).
  change (q ++ $"[@1]" ++ t) with (q ++ [] ++ "["%char :: $"@1]" ++ t).
  rewrite StringFacts.replaceAll_at; [now rewrite <- app_assoc | | | exact t_plain].
  - intros [Hin | Hin]; [discriminate |]. now apply ofNat_chars in Hin.
  - now rewrite app_nil_r.
Qed.

Lemma second_waits (rep : str) :
  JsString.replaceAll (placeholderToken 0) rep (q ++ $"[@1]" ++ t)
  = q ++ $"[@1]" ++ t.
Proof.
  change (placeholderToken 0) with ("["%char :: $"@0]").
  cbn [JsString.replaceAll]. apply replaceAllFrom_quiet.
  rewrite StringFacts.includes_after by exact q_plain.
  change ($"[@1]" ++ t) with ("["%char :: $"@1]" ++ t).
  cbn [JsString.includes JsString.startsWith JsString.ascii_eqb Ascii.eqb
       Bool.eqb andb orb list_ascii_of_string].
  rewrite StringFacts.includes_after by (now apply (plain_chars "@1]")).
  apply StringFacts.includes_absent with "["%char; [now left | exact t_plain].
Qed.

Lemma first_stays (i : nat) (rep : str) :
  JsString.replaceAll (placeholderToken 1) rep (p ++ $"." ++ JsString.ofNat i ++ s)
  = p ++ $"." ++ JsString.ofNat i ++ s.
Proof.
  change (placeholderToken 1) with ("["%char :: $"@1]").
  cbn [JsString.replaceAll].
  apply StringFacts.replaceAllFrom_absent with "["%char; [now left |].
  now apply element_plain.
Qed.

(** Position 0 of the context goes to the first array met, position
    1 to the second, whatever the loop list holds. *)
Lemma pair_instantiated (la lb : loop) (i j : nat) :
  replaceContextValues bothBound [la; lb] [i; j] = atPair p s q t op cv i j.
Proof.
  unfold replaceContextValues, atPair.
  cbn [length seq fold_left ref comparisonRef option_map operator comparisonValue].
  assert (Htruthy : forall x, truthyStr (Some (q ++ $"[@1]" ++ x)) = true)
    by (intros x; now destruct q).
  rewrite Htruthy, second_waits, Htruthy.
  change (indexSegment [i; j] 0) with (indexSegment [i] 0).
  rewrite (bound_instantiated p s i p_plain s_plain).
  cbn [fst snd option_map].
  now rewrite first_stays, second_instantiated.
Qed.

End TwoArrays.

Lemma map_flat_map {A B C : Type} (f : B -> C) (g : A -> list B) (l : list A) :
  map f (flat_map g l) = flat_map (fun x => map f (g x)) l.
Proof.
  induction l as [|x l IH]; [reflexivity |].
  cbn [flat_map]. now rewrite map_app, IH.
Qed.

Section PairRules.

Context {host : Host}.
Variable documentJson : json.
Variable contextObj : option json.
Variables contextLimit startTime timeLimit : Z.

Lemma pair_sorted (p q : str) :
  sortLoopsByPath [singleLoop p; secondLoop q]
  = if (localeCompare q p <? 0)%Z
    then [secondLoop q; singleLoop p]
    else [singleLoop p; secondLoop q].
Proof.
  unfold sortLoopsByPath.
  cbn [fold_left insertLoop completeObjectPath singleLoop secondLoop].
  now destruct (localeCompare q p <? 0)%Z.
Qed.

(** Two loops over independent arrays, within the budget. *)
Lemma pair_contexts (la lb : loop) (rows cols : nat) (clock : nat) :
  arrayLength documentJson (completeObjectPath la) rows ->
  arrayLength documentJson (completeObjectPath lb) cols ->
  ~ In "["%char (completeObjectPath lb) ->
  (Z.of_nat (rows * cols) <= contextLimit)%Z ->
  withinTime startTime timeLimit ->
  exists st,
    explodeContexts documentJson [la; lb] [] contextLimit startTime timeLimit
      (mkMachine freshCounter clock) = (rowMajor rows cols, st)
    /\ limitReached (counter st) = false
    /\ timeReached (counter st) = false.
Proof.
  intros Hrows Hcols Hfree Hlimit Hwithin.
  pose proof (explodeContexts_ok documentJson contextLimit startTime timeLimit
                [la; lb] [] (mkMachine freshCounter clock)) as Hok.
  rewrite (fullContexts_two documentJson la lb rows cols Hrows) in Hok.
  2:{ intros i _.
      rewrite StringFacts.replace_absent with (c := "["%char);
        [exact Hcols | | exact Hfree].
      apply in_or_app. right. now left. }
  destruct (explodeContexts documentJson [la; lb] [] contextLimit startTime
              timeLimit (mkMachine freshCounter clock)) as [ts st].
  cbn [fst snd] in Hok.
  destruct Hok as (_ & Hfull & _ & _ & Hup & Hlim & _ & _ & _ & Hw).
  unfold cnt in *. cbn [counter count freshCounter limitReached timeReached] in *.
  rewrite rowMajor_length in Hup.
  assert (Hl : limitReached (counter st) = false).
  { destruct (limitReached (counter st)); [| reflexivity].
    specialize (Hlim eq_refl eq_refl). lia. }
  assert (Ht : timeReached (counter st) = false) by now apply Hw.
  exists st. split; [| now split].
  destruct Hfull as [-> _]; [| reflexivity].
  apply tripped_false. now split.
Qed.

Lemma pair_rule_run (returnAllContexts : bool) (r : rule) (clock : nat)
  (p s q t op : str) (cv : option json) (la lb : loop) (rows cols : nat)
  (outcome : nat -> nat -> evaluation) :
  ~ In "["%char p -> ~ In "["%char s -> ~ In "["%char q -> ~ In "["%char t ->
  ~ In "$"%char p -> ~ In "$"%char q ->
  (forall x, q <> x ++ lastSegment p) ->
  conditions r = [pairCondition p s q t op cv] ->
  conditionsResult r = None ->
  sortLoopsByPath [singleLoop p; secondLoop q] = [la; lb] ->
  arrayLength documentJson (completeObjectPath la) rows ->
  arrayLength documentJson (completeObjectPath lb) cols ->
  ~ In "["%char (completeObjectPath lb) ->
  0 < rows -> 0 < cols ->
  (Z.of_nat (rows * cols) <= contextLimit)%Z ->
  withinTime startTime timeLimit ->
  (forall a b, a < rows -> b < cols ->
     evaluateInContext documentJson (id r) [atPair p s q t op cv a b] []
       contextObj []
     = inr (outcome a b)) ->
  snd (fst (processRule documentJson contextObj contextLimit startTime timeLimit
              returnAllContexts r clock))
  = let passing :=
      filter result
        (flat_map (fun a => map (outcome a) (seq 0 cols)) (seq 0 rows)) in
    reportOf r (if returnAllContexts then passing else firstn 1 passing).
Proof.
  intros Hp Hs Hq Ht Hpd Hqd Hapart Hconds Hfresh Hsort Hrows Hcols Hfree
         Hrpos Hcpos Hlimit Hwithin Hall.
  destruct (prepareRule documentJson contextLimit startTime timeLimit r clock)
    as [[r1 loops] st] eqn:Hprep.
  pose proof Hprep as Hrun. unfold prepareRule in Hrun.
  cbn [conditions setConditionResultContext] in Hrun. rewrite Hconds in Hrun.
  rewrite (pair_discovery p s q t Hp Hs Hq Ht Hpd Hqd Hapart op cv) in Hrun.
  rewrite Hsort in Hrun.
  destruct (pair_contexts la lb rows cols clock Hrows Hcols Hfree Hlimit Hwithin)
    as (st0 & Hexp & Hl & Htm).
  rewrite Hexp in Hrun. injection Hrun as Hr1 Hloops Hst.
  set (annotated := mkCondition (Some (bound p s)) op cv (Some (q ++ $"[@1]" ++ t)))
    in *.
  assert (Hid : id r1 = id r) by now rewrite <- Hr1.
  assert (Hcs : conditions r1 = [annotated]) by now rewrite <- Hr1.
  assert (Hctx : contexts r1 = Some (rowMajor rows cols)) by now rewrite <- Hr1.
  assert (Hevery : forall c, In c (rowMajor rows cols) ->
            evaluateInContext documentJson (id r1) (conditions r1) loops contextObj c
            = inr (outcome (nth 0 c 0) (nth 1 c 0))).
  { intros c Hc. apply rowMajor_In in Hc as (a & b & Ha & Hb & ->).
    rewrite Hid, Hcs, <- Hloops. cbn [nth].
    rewrite <- (Hall a b Ha Hb). unfold evaluateInContext. cbn [map].
    unfold annotated.
    rewrite (pair_instantiated p s q t Hp Hs Hq Ht Hqd Hapart op cv la lb a b).
    now rewrite replaceContextValues_noLoops. }
  assert (Hrecords : evaluateConditionsInContexts documentJson r1 loops contextObj true
                     = inr (filter result
                              (flat_map (fun a => map (outcome a) (seq 0 cols))
                                 (seq 0 rows)))).
  { unfold evaluateConditionsInContexts. rewrite Hctx.
    rewrite (evalFrom_all _ _ _ _ _ (fun c => outcome (nth 0 c 0) (nth 1 c 0))
               _ _ Hevery).
    cbn [app]. unfold rowMajor. rewrite map_flat_map. do 2 f_equal.
    apply flat_map_ext. intros a. now rewrite map_map. }
  set (passing := filter result
                    (flat_map (fun a => map (outcome a) (seq 0 cols)) (seq 0 rows)))
    in *.
  assert (Heval : evaluateRule documentJson contextObj returnAllContexts r1 loops
                  = inr (setConditionResultContext
                           (if returnAllContexts then passing else firstn 1 passing)
                           r1)).
  { unfold evaluateRule. rewrite Hctx.
    destruct (rowMajor rows cols) as [|c0 cs] eqn:Hrm.
    { apply (f_equal (@length (list nat))) in Hrm.
      rewrite rowMajor_length in Hrm. cbn in Hrm. nia. }
    destruct returnAllContexts.
    - now rewrite Hrecords.
    - now rewrite (first_of_all documentJson contextObj r1 loops _ Hrecords). }
  rewrite (processRule_return _ _ _ _ _ _ _ _ _ _ _ _ Hprep Heval). cbn [fst snd].
  cbv zeta. fold passing.
  unfold addRuleToResults, limitEntry, reportOf.
  cbn [setConditionResultContext conditionResultContext conditionsResult
       contextLimitReached timeLimitReached id type description].
  rewrite <- Hr1.
  cbn [setContexts setConditions setConditionResultContext conditionsResult
       contextLimitReached timeLimitReached id type description].
  rewrite Hfresh, Hl, Htm. cbn [orb].
  destruct (if returnAllContexts then passing else firstn 1 passing);
    now rewrite app_nil_r.
Qed.

(** X29. A rule that compares a field of the elements of one array
    with a field of the elements of another, the array met first
    sorting first, within the budget and with no condition raising:
    every pair of elements is tested by the condition written for
    that pair, and the records of the pairs that pass are reported in
    row-major order, the first array varying slowest. *)
Theorem two_array_rule_entries (returnAllContexts : bool) (r : rule) (clock : nat)
  (p s q t op : str) (cv : option json) (m n : nat)
  (outcome : nat -> nat -> evaluation) :
  ~ In "["%char p -> ~ In "["%char s -> ~ In "["%char q -> ~ In "["%char t ->
  ~ In "$"%char p -> ~ In "$"%char q ->
  (forall x, q <> x ++ lastSegment p) ->
  (0 <= localeCompare q p)%Z ->
  conditions r = [pairCondition p s q t op cv] ->
  conditionsResult r = None ->
  arrayLength documentJson p m ->
  arrayLength documentJson q n ->
  0 < m -> 0 < n ->
  (Z.of_nat (m * n) <= contextLimit)%Z ->
  withinTime startTime timeLimit ->
  (forall i j, i < m -> j < n ->
     evaluateInContext documentJson (id r) [atPair p s q t op cv i j] []
       contextObj []
     = inr (outcome i j)) ->
  snd (fst (processRule documentJson contextObj contextLimit startTime timeLimit
              returnAllContexts r clock))
  = let passing :=
      filter result (flat_map (fun i => map (outcome i) (seq 0 n)) (seq 0 m)) in
    reportOf r (if returnAllContexts then passing else firstn 1 passing).
Proof.
  intros Hp Hs Hq Ht Hpd Hqd Hapart Horder Hconds Hfresh Hm Hn Hmpos Hnpos
         Hlimit Hwithin Hall.
  apply (pair_rule_run returnAllContexts r clock p s q t op cv
           (singleLoop p) (secondLoop q) m n outcome); try assumption.
  rewrite pair_sorted. destruct (Z.ltb_spec (localeCompare q p) 0); [lia | reflexivity].
Qed.

(** X30. The same rule when the array met second sorts first.  The
    contexts are generated for the sorted list, but the placeholders
    are replaced by position: the element of the array met first is
    picked by the index generated for the other array, and
    conversely.  The pairs tested are the elements [a] of the first
    array and [b] of the second for [a] below the length of the
    second array and [b] below the length of the first. *)
Theorem two_array_rule_swapped (returnAllContexts : bool) (r : rule) (clock : nat)
  (p s q t op : str) (cv : option json) (m n : nat)
  (outcome : nat -> nat -> evaluation) :
  ~ In "["%char p -> ~ In "["%char s -> ~ In "["%char q -> ~ In "["%char t ->
  ~ In "$"%char p -> ~ In "$"%char q ->
  (forall x, q <> x ++ lastSegment p) ->
  (localeCompare q p < 0)%Z ->
  conditions r = [pairCondition p s q t op cv] ->
  conditionsResult r = None ->
  arrayLength documentJson p m ->
  arrayLength documentJson q n ->
  0 < m -> 0 < n ->
  (Z.of_nat (n * m) <= contextLimit)%Z ->
  withinTime startTime timeLimit ->
  (forall a b, a < n -> b < m ->
     evaluateInContext documentJson (id r) [atPair p s q t op cv a b] []
       contextObj []
     = inr (outcome a b)) ->
  snd (fst (processRule documentJson contextObj contextLimit startTime timeLimit
              returnAllContexts r clock))
  = let passing :=
      filter result (flat_map (fun a => map (outcome a) (seq 0 m)) (seq 0 n)) in
    reportOf r (if returnAllContexts then passing else firstn 1 passing).
Proof.
  intros Hp Hs Hq Ht Hpd Hqd Hapart Horder Hconds Hfresh Hm Hn Hmpos Hnpos
         Hlimit Hwithin Hall.
  apply (pair_rule_run returnAllContexts r clock p s q t op cv
           (secondLoop q) (singleLoop p) n m outcome); try assumption.
  rewrite pair_sorted. destruct (Z.ltb_spec (localeCompare q p) 0); [reflexivity | lia].
Qed.

End PairRules.

(** ** Instances *)

Lemma compareStr_total (a : str) :
  forall b, (0 <= Model.compareStr a b)%Z -> (Model.compareStr b a <= 0)%Z.
Proof.
  induction a as [|x a IH]; intros [|y b]; cbn [Model.compareStr]; try lia.
  destruct (Nat.ltb_spec (nat_of_ascii x) (nat_of_ascii y)),
           (Nat.ltb_spec (nat_of_ascii y) (nat_of_ascii x)); try lia.
  apply IH.
Qed.

Lemma compareStr_trans (a : str) :
  forall b c,
    (Model.compareStr a b <= 0)%Z -> (Model.compareStr b c <= 0)%Z ->
    (Model.compareStr a c <= 0)%Z.
Proof.
  induction a as [|x a IH]; intros [|y b] [|z c]; cbn [Model.compareStr]; try lia.
  destruct (Nat.ltb_spec (nat_of_ascii x) (nat_of_ascii y)),
           (Nat.ltb_spec (nat_of_ascii y) (nat_of_ascii x)),
           (Nat.ltb_spec (nat_of_ascii y) (nat_of_ascii z)),
           (Nat.ltb_spec (nat_of_ascii z) (nat_of_ascii y)),
           (Nat.ltb_spec (nat_of_ascii x) (nat_of_ascii z)),
           (Nat.ltb_spec (nat_of_ascii z) (nat_of_ascii x)); try lia.
  apply IH.
Qed.

Lemma still_within : withinTime (host := Model.still) 0 200.
Proof. intros n. simpl. lia. Qed.


Lemma operators_in_pairs_witness :
  testCondition (host := Model.still) (mkValue (Some (JNum 22)) FromRule)
    (mkValue (Some (JNum 22)) FromRule) $"<>"
  = inr false.
Proof.
  destruct (operators_in_pairs (host := Model.still)
              (mkValue (Some (JNum 22)) FromRule)
              (mkValue (Some (JNum 22)) FromRule) true) as [Hneq _].
  - discriminate.
  - apply Hneq. vm_compute. reflexivity.
Defined.

Lemma getValueWithContext_routes_witness :
  getValueWithContext (host := Model.still) Examples.docJohn
    (Some $"_context.limit") (Some (JObj [($"limit", JNum 18)]))
  = mkValue (Some (JNum 18)) (FromContext $"limit").
Proof.
  destruct (getValueWithContext_routes (host := Model.still) Examples.docJohn)
    as (Hctx & _).
  rewrite (Hctx $"limit") by reflexivity. reflexivity.
Defined.

Lemma evaluateSimpleConditions_stops_witness :
  evaluateSimpleConditions (host := Model.still) Examples.docJohn
    [Samples.nameIsJohn; Samples.isMinor; Samples.raising] None
  = inr (mkSimpleResult false
           [mkConditionValue (Some $"name") (Some (JStr $"John Doe")) $"="
              (Some (JStr $"John Doe"))]).
Proof.
  apply (evaluateSimpleConditions_stops (host := Model.still) Examples.docJohn None
           [Samples.nameIsJohn] [Samples.raising] Samples.isMinor
           (mkConditionValue (Some $"age") (Some (JNum 22)) $"<" (Some (JNum 18)))).
  - constructor; [| constructor]. eexists. vm_compute. reflexivity.
  - vm_compute. reflexivity.
Defined.

Lemma evaluateSimpleConditions_outcomes_witness :
  evaluateSimpleConditions (host := Model.still) Examples.docJohn
    [Samples.nameIsJohn; Samples.raising; Samples.isMinor] None
  = inl $"Failed to evaluate conditions in one context.".
Proof.
  destruct (evaluateSimpleConditions_outcomes (host := Model.still) Examples.docJohn
              None [Samples.nameIsJohn; Samples.raising; Samples.isMinor])
    as [_ Hraise].
  apply (Hraise [Samples.nameIsJohn] Samples.raising [Samples.isMinor]
           (failedToTest $"INVALID_OPERATOR")).
  - reflexivity.
  - constructor; [| constructor]. eexists. vm_compute. reflexivity.
  - vm_compute. reflexivity.
Defined.

Lemma evaluateInContext_record_witness :
  map cv_operator (conditionValues (Samples.recordAB 1 "a.0.x" "b.0.y")) = [$"="].
Proof.
  apply (evaluateInContext_record (host := Model.still) Examples.docAB None
           (Some (JStr $"ab")) (conditions Examples.ruleABannotated)
           [Examples.loopA; Examples.loopB] [0; 0]
           (Samples.recordAB 1 "a.0.x" "b.0.y")).
  - vm_compute. reflexivity.
  - reflexivity.
Defined.

Lemma first_context_of_all_witness :
  evaluateConditionsInContexts (host := Model.still) Examples.docAB
    Examples.ruleABannotated [Examples.loopA; Examples.loopB] None false
  = inr [Samples.recordAB 1 "a.0.x" "b.0.y"].
Proof.
  apply (first_context_of_all (host := Model.still) Examples.docAB None
           Examples.ruleABannotated [Examples.loopA; Examples.loopB]
           [Samples.recordAB 1 "a.0.x" "b.0.y"; Samples.recordAB 2 "a.1.x" "b.1.y"]).
  vm_compute. reflexivity.
Defined.

Lemma replaceContextValues_plain_witness :
  replaceContextValues Samples.nameIsJohn [Examples.loopA; Examples.loopB] [0; 1]
  = Samples.nameIsJohn.
Proof.
  apply replaceContextValues_plain.
  intros f v H. destruct f; cbn in H; [| discriminate].
  injection H as <-. vm_compute. reflexivity.
Defined.

Lemma tokens_match_when_sorted_witness :
  placeholderToken 1 = $"[" ++ templ (parm Examples.loopB) ++ $"]".
Proof.
  apply (tokens_match_when_sorted (host := Model.still)
           (conditions Examples.ruleAB)) with (k := 1).
  - vm_compute. reflexivity.
  - vm_compute. reflexivity.
Defined.

Lemma discovery_loop_ends_witness :
  discoverInField 20 $"a[].b[]" [] [] = discoverInField 8 $"a[].b[]" [] [].
Proof.
  apply (discovery_loop_ends 20 $"a[].b[]" [] []).
  - now apply (plain_chars "a[].b[]").
  - simpl. lia.
Defined.

Lemma sortLoopsByPath_sorts_witness :
  StronglySorted (pathLe (host := Model.still))
    (sortLoopsByPath (host := Model.still) [Examples.loopB; Examples.loopA]).
Proof.
  destruct (sortLoopsByPath_sorts (host := Model.still)
              [Examples.loopB; Examples.loopA]) as [_ Hsorted].
  apply Hsorted.
  - intros a. apply compareStr_total.
  - intros a. apply compareStr_trans.
Defined.

Lemma explodeContexts_tuples_witness :
  length [1; 2] = length [Examples.loopA; Examples.loopB].
Proof.
  destruct (explodeContexts_tuples (host := Model.still) Examples.docAB
              [Examples.loopA; Examples.loopB] 10000 0 200
              (mkMachine freshCounter 0)) as [_ Hshape].
  apply (Hshape [1; 2]). vm_compute. do 5 right. left. reflexivity.
Defined.

Lemma empty_array_no_context_witness :
  fst (explodeContexts (host := Model.still) Examples.docAB
         [Examples.loopA; mkLoop $"c" $"c" (Some $"@1")] [] 10000 0 200
         (mkMachine freshCounter 0))
  = [].
Proof.
  apply empty_array_no_context.
  - repeat constructor; [now apply (plain_chars "a") | now apply (plain_chars "c")].
  - apply Exists_cons_tl, Exists_cons_hd. vm_compute. reflexivity.
Defined.

Lemma limit_entry_has_one_cause_witness :
  r_conditions Samples.limitOfOne = None.
Proof.
  apply (limit_entry_has_one_cause (host := Model.still) Examples.docAB 1 0 200
           None true Examples.ruleAB 0 Samples.limitOfOne).
  - vm_compute. left. reflexivity.
  - reflexivity.
Defined.

Lemma one_loop_under_limit_witness :
  fst (explodeContexts (host := Model.still) Examples.docAB [Examples.loopB] []
         2 0 200 (mkMachine freshCounter 0))
  = [[0]; [1]].
Proof.
  apply (one_loop_under_limit (host := Model.still) Examples.docAB 2 0 200
           still_within Examples.loopB 0).
Defined.

Lemma two_loops_under_limit_witness :
  fst (explodeContexts (host := Model.still) Examples.docAB
         [Examples.loopA; Examples.loopB] [] 4 0 200 (mkMachine freshCounter 0))
  = [[0; 0]; [0; 1]; [0; 2]].
Proof.
  apply (two_loops_under_limit (host := Model.still) Examples.docAB 4 0 200
           still_within Examples.loopA Examples.loopB 2 3 0).
  - lia.
  - eexists. split; [vm_compute; reflexivity | reflexivity].
  - intros i Hi. eexists.
    split; [destruct i as [|[|i]]; [vm_compute; reflexivity .. | lia] | reflexivity].
Defined.

Lemma filterRulesByDate_in_force_witness :
  pick Samples.datedRules
    (fst (filterRulesByDate (host := Samples.dated) Samples.datedRules 0))
  = [Samples.datedRule "always" None None].
Proof.
  apply (filterRulesByDate_in_force (host := Samples.dated) 1767225600000).
  intros n. reflexivity.
Defined.

Lemma filterRulesByDate_members_witness :
  In 1 (fst (filterRulesByDate (host := Samples.dated) Samples.datedRules 0)).
Proof.
  destruct (filterRulesByDate_members (host := Samples.dated) Samples.datedRules 0 1)
    as [_ Hkept].
  apply (Hkept (Samples.datedRule "always" None None)).
  - reflexivity.
  - intros now. reflexivity.
Defined.

Lemma plain_rule_entries_witness :
  snd (fst (processRule (host := Model.still) Examples.docJohn None 10000 0 200 true
              Examples.ruleValid 0))
  = [mkRuleResult (Some (JStr $"2")) None None
       (Some (PerContext
                [mkEvaluation true
                   [mkConditionValue (Some $"name") (Some (JStr $"John Doe")) $"="
                      (Some (JStr $"John Doe"))]]))
       keywordConditional None].
Proof.
  rewrite (plain_rule_entries (host := Model.still) Examples.docJohn None 10000 0 200
             true Examples.ruleValid 0).
  - vm_compute. reflexivity.
  - constructor; [| constructor]. intros f v H.
    destruct f; cbn in H; [| discriminate]. injection H as <-. vm_compute. reflexivity.
  - reflexivity.
  - lia.
  - simpl. lia.
Defined.

Lemma empty_rule_is_satisfied_witness :
  snd (fst (processRule (host := Model.still) Examples.docJohn None 10000 0 200 true
              (Examples.plainRule "empty" []) 0))
  = [mkRuleResult (Some (JStr $"empty")) None None
       (Some (PerContext [mkEvaluation true []])) keywordConditional None].
Proof.
  apply (empty_rule_is_satisfied (host := Model.still) Examples.docJohn None
           10000 0 200 true (Examples.plainRule "empty" []) 0).
  - reflexivity.
  - lia.
  - simpl. lia.
Defined.

Lemma array_rule_entries_witness :
  snd (fst (processRule (host := Model.still) Examples.docPessoas None 10000 0 200
              true Samples.adults 0))
  = [mkRuleResult (Some (JStr $"adults")) None None
       (Some (PerContext [Samples.adultRecord])) keywordConditional None].
Proof.
  apply (array_rule_entries (host := Model.still) Examples.docPessoas None
           10000 0 200 true Samples.adults 0 $"pessoas"
           [($".idade", $">", Some (JNum 18))] 2 Samples.adultOutcome).
  - now apply (plain_chars "pessoas").
  - now apply (plain_chars "pessoas").
  - discriminate.
  - constructor; [now apply (plain_chars ".idade") | constructor].
  - reflexivity.
  - reflexivity.
  - eexists. split; [vm_compute; reflexivity | reflexivity].
  - lia.
  - lia.
  - exact still_within.
  - intros i Hi. destruct i as [|[|i]]; [vm_compute; reflexivity .. | lia].
Defined.

Lemma two_array_rule_entries_witness :
  snd (fst (processRule (host := Model.still) Examples.docAB None 10000 0 200 true
              Examples.ruleAB 0))
  = [mkRuleResult (Some (JStr $"ab")) None None
       (Some (PerContext [Samples.recordAB 1 "a.0.x" "b.0.y";
                          Samples.recordAB 2 "a.1.x" "b.1.y"]))
       keywordConditional None].
Proof.
  apply (two_array_rule_entries (host := Model.still) Examples.docAB None
           10000 0 200 true Examples.ruleAB 0 $"a" $".x" $"b" $".y" $"=" None
           2 3 Samples.outcomeAB).
  - now apply (plain_chars "a").
  - now apply (plain_chars ".x").
  - now apply (plain_chars "b").
  - now apply (plain_chars ".y").
  - now apply (plain_chars "a").
  - now apply (plain_chars "b").
  - intros x H. change (lastSegment $"a") with $"a" in H.
    destruct x as [|c [|d x]]; simpl in H; discriminate.
  - simpl. lia.
  - reflexivity.
  - reflexivity.
  - eexists. split; [vm_compute; reflexivity | reflexivity].
  - eexists. split; [vm_compute; reflexivity | reflexivity].
  - lia.
  - lia.
  - lia.
  - exact still_within.
  - intros i j Hi Hj.
    destruct i as [|[|i]]; [| | lia];
      (destruct j as [|[|[|j]]]; [vm_compute; reflexivity .. | lia]).
Defined.

Lemma two_array_rule_swapped_witness :
  snd (fst (processRule (host := Model.still) Examples.docZA None 10000 0 200 true
              Examples.ruleZA 0))
  = [].
Proof.
  apply (two_array_rule_swapped (host := Model.still) Examples.docZA None
           10000 0 200 true Examples.ruleZA 0 $"zeta" $".v" $"alpha" $".w" $"=" None
           2 1 (fun _ _ => mkEvaluation false [])).
  - now apply (plain_chars "zeta").
  - now apply (plain_chars ".v").
  - now apply (plain_chars "alpha").
  - now apply (plain_chars ".w").
  - now apply (plain_chars "zeta").
  - now apply (plain_chars "alpha").
  - intros x H. change (lastSegment $"zeta") with $"zeta" in H.
    destruct x as [|c [|d x]]; simpl in H; try discriminate.
    apply (f_equal (@length ascii)) in H. simpl in H.
    rewrite length_app in H. simpl in H. lia.
  - simpl. lia.
  - reflexivity.
  - reflexivity.
  - eexists. split; [vm_compute; reflexivity | reflexivity].
  - eexists. split; [vm_compute; reflexivity | reflexivity].
  - lia.
  - lia.
  - lia.
  - exact still_within.
  - intros a b Ha Hb.
    destruct a as [|a]; [| lia].
    destruct b as [|[|b]]; [vm_compute; reflexivity .. | lia].
Defined.
